(** * A Rocq model of the retrieval pipeline of rag-chatbot-prototype

    The first part follows the Python sources file by file:
    - [Py]            the Python built-ins the sources rely on (str methods,
                      slices, [re.sub] for the three patterns that occur,
                      exceptions);
    - [TextUtils]     src/utils/text_utils.py;
    - [OpenAIUtils]   src/utils/openai_utils.py;
    - [VectorService] src/services/vector_service.py;
    - [RAGService]    src/services/rag_service.py;
    - [ChatService]   src/services/chat_service.py and src/models/conversation.py;
    - [EmbeddingService] src/services/embedding_service.py;
    - [PdfUtils]      src/utils/pdf_utils.py;
    - [DocumentService] src/services/document_service.py.

    The second part states and proves the properties: [PyFacts],
    [TextUtilsFacts], [ChunkFacts] and [ChunkProperties] for the chunker,
    [OpenAIFacts] for the retry policy, [VectorFacts] and [VectorExamples]
    for the index, [RAGFacts] for the orchestrator, [ChatFacts] for the
    session manager; then [ChunkExtras], [BatchExtras], [VectorExtras],
    [RAGExtras], [ChatExtras], [EmbeddingExtras], [DocumentExtras],
    [PageExtras] and [CleanExtras] with further properties of the same code
    and of its callers.

    Python [int] is [Z]; a Python [str] that is processed character by
    character is a [list ascii] (code points below 256), identifiers,
    dictionary keys and messages are [string]; a [dict] is a [gmap]; a
    function that can raise returns a [result]; a [while] loop takes fuel;
    random identifiers and clock readings come from oracles.  Floating
    point numbers are the carrier of the class [Floats], with the rounding
    to single precision of the index as an operation; the examples run in
    two instances, [fixed_point] without rounding and [binary_point] with
    the rounding to 24 significant bits. *)

From Stdlib Require Import ZArith List Ascii String Bool Lia Sorted.
From Stdlib Require Import DecimalString DecimalPos DecimalZ.
From stdpp Require Import base option list gmap strings sorting.

(** ** Python built-ins *)

Module Py.

Local Open Scope Z_scope.

Definition str (s : string) : list ascii := list_ascii_of_string s.

Definition len {A} (l : list A) : Z := Z.of_nat (length l).

(** [str.isspace] on one character, which is also what [\s] matches in a
    [str] pattern: U+0009..U+000D, U+001C..U+0020, U+0085 and U+00A0 are
    the white-space code points below 256. *)
Definition isspace (c : ascii) : bool :=
  let n := N_of_ascii c in
  (((9 <=? n) && (n <=? 13)) || ((28 <=? n) && (n <=? 32))
   || (n =? 133) || (n =? 160))%N.

(** [\d] in a [str] pattern; below 256 the decimal digits are 0..9. *)
Definition isdigit (c : ascii) : bool :=
  let n := N_of_ascii c in ((48 <=? n) && (n <=? 57))%N.

Definition newline : ascii := "010"%char.
Definition space : ascii := " "%char.

(** [str.strip()] *)
Fixpoint lstrip (s : list ascii) : list ascii :=
  match s with
  | [] => []
  | c :: r => if isspace c then lstrip r else s
  end.

Definition rstrip (s : list ascii) : list ascii := rev (lstrip (rev s)).

Definition strip (s : list ascii) : list ascii := rstrip (lstrip s).

(** Truth value of a sequence: empty is false. *)
Definition truthy {A} (l : list A) : bool :=
  match l with [] => false | _ => true end.

(** The bound of a slice [s[i:j]] or of a [start]/[end] argument: negative
    values count from the end, and the result is clamped to [0, len]. *)
Definition slice_index (n i : Z) : Z :=
  if i <? 0 then Z.max (i + n) 0 else Z.min i n.

Definition slice {A} (s : list A) (i j : Z) : list A :=
  let a := slice_index (len s) i in
  let b := slice_index (len s) j in
  take (Z.to_nat (b - a)) (drop (Z.to_nat a) s).

(** [s[-n:]] and [s[:-1]], the two open slices of the sources. *)
Definition slice_from {A} (s : list A) (i : Z) : list A :=
  drop (Z.to_nat (slice_index (len s) i)) s.

Definition slice_to {A} (s : list A) (j : Z) : list A :=
  take (Z.to_nat (slice_index (len s) j)) s.

(** Highest position of [c] in a list. *)
Fixpoint rindex (c : ascii) (l : list ascii) : option nat :=
  match l with
  | [] => None
  | x :: r =>
      match rindex c r with
      | Some k => Some (S k)
      | None => if Ascii.eqb x c then Some O else None
      end
  end.

(** [s.rfind(c, start, end)] for a one-character [c]: the highest index of
    [c] inside [s[start:end]], or -1. *)
Definition rfind (s : list ascii) (c : ascii) (start end_ : Z) : Z :=
  match rindex c (slice s start end_) with
  | Some k => slice_index (len s) start + Z.of_nat k
  | None => -1
  end.

(** *** [re.sub]

    A pattern is given by its matcher at a position: the length of the
    match that starts there, if any.  [re.sub] scans from the left; where
    the pattern matches it emits the replacement and resumes after the
    match, elsewhere it copies one character.  None of the patterns of the
    sources matches the empty string. *)
Definition matcher := list ascii -> option nat.

Fixpoint re_sub_from (m : matcher) (repl : list ascii) (skip : nat)
    (s : list ascii) : list ascii :=
  match s with
  | [] => []
  | c :: r =>
      match skip with
      | S k => re_sub_from m repl k r
      | O =>
          match m s with
          | Some (S n) => repl ++ re_sub_from m repl n r
          | _ => c :: re_sub_from m repl O r
          end
      end
  end.

Definition re_sub (m : matcher) (repl s : list ascii) : list ascii :=
  re_sub_from m repl O s.

(** Length of the longest prefix whose characters satisfy [p]. *)
Fixpoint span_len (p : ascii -> bool) (s : list ascii) : nat :=
  match s with
  | c :: r => if p c then S (span_len p r) else O
  | [] => O
  end.

Fixpoint strip_prefix (lit s : list ascii) : option (list ascii) :=
  match lit, s with
  | [], _ => Some s
  | a :: lit', c :: s' => if Ascii.eqb a c then strip_prefix lit' s' else None
  | _ :: _, [] => None
  end.

(** [\s+] *)
Definition re_spaces : matcher := fun s =>
  match span_len isspace s with O => None | n => Some n end.

(** [--- Page \d+ ---\n?]; the greedy [\d+] never has to give a digit
    back, since the character after it must be a space. *)
Definition re_page_marker : matcher := fun s =>
  match strip_prefix (str "--- Page ") s with
  | None => None
  | Some r1 =>
      match span_len isdigit r1 with
      | O => None
      | d =>
          match strip_prefix (str " ---") (drop d r1) with
          | None => None
          | Some r2 =>
              let nl := match r2 with
                        | c :: _ => if Ascii.eqb c newline then 1%nat else O
                        | [] => O
                        end in
              Some (9 + d + 4 + nl)%nat
          end
      end
  end.

(** [\n{3,}] *)
Definition re_newlines3 : matcher := fun s =>
  let n := span_len (Ascii.eqb newline) s in
  if (3 <=? n)%nat then Some n else None.

(** *** Exceptions

    The [except] clauses of the sources tell three classes apart:
    [openai.RateLimitError], the other [openai.APIError]s, and every other
    [Exception].  [exn_str] is [str(e)]. *)
Inductive exn_class := RateLimitError | APIError | OtherException.

Record exn := mkExn { exn_class_of : exn_class; exn_str : string }.

Inductive result (A : Type) : Type :=
  | Return (a : A)
  | Raise (e : exn).
Global Arguments Return {A} a.
Global Arguments Raise {A} e.

(** [try: body except Exception as e: handler] *)
Definition try_except {A} (body : result A) (handler : exn -> result A)
    : result A :=
  match body with
  | Return a => Return a
  | Raise e => handler e
  end.

(** [range(n)] and [range(0, stop, step)] for a positive [step]. *)
Definition range (n : Z) : list Z := map Z.of_nat (seq 0 (Z.to_nat n)).

Definition range_step (stop step : Z) : list Z :=
  map (fun k => Z.of_nat k * step) (seq 0 (Z.to_nat ((stop + step - 1) / step))).

End Py.

(** ** src/models/document.py *)

Record DocumentChunk := mkDocumentChunk {
  id : string;
  document_id : string;
  chunk_index : Z;
  content : list ascii;
  start_char : Z;
  end_char : Z;
  page_number : option Z;
  metadata : list (string * Z)
}.

(** ** src/utils/text_utils.py *)

Module TextUtils.

Import Py.
Local Open Scope Z_scope.

Definition clean_spaces (text : list ascii) : list ascii :=
  re_sub re_spaces [space] text.

Definition clean_markers (text : list ascii) : list ascii :=
  re_sub re_page_marker [] text.

Definition clean_newlines (text : list ascii) : list ascii :=
  re_sub re_newlines3 [newline; newline] text.

Definition clean_text (text : list ascii) : list ascii :=
  let text := clean_spaces text in
  let text := clean_markers text in
  let text := clean_newlines text in
  strip text.

Section Chunking.

(** [uuid4 k] is the identifier drawn for the [k]-th chunk object that the
    call constructs ([DocumentChunk.id] has a [uuid4] default factory). *)
Variable uuid4 : Z -> string.
Variable clean_content : list ascii.
Variable document_id' : string.
Variables chunk_size chunk_overlap : Z.

Definition sentence_break (start end_ : Z) : Z :=
  Z.max (Z.max (rfind clean_content "."%char start end_)
               (rfind clean_content "!"%char start end_))
        (rfind clean_content "?"%char start end_).

(** Lines 59-72 of the loop body: the end of the window that starts at
    [start]. *)
Definition window_end (start : Z) : Z :=
  let end_ := Z.min (start + chunk_size) (len clean_content) in
  if end_ <? len clean_content then
    let sb := sentence_break start end_ in
    if sb >? start + chunk_size / 2 then sb + 1 else end_
  else end_.

Definition make_chunk (chunk_index' start end_ : Z)
    (chunk_content : list ascii) : DocumentChunk :=
  {| id := uuid4 chunk_index';
     document_id := document_id';
     chunk_index := chunk_index';
     content := chunk_content;
     start_char := start;
     end_char := end_;
     page_number := None;
     metadata := [("chunk_size"%string, len chunk_content);
                  ("original_length"%string, len clean_content)] |}.

(** [start <= chunks[-1].start_char if chunks else False] *)
Definition no_progress (start : Z) (chunks : list DocumentChunk) : bool :=
  match last chunks with
  | Some c => start <=? start_char c
  | None => false
  end.

(** The [while] loop; [None] when [fuel] iterations were not enough. *)
Fixpoint chunk_loop (fuel : nat) (start chunk_index' : Z)
    (chunks : list DocumentChunk) : option (list DocumentChunk) :=
  match fuel with
  | O => None
  | S fuel' =>
      if start <? len clean_content then
        let end_ := window_end start in
        let chunk_content := strip (slice clean_content start end_) in
        let '(chunks, chunk_index') :=
          if truthy chunk_content
          then (chunks ++ [make_chunk chunk_index' start end_ chunk_content],
                chunk_index' + 1)
          else (chunks, chunk_index') in
        if end_ >=? len clean_content then Some chunks
        else
          let start := Z.max (start + chunk_size - chunk_overlap)
                             (end_ - chunk_overlap) in
          let start := if no_progress start chunks then end_ else start in
          chunk_loop fuel' start chunk_index' chunks
      else Some chunks
  end.

End Chunking.

Definition create_text_chunks (fuel : nat) (uuid4 : Z -> string)
    (text : list ascii) (document_id' : string)
    (chunk_size chunk_overlap : Z) : option (list DocumentChunk) :=
  if negb (truthy text) || negb (truthy (strip text)) then Some []
  else
    let clean_content := clean_text text in
    chunk_loop uuid4 clean_content document_id' chunk_size chunk_overlap
      fuel 0 0 [].

(** [re.search]: the pattern is tried at every position from the left, and
    the result is what the first match gives. *)
Fixpoint re_search {A} (m : list ascii -> option A) (s : list ascii)
    : option A :=
  match m s with
  | Some g => Some g
  | None =>
      match s with
      | [] => None
      | _ :: r => re_search m r
      end
  end.

(** [--- Page (\d+) ---] at the start of a string; the result is the group.
    The greedy [\d+] never has to give a digit back, since the character
    after it must be a space. *)
Definition re_page_number (s : list ascii) : option (list ascii) :=
  match strip_prefix (str "--- Page ") s with
  | None => None
  | Some r1 =>
      match span_len isdigit r1 with
      | O => None
      | d =>
          match strip_prefix (str " ---") (drop d r1) with
          | None => None
          | Some _ => Some (take d r1)
          end
      end
  end.

(** [sys.get_int_max_str_digits()], as CPython sets it. *)
Definition int_max_str_digits : nat := 4300.

(** [int(s)] on a string of decimal digits, which is all that the group
    can hold; [None] is a [ValueError].  CPython refuses a string of more
    than [int_max_str_digits] digits, leading zeros included. *)
Definition int (s : list ascii) : option Z :=
  if (int_max_str_digits <? length s)%nat then None
  else option_map Z.of_int (NilZero.int_of_string (string_of_list_ascii s)).

(** The outer [None] is an exception raised by [int]; [Some None] is the
    [None] that the function returns without a match. *)
Definition extract_page_number (text : list ascii) : option (option Z) :=
  match re_search re_page_number text with
  | Some group => option_map Some (int group)
  | None => Some None
  end.

End TextUtils.


(** ** src/utils/openai_utils.py *)

Module OpenAIUtils.

Import Py.
Local Open Scope Z_scope.

(** [max_retries] and [base_delay] are the only attributes the retry loops
    read; delays are in seconds.  Every delay the code computes is
    [1.0 * 2 ** attempt] or [1.0], an integer that a float holds exactly. *)
Record OpenAIClient := mkOpenAIClient { max_retries : Z; base_delay : Z }.

(** [__init__] *)
Definition init : OpenAIClient := {| max_retries := 3; base_delay := 1 |}.

(** What a call leaves behind: how many requests went to the provider and
    which [time.sleep] calls were made, in order. *)
Record world := mkWorld { requests : nat; slept : list Z }.

Definition request (w : world) : world :=
  {| requests := S (requests w); slept := slept w |}.

Definition sleep (t : Z) (w : world) : world :=
  {| requests := requests w; slept := slept w ++ [t] |}.

Section Retry.

Context {A : Type}.
Variable self : OpenAIClient.

(** The [try] block of one attempt: the request to the provider followed by
    the reading of the response.  [attempt_body n] is its outcome when it is
    the [n]-th request the client sends. *)
Variable attempt_body : nat -> result A.

(** [for attempt in range(self.max_retries): try: ... except ...], the loop
    that the three operations of the file share word for word.  The result
    is [None] when the loop runs out of attempts without leaving. *)
Fixpoint retry_loop (attempts : list Z) (w : world)
    : option (result A) * world :=
  match attempts with
  | [] => (None, w)
  | attempt :: rest =>
      match attempt_body (requests w) with
      | Return a => (Some (Return a), request w)
      | Raise e =>
          let w := request w in
          match exn_class_of e with
          | RateLimitError =>
              let wait_time := base_delay self * 2 ^ attempt in
              let w := sleep wait_time w in
              if attempt =? max_retries self - 1 then (Some (Raise e), w)
              else retry_loop rest w
          | APIError | OtherException =>
              if attempt =? max_retries self - 1 then (Some (Raise e), w)
              else retry_loop rest (sleep (base_delay self) w)
          end
      end
  end.

End Retry.

Section Operations.

(** [V] is an embedding vector, [U] the usage counters of a completion,
    [T] the type of the temperature. *)
Context {V U T : Type}.
Variable self : OpenAIClient.

(** [client.embeddings.create(input=text, model=model)] followed by
    [response.data[0].embedding]. *)
Variable embeddings_create : string -> string -> nat -> result V.

(** The same endpoint with a list as input, followed by the comprehension
    over [response.data]. *)
Variable embeddings_create_batch : list string -> string -> nat -> result (list V).

(** [client.chat.completions.create(...)] followed by the reading of the
    content and of the usage counters.  The content of a message is
    optional: it is [None] for a completion without text. *)
Variable chat_completions_create :
  string -> list (string * string) -> T -> Z -> nat
  -> result (option string * U).

(** A function that leaves its loop without [return] returns Python's
    [None]: the [option] in the result. *)
Definition get_embedding (text model : string) (w : world)
    : result (option V) * world :=
  match retry_loop self (embeddings_create text model)
          (range (max_retries self)) w with
  | (Some (Return v), w) => (Return (Some v), w)
  | (Some (Raise e), w) => (Raise e, w)
  | (None, w) => (Return None, w)
  end.

Definition batch_size : Z := 100.

Fixpoint batch_loop (texts : list string) (model : string) (starts : list Z)
    (all_embeddings : list V) (w : world) : result (list V) * world :=
  match starts with
  | [] => (Return all_embeddings, w)
  | i :: rest =>
      let batch := slice texts i (i + batch_size) in
      match retry_loop self (embeddings_create_batch batch model)
              (range (max_retries self)) w with
      | (Some (Return batch_embeddings), w) =>
          batch_loop texts model rest (all_embeddings ++ batch_embeddings) w
      | (Some (Raise e), w) => (Raise e, w)
      | (None, w) => batch_loop texts model rest all_embeddings w
      end
  end.

Definition get_embeddings_batch (texts : list string) (model : string)
    (w : world) : result (list V) * world :=
  batch_loop texts model (range_step (len texts) batch_size) [] w.

Definition chat_completion (messages : list (string * string))
    (model : string) (temperature : T) (max_tokens : Z) (w : world)
    : result (option (option string * U)) * world :=
  match retry_loop self
          (chat_completions_create model messages temperature max_tokens)
          (range (max_retries self)) w with
  | (Some (Return r), w) => (Return (Some r), w)
  | (Some (Raise e), w) => (Raise e, w)
  | (None, w) => (Return None, w)
  end.

End Operations.

End OpenAIUtils.

(** ** Floating point

    The sources compute with NumPy and Python floats.  Their operations are
    taken as an interface; the theorems that need a property of the order
    on floats state it as a hypothesis on the numbers they compare.

    [F] is the type of the Python floats (double precision).  A value of
    single precision ([np.float32]) is the double of the same value:
    [float32 x] is [x] rounded to single precision, and [float(score)]
    changes no value. *)
Class Floats := {
  F : Type;
  f_zero : F;                       (* 0.0 *)
  f_tenth : F;                      (* 0.1 *)
  f_gt : F -> F -> bool;            (* x > y *)
  f_ge : F -> F -> bool;            (* x >= y *)
  f_sub : F -> F -> F;              (* x - y *)
  f_div : F -> F -> F;              (* x / y *)
  float32 : F -> F;                 (* np.float32(x), dtype=np.float32 *)
  norm : list F -> F;               (* np.linalg.norm *)
  inner : list F -> list F -> F;    (* inner product of two rows *)
  f_lowest : F;                     (* the score of an empty result slot *)
  format_3f : F -> string           (* f"{x:.3f}" *)
}.

(** ** src/models/search.py *)

Record SearchResult `{Floats} := mkSearchResult {
  chunk : DocumentChunk;
  relevance_score : F;
  document_name : string
}.

Record SearchQuery `{Floats} := mkSearchQuery {
  query : string;
  top_k : Z;
  relevance_threshold : F
}.

Record SearchResponse `{Floats} := mkSearchResponse {
  response_query : string;
  results : list SearchResult;
  total_results : Z;
  search_time : F
}.

(** ** src/services/vector_service.py *)

Module VectorService.

Import Py.
Local Open Scope Z_scope.

Section WithFloats.

Context `{Floats}.

(** *** The part of FAISS that the service uses

    [faiss.IndexFlatIP(d)] stores rows of [d] floats; [ntotal] is the
    number of rows.  [add] and [search] assert the dimension of their
    argument, [search] also asserts [k > 0].  [search] scans every row and
    returns the [k] best inner products in descending order with the row
    numbers, padding with row number -1 when fewer than [k] rows exist.

    FAISS fixes no order among rows whose scores are equal, and the order
    it returns them in differs from one build to another.  [sort_hits]
    lists such rows in the order of their row numbers; this is a choice of
    the model, and no statement below depends on it. *)
Record IndexFlatIP := mkIndexFlatIP { d : Z; xb : list (list F) }.

Definition ntotal (ix : IndexFlatIP) : Z := len (xb ix).

Definition assertion_error : exn := mkExn OtherException "AssertionError".

Definition index_add (ix : IndexFlatIP) (ncols : Z) (rows : list (list F))
    : result IndexFlatIP :=
  if ncols =? d ix then Return {| d := d ix; xb := xb ix ++ rows |}
  else Raise assertion_error.

Fixpoint insert_hit (h : F * Z) (l : list (F * Z)) : list (F * Z) :=
  match l with
  | [] => [h]
  | h' :: r => if f_ge (fst h) (fst h') then h :: l else h' :: insert_hit h r
  end.

Definition sort_hits (l : list (F * Z)) : list (F * Z) :=
  foldr insert_hit [] l.

Definition index_search (ix : IndexFlatIP) (q : list F) (k : Z)
    : result (list (F * Z)) :=
  if negb (len q =? d ix) then Raise assertion_error
  else if negb (k >? 0) then Raise assertion_error
  else
    let scored := imap (fun i row => (inner q row, Z.of_nat i)) (xb ix) in
    let best := take (Z.to_nat k) (sort_hits scored) in
    Return (best ++ replicate (Z.to_nat k - length best) (f_lowest, -1)).

(** [np.array(rows, dtype=np.float32)] for a non-empty list of rows: the
    rows must have one length, which is [shape[1]]. *)
Definition value_error : exn :=
  mkExn OtherException "setting an array element with a sequence.".

Definition np_matrix (rows : list (list F)) : result (Z * list (list F)) :=
  match rows with
  | [] => Return (0, [])
  | r :: _ =>
      if forallb (fun r' => len r' =? len r) rows
      then Return (len r, map (map float32) rows)
      else Raise value_error
  end.

(** *** The service *)

Record VectorService := mkVectorService {
  index : option IndexFlatIP;
  chunk_metadata : gmap Z DocumentChunk;
  document_names : gmap string string
}.

(** The two files under [vector_db_path].  A file is absent ([None]), or
    present and unreadable ([Some None]), or present with a content.  The
    pickle holds a dictionary in which either key may be missing. *)
Record pickled := mkPickled {
  pickled_chunk_metadata : option (gmap Z DocumentChunk);
  pickled_document_names : option (gmap string string)
}.

Record disk := mkDisk {
  index_file : option (option IndexFlatIP);
  metadata_file : option (option pickled)
}.

Definition create_index (self : VectorService) (embedding_dimension : Z)
    : VectorService :=
  {| index := Some {| d := embedding_dimension; xb := [] |};
     chunk_metadata := ∅;
     document_names := ∅ |}.

(** The first loop of [add_embeddings]: the normalized vectors and the
    chunks they belong to, as two lists that grow together. *)
Fixpoint valid_embeddings (chunks : list DocumentChunk)
    (embeddings : gmap string (list F))
    : list (list F) * list DocumentChunk :=
  match chunks with
  | [] => ([], [])
  | chunk :: rest =>
      let '(embedding_vectors, valid_chunks) := valid_embeddings rest embeddings in
      match embeddings !! id chunk with
      | Some embedding =>
          let norm' := norm embedding in
          if f_gt norm' f_zero then
            (map (fun x => f_div x norm') embedding :: embedding_vectors,
             chunk :: valid_chunks)
          else (embedding_vectors, valid_chunks)
      | None => (embedding_vectors, valid_chunks)
      end
  end.

(** The second loop: [enumerate(valid_chunks)] from slot [start_idx]. *)
Fixpoint store_metadata (self : VectorService) (start_idx : Z)
    (valid_chunks : list DocumentChunk) (document_name' : string)
    : VectorService :=
  match valid_chunks with
  | [] => self
  | chunk :: rest =>
      store_metadata
        {| index := index self;
           chunk_metadata := <[start_idx := chunk]> (chunk_metadata self);
           document_names :=
             <[document_id chunk := document_name']> (document_names self) |}
        (start_idx + 1) rest document_name'
  end.

(** The [try] block of [add_embeddings] with the state it leaves. *)
Definition add_embeddings_body (self : VectorService)
    (chunks : list DocumentChunk) (embeddings : gmap string (list F))
    (document_name' : string) : result bool * VectorService :=
  if negb (truthy chunks) || (size embeddings =? 0)%nat then (Return false, self)
  else
    let '(embedding_vectors, valid_chunks) := valid_embeddings chunks embeddings in
    if negb (truthy embedding_vectors) then (Return false, self)
    else
      match np_matrix embedding_vectors with
      | Raise e => (Raise e, self)
      | Return (ncols, embeddings_matrix) =>
          let self := match index self with
                      | None => create_index self ncols
                      | Some _ => self
                      end in
          match index self with
          | None => (Raise (mkExn OtherException "AttributeError"), self)
          | Some ix =>
              let start_idx := ntotal ix in
              match index_add ix ncols embeddings_matrix with
              | Raise e => (Raise e, self)
              | Return ix' =>
                  let self := {| index := Some ix';
                                 chunk_metadata := chunk_metadata self;
                                 document_names := document_names self |} in
                  (Return true,
                   store_metadata self start_idx valid_chunks document_name')
              end
          end
      end.

Definition add_embeddings (self : VectorService)
    (chunks : list DocumentChunk) (embeddings : gmap string (list F))
    (document_name' : string) : result bool * VectorService :=
  match add_embeddings_body self chunks embeddings document_name' with
  | (Return b, self) => (Return b, self)
  | (Raise _, self) => (Return false, self)
  end.

(** [score >= query.relevance_threshold] for a score of type [np.float32]
    and a threshold that is a Python float: NumPy (from version 2, with
    which the sources run) takes the Python float to the type of the
    score, so that the two are compared in single precision. *)
Definition score_passes (score threshold : F) : bool :=
  f_ge score (float32 threshold).

(** The loop of [search] over [zip(scores[0], indices[0])].  The score
    stored is [float(score)], the same value as a Python float. *)
Fixpoint build_results (self : VectorService) (query' : SearchQuery)
    (hits : list (F * Z)) : list SearchResult :=
  match hits with
  | [] => []
  | (score, idx) :: rest =>
      let more := build_results self query' rest in
      if idx =? -1 then more
      else if score_passes score (relevance_threshold query') then
        match chunk_metadata self !! idx with
        | Some chunk' =>
            {| chunk := chunk';
               relevance_score := score;
               document_name :=
                 default "Unknown"%string
                   (document_names self !! document_id chunk') |} :: more
        | None => more
        end
      else more
  end.

(** [clock n] is the [n]-th reading of [time.time()] during the call. *)
Definition search (clock : nat -> F) (self : VectorService)
    (query_embedding : list F) (query' : SearchQuery)
    : result SearchResponse :=
  let start_time := clock O in
  try_except
    (let no_vectors :=
       Return {| response_query := query query'; results := [];
                 total_results := 0; search_time := f_zero |} in
     match index self with
     | None => no_vectors
     | Some ix =>
         if ntotal ix =? 0 then no_vectors
         else
           let query_vector := map float32 query_embedding in
           let norm' := norm query_vector in
           let query_vector :=
             if f_gt norm' f_zero
             then map (fun x => f_div x norm') query_vector
             else query_vector in
           match index_search ix query_vector
                   (Z.min (top_k query') (ntotal ix)) with
           | Raise e => Raise e
           | Return hits =>
               let results' := build_results self query' hits in
               let search_time' := f_sub (clock 1%nat) start_time in
               Return {| response_query := query query'; results := results';
                         total_results := len results';
                         search_time := search_time' |}
           end
     end)
    (fun e =>
       Return {| response_query := query query'; results := [];
                 total_results := 0;
                 search_time := f_sub (clock 1%nat) start_time |}).

Definition load_index (dk : disk) (self : VectorService)
    : result bool * VectorService :=
  match index_file dk, metadata_file dk with
  | Some stored_index, Some stored_metadata =>
      match stored_index with
      | None => (Return false, self)          (* faiss.read_index raises *)
      | Some ix =>
          let self := {| index := Some ix;
                         chunk_metadata := chunk_metadata self;
                         document_names := document_names self |} in
          match stored_metadata with
          | None => (Return false, self)      (* open or pickle.load raises *)
          | Some metadata' =>
              (Return true,
               {| index := Some ix;
                  chunk_metadata :=
                    default ∅ (pickled_chunk_metadata metadata');
                  document_names :=
                    default ∅ (pickled_document_names metadata') |})
          end
      end
  | _, _ => (Return false, self)
  end.

(** [__init__] before its call of [load_index]. *)
Definition fresh : VectorService :=
  {| index := None; chunk_metadata := ∅; document_names := ∅ |}.

(** Number of vectors held; none without an index. *)
Definition vectors (self : VectorService) : list (list F) :=
  match index self with Some ix => xb ix | None => [] end.

(** [__init__]: the empty service, then the attempt to load. *)
Definition new_service (dk : disk) : VectorService :=
  snd (load_index dk fresh).

(** What a write to a path does: it succeeds, or it raises and leaves the
    path in some state (absent, unreadable, or with an older content). *)
Inductive write_outcome (X : Type) : Type :=
  | Written
  | WriteFailed (left_behind : option (option X)).
Global Arguments Written {X}.
Global Arguments WriteFailed {X} left_behind.

(** [save_index]: [faiss.write_index], then [pickle.dump] into the file
    opened for writing; an exception of either gives [False]. *)
Definition save_index (index_write : write_outcome IndexFlatIP)
    (metadata_write : write_outcome pickled) (dk : disk)
    (self : VectorService) : result bool * disk :=
  match index self with
  | None => (Return false, dk)
  | Some ix =>
      match index_write with
      | WriteFailed left_behind =>
          (Return false,
           {| index_file := left_behind; metadata_file := metadata_file dk |})
      | Written =>
          let metadata' :=
            {| pickled_chunk_metadata := Some (chunk_metadata self);
               pickled_document_names := Some (document_names self) |} in
          match metadata_write with
          | WriteFailed left_behind =>
              (Return false,
               {| index_file := Some (Some ix);
                  metadata_file := left_behind |})
          | Written =>
              (Return true,
               {| index_file := Some (Some ix);
                  metadata_file := Some (Some metadata') |})
          end
      end
  end.

(** [clear_index].  [index_remove] and [metadata_remove] are the outcomes
    of [os.remove] on the two paths, asked for only when the path exists;
    the function has no [try], so an exception of [os.remove] leaves it. *)
Definition clear_index (index_remove metadata_remove : result unit)
    (dk : disk) (self : VectorService)
    : result unit * VectorService * disk :=
  let self := {| index := None; chunk_metadata := ∅; document_names := ∅ |} in
  match index_file dk, index_remove with
  | Some _, Raise e => (Raise e, self, dk)
  | _, _ =>
      let dk := {| index_file := None; metadata_file := metadata_file dk |} in
      match metadata_file dk, metadata_remove with
      | Some _, Raise e => (Raise e, self, dk)
      | _, _ =>
          (Return tt, self, {| index_file := None; metadata_file := None |})
      end
  end.

(** [get_database_stats] without the size of the index file:
    [total_vectors] and [unique_documents], the number of distinct file
    names. *)
Definition total_vectors (self : VectorService) : Z :=
  match index self with
  | None => 0
  | Some ix => ntotal ix
  end.

Definition unique_documents (self : VectorService) : Z :=
  match index self with
  | None => 0
  | Some _ =>
      Z.of_nat (size (list_to_set (map snd (map_to_list (document_names self)))
                      : gset string))
  end.

End WithFloats.

End VectorService.

(** ** src/models/conversation.py

    The [id], [timestamp], [created_at], [updated_at] and [metadata] fields
    of the message, response and session objects are filled by default
    factories and read by none of the functions below; of these only the
    session [id], the key of the session dictionary, is kept. *)

Record ChatMessage := mkChatMessage {
  message_content : string;
  role : string
}.

Record SourceCitation `{Floats} := mkSourceCitation {
  citation_document_id : string;
  citation_document_name : string;
  chunk_id : string;
  citation_content : string;
  citation_relevance_score : F;
  citation_page_number : option Z
}.

Record token_counts := mkTokenCounts {
  prompt_tokens : Z;
  completion_tokens : Z;
  total_tokens : Z
}.

Record ChatResponse `{Floats} := mkChatResponse {
  response_content : string;
  sources : list SourceCitation;
  response_time : F;
  token_usage : option token_counts
}.

Record ConversationSession := mkConversationSession {
  session_id : string;
  messages : list ChatMessage
}.

Definition add_message (self : ConversationSession) (content' role' : string)
    : ChatMessage * ConversationSession :=
  let message := {| message_content := content'; role := role' |} in
  (message,
   {| session_id := session_id self; messages := messages self ++ [message] |}).

Definition get_recent_messages (self : ConversationSession) (count : Z)
    : list ChatMessage :=
  if Py.truthy (messages self) then Py.slice_from (messages self) (- count)
  else [].

(** ** src/services/rag_service.py *)

Module RAGService.

Import Py.
Local Open Scope Z_scope.

(** The fields of [config/settings.py] that the service reads. *)
Record Settings `{Floats} := mkSettings {
  retrieval_count : Z;
  temperature : F;
  max_tokens : Z;
  embedding_model : string;
  chat_model : string
}.

Definition nl : string := String newline EmptyString.

Definition system_prompt : string :=
  "You are a helpful AI assistant that answers questions based on provided document context. 

Guidelines:
- Use only the information provided in the context to answer questions
- If the context doesn't contain enough information to answer a question, say so clearly
- Be concise but comprehensive in your responses
- When referencing information, mention which document it came from when possible
- If multiple documents provide relevant information, synthesize the information appropriately
- Maintain a professional and helpful tone".

Section WithFloats.

Context `{Floats}.

Variable settings : Settings.

(** The collaborators, each by the outcome of the one call that
    [generate_response] makes to it. *)
Variable get_embedding : string -> string -> result (list F).
Variable search : list F -> SearchQuery -> result SearchResponse.
Variable chat_completion :
  list (string * string) -> string -> F -> Z
  -> result (option string * token_counts).

(** What [ChatResponse(content=None, ...)] raises: the field [content] is
    a required [str], and pydantic refuses [None] with a [ValidationError]
    whose text depends on its version. *)
Variable content_error : exn.

(** [clock n] is the [n]-th reading of [time.time()] during the call. *)
Variable clock : nat -> F.

Definition text (s : list ascii) : string := string_of_list_ascii s.

(** A context entry: content, document, score. *)
Definition _build_context_text (context_chunks : list (list ascii * string * F))
    : string :=
  if negb (truthy context_chunks)
  then "No relevant context found in the uploaded documents."%string
  else
    String.concat (nl +:+ "---" +:+ nl)
      (map (fun '(content', document, score) =>
              "[Document: " +:+ document +:+ ", Relevance: "
              +:+ format_3f score +:+ "]" +:+ nl +:+ text content' +:+ nl)
           context_chunks).

Definition citation (result' : SearchResult) : SourceCitation :=
  let chunk' := chunk result' in
  {| citation_document_id := document_id chunk';
     citation_document_name := document_name result';
     chunk_id := id chunk';
     citation_content :=
       if len (content chunk') >? 200
       then text (slice_to (content chunk') 200) +:+ "..."
       else text (content chunk');
     citation_relevance_score := relevance_score result';
     citation_page_number := page_number chunk' |}.

Definition user_message (context_text query' : string) : string :=
  "Context from documents:" +:+ nl +:+ context_text +:+ nl +:+ nl
  +:+ "Question: " +:+ query' +:+ nl +:+ nl
  +:+ "Please answer the question based on the provided context. If the context doesn't contain sufficient information to answer the question, please state that clearly.".

Definition apology (e : exn) : string :=
  "I apologize, but I encountered an error while processing your question: "
  +:+ exn_str e.

(** Lines 66-109 without the citations: the messages for the model.
    [None] as history is the default argument. *)
Definition prompt_messages (search_response : SearchResponse)
    (query' : string) (conversation_history : option (list (string * string)))
    : list (string * string) :=
  let context_chunks :=
    map (fun r => (content (chunk r), document_name r, relevance_score r))
        (results search_response) in
  let context_text := _build_context_text context_chunks in
  let messages' := [("system"%string, system_prompt)] in
  let messages' :=
    match conversation_history with
    | Some ((_ :: _) as h) => messages' ++ slice_from h (-6)
    | _ => messages'
    end in
  messages' ++ [("user"%string, user_message context_text query')].

Definition search_query_of (query' : string) : SearchQuery :=
  {| query := query'; top_k := retrieval_count settings;
     relevance_threshold := f_tenth |}.

(** The [try] block of [generate_response], with the number of times the
    clock has been read when it is left.  The constructor of the response
    is inside the block: it raises when the completion has no content,
    after the clock was read for the response time. *)
Definition generate_response_body (start_time : F) (query' : string)
    (conversation_history : option (list (string * string)))
    : result ChatResponse * nat :=
  match get_embedding query' (embedding_model settings) with
  | Raise e => (Raise e, 1%nat)
  | Return query_embedding =>
      let search_query := search_query_of query' in
      match search query_embedding search_query with
      | Raise e => (Raise e, 1%nat)
      | Return search_response =>
          let source_citations := map citation (results search_response) in
          let messages' :=
            prompt_messages search_response query' conversation_history in
          match chat_completion messages' (chat_model settings)
                  (temperature settings) (max_tokens settings) with
          | Raise e => (Raise e, 1%nat)
          | Return (response_text, token_usage') =>
              let response_time' := f_sub (clock 1%nat) start_time in
              match response_text with
              | Some response_text =>
                  (Return {| response_content := response_text;
                             sources := source_citations;
                             response_time := response_time';
                             token_usage := Some token_usage' |}, 2%nat)
              | None => (Raise content_error, 2%nat)
              end
          end
      end
  end.

(** The [except] branch reads the clock once more. *)
Definition generate_response (query' : string)
    (conversation_history : option (list (string * string)))
    : result ChatResponse :=
  let start_time := clock O in
  let '(outcome, readings) :=
    generate_response_body start_time query' conversation_history in
  try_except outcome
    (fun e =>
       let response_time' := f_sub (clock readings) start_time in
       Return {| response_content := apology e;
                 sources := [];
                 response_time := response_time';
                 token_usage := None |}).

End WithFloats.

End RAGService.

(** ** src/services/chat_service.py *)

Module ChatService.

Import Py.
Local Open Scope Z_scope.

Section WithFloats.

Context `{Floats}.

(** [uuids] counts the identifiers drawn so far from [uuid4]. *)
Record ChatService := mkChatService {
  sessions : gmap string ConversationSession;
  current_session_id : option string;
  uuids : nat
}.

Variable uuid4 : nat -> string.

(** [rag_service.generate_response], by the outcome of a call. *)
Variable generate_response :
  string -> list (string * string) -> result ChatResponse.

Definition create_session (self : ChatService)
    : ConversationSession * ChatService :=
  let session := {| session_id := uuid4 (uuids self); messages := [] |} in
  (session,
   {| sessions := <[session_id session := session]> (sessions self);
      current_session_id := Some (session_id session);
      uuids := S (uuids self) |}).

Definition get_session (self : ChatService) (session_id' : string)
    : option ConversationSession :=
  sessions self !! session_id'.

Definition str_truthy (s : string) : bool :=
  match s with EmptyString => false | _ => true end.

(** The session object that a lookup returns is the one the dictionary
    holds: a later change of the object is a change of the entry.  The
    functions that hand out a session therefore also give the key of its
    entry. *)
Definition created (r : ConversationSession * ChatService)
    : string * ConversationSession * ChatService :=
  (session_id (fst r), fst r, snd r).

Definition get_current_session (self : ChatService)
    : string * ConversationSession * ChatService :=
  match current_session_id self with
  | Some sid =>
      if str_truthy sid then
        match sessions self !! sid with
        | Some session => (sid, session, self)
        | None => created (create_session self)
        end
      else created (create_session self)
  | None => created (create_session self)
  end.

(** Lines 51-56: the session a message goes to. *)
Definition resolve_session (self : ChatService) (session_id' : option string)
    : string * ConversationSession * ChatService :=
  match session_id' with
  | Some sid =>
      if str_truthy sid then
        match get_session self sid with
        | Some session => (sid, session, self)
        | None => created (create_session self)
        end
      else get_current_session self
  | None => get_current_session self
  end.

Definition put_session (self : ChatService) (key : string)
    (session : ConversationSession) : ChatService :=
  {| sessions := <[key := session]> (sessions self);
     current_session_id := current_session_id self;
     uuids := uuids self |}.

(** Lines 62-70. *)
Definition conversation_history (session : ConversationSession)
    : list (string * string) :=
  let recent_messages := get_recent_messages session 10 in
  map (fun msg => (role msg, message_content msg))
      (slice_to recent_messages (-1)).

Definition error_response (e : exn) : string :=
  "I apologize, but I encountered an error: " +:+ exn_str e.

(** The result carries, besides the response and the service, the
    arguments of the calls made to [generate_response], in order. *)
Definition send_message (self : ChatService) (message : string)
    (session_id' : option string)
    : ChatResponse * ChatService * list (string * list (string * string)) :=
  let '(key, session, self) := resolve_session self session_id' in
  let '(user_message, session) := add_message session message "user" in
  let self := put_session self key session in
  let history := conversation_history session in
  match generate_response message history with
  | Return chat_response =>
      let '(_, session) :=
        add_message session (response_content chat_response) "assistant" in
      (chat_response, put_session self key session, [(message, history)])
  | Raise e =>
      let '(_, session) := add_message session (error_response e) "assistant" in
      ({| response_content := error_response e; sources := [];
          response_time := f_zero; token_usage := None |},
       put_session self key session, [(message, history)])
  end.

(** [__init__] *)
Definition new_service : ChatService :=
  {| sessions := ∅; current_session_id := None; uuids := O |}.

(** Lines 101-106 of [clear_session], the branch taken for a session id
    that is not empty. *)
Definition clear_named (self : ChatService) (session_id' : string)
    : bool * ChatService :=
  match sessions self !! session_id' with
  | Some _ =>
      (true,
       {| sessions := delete session_id' (sessions self);
          current_session_id :=
            if decide (current_session_id self = Some session_id') then None
            else current_session_id self;
          uuids := uuids self |})
  | None => (false, self)
  end.

(** The call of line 111 passes a session id that is not empty, so that it
    takes the first branch and calls no further. *)
Definition clear_session (self : ChatService) (session_id' : option string)
    : bool * ChatService :=
  let clear_current :=
    match current_session_id self with
    | Some sid => if str_truthy sid then clear_named self sid else (false, self)
    | None => (false, self)
    end in
  match session_id' with
  | Some sid => if str_truthy sid then clear_named self sid else clear_current
  | None => clear_current
  end.

Definition clear_all_sessions (self : ChatService) : ChatService :=
  {| sessions := ∅; current_session_id := None; uuids := uuids self |}.

(** A session object is true in a condition. *)
Definition get_session_history (self : ChatService)
    (session_id' : option string) : list ChatMessage * ChatService :=
  let of_current :=
    let '(_, session, self) := get_current_session self in
    (messages session, self) in
  match session_id' with
  | Some sid =>
      if str_truthy sid then
        match get_session self sid with
        | Some session => (messages session, self)
        | None => ([], self)
        end
      else of_current
  | None => of_current
  end.

Record ChatStatistics := mkChatStatistics {
  total_sessions : Z;
  total_messages : Z;
  user_messages : Z;
  assistant_messages : Z;
  active_session : option string
}.

(** One turn of the inner loop of lines 134-139 on the two counters. *)
Definition count_role (counters : Z * Z) (message : ChatMessage) : Z * Z :=
  let '(user_messages, assistant_messages) := counters in
  if String.eqb (role message) "user" then
    (user_messages + 1, assistant_messages)
  else if String.eqb (role message) "assistant" then
    (user_messages, assistant_messages + 1)
  else (user_messages, assistant_messages).

(** The values of the session dictionary.  The sums and the counters below
    do not depend on their order. *)
Definition session_values (self : ChatService) : list ConversationSession :=
  (map_to_list (sessions self)).*2.

Definition get_chat_statistics (self : ChatService) : ChatStatistics :=
  let total_sessions := Z.of_nat (size (sessions self)) in
  let total_messages :=
    fold_left (fun total session => total + len (messages session))
              (session_values self) 0 in
  let '(user_messages, assistant_messages) :=
    fold_left (fun counters session =>
                 fold_left count_role (messages session) counters)
              (session_values self) (0, 0) in
  {| total_sessions := total_sessions;
     total_messages := total_messages;
     user_messages := user_messages;
     assistant_messages := assistant_messages;
     active_session := current_session_id self |}.

End WithFloats.

End ChatService.

(** ** src/services/embedding_service.py *)

Module EmbeddingService.

Import Py OpenAIUtils.
Local Open Scope Z_scope.

Section WithFloats.

Context `{Floats}.

(** [embedding_model] is the field of the settings that the service
    reads. *)
Record EmbeddingService := mkEmbeddingService {
  openai_client : OpenAIClient;
  embedding_model : string;
  chunk_embeddings : gmap string (list F)
}.

(** The two requests of the provider, as in [OpenAIUtils]. *)
Variable embeddings_create : string -> string -> nat -> result (list F).
Variable embeddings_create_batch :
  list string -> string -> nat -> result (list (list F)).

(** [__init__] *)
Definition new_service (model : string) : EmbeddingService :=
  {| openai_client := init; embedding_model := model; chunk_embeddings := ∅ |}.

(** The loop of lines 50-52 on one of the two dictionaries. *)
Definition store_pairs (embeddings : gmap string (list F))
    (pairs : list (string * list F)) : gmap string (list F) :=
  fold_left (fun m '(chunk_id, embedding) => <[chunk_id := embedding]> m)
            pairs embeddings.

Definition generate_chunk_embeddings (self : EmbeddingService)
    (chunks : list DocumentChunk) (w : world)
    : result (gmap string (list F)) * EmbeddingService * world :=
  if negb (truthy chunks) then (Return ∅, self, w)
  else
    let texts := map (fun chunk => string_of_list_ascii (content chunk)) chunks in
    let chunk_ids := map id chunks in
    match get_embeddings_batch (openai_client self) embeddings_create_batch
            texts (embedding_model self) w with
    | (Return embeddings, w) =>
        let pairs := zip chunk_ids embeddings in
        (Return (store_pairs ∅ pairs),
         {| openai_client := openai_client self;
            embedding_model := embedding_model self;
            chunk_embeddings := store_pairs (chunk_embeddings self) pairs |},
         w)
    | (Raise e, w) => (Raise e, self, w)
    end.

Definition generate_query_embedding (self : EmbeddingService)
    (query' : string) (w : world) : result (option (list F)) * world :=
  get_embedding (openai_client self) embeddings_create query'
    (embedding_model self) w.

Definition get_chunk_embedding (self : EmbeddingService) (chunk_id : string)
    : option (list F) :=
  chunk_embeddings self !! chunk_id.

Definition remove_chunk_embedding (self : EmbeddingService)
    (chunk_id : string) : bool * EmbeddingService :=
  match chunk_embeddings self !! chunk_id with
  | Some _ =>
      (true,
       {| openai_client := openai_client self;
          embedding_model := embedding_model self;
          chunk_embeddings := delete chunk_id (chunk_embeddings self) |})
  | None => (false, self)
  end.

End WithFloats.

End EmbeddingService.

(** ** src/utils/pdf_utils.py *)

Module PdfUtils.

Import Py.
Local Open Scope Z_scope.

(** [str(n)] for an integer. *)
Definition str_of_int (n : Z) : string :=
  NilZero.string_of_int (Z.to_int n).

(** [str.lower] on one character: below 256 the upper-case letters are
    A..Z, U+00C0..U+00D6 and U+00D8..U+00DE, each 32 below its lower-case
    letter. *)
Definition lower_char (c : ascii) : ascii :=
  let n := N_of_ascii c in
  if (((65 <=? n) && (n <=? 90)) || ((192 <=? n) && (n <=? 214))
      || ((216 <=? n) && (n <=? 222)))%N
  then ascii_of_N (n + 32) else c.

Definition lower (s : list ascii) : list ascii := map lower_char s.

Definition endswith (s suffix : list ascii) : bool :=
  (length suffix <=? length s)%nat
  && bool_decide (drop (length s - length suffix) s = suffix).

Section PyPDF2.

(** [PyPDF2.PdfReader] on the bytes of a file: it raises, or gives the
    pages; [extract_text] on a page raises or gives its text. *)
Variable PdfReader : list Byte.byte -> result (list (result (list ascii))).

(** The text that line 25 adds for a page. *)
Definition page_block (page_num : Z) (page_text : list ascii) : list ascii :=
  [newline] ++ str "--- Page " ++ str (str_of_int (page_num + 1))
  ++ str " ---" ++ [newline] ++ page_text ++ [newline].

(** The loop of lines 21-30, [page_num] counting from 0. *)
Fixpoint pages_loop (pages : list (result (list ascii))) (page_num : Z)
    (text_content : list ascii) : list ascii :=
  match pages with
  | [] => text_content
  | page :: rest =>
      match page with
      | Return page_text =>
          if truthy (strip page_text)
          then pages_loop rest (page_num + 1)
                 (text_content ++ page_block page_num page_text)
          else pages_loop rest (page_num + 1) text_content
      | Raise _ => pages_loop rest (page_num + 1) text_content
      end
  end.

Definition extract_text_from_pdf (pdf_file : list Byte.byte)
    (filename : string) : list ascii * option string :=
  match PdfReader pdf_file with
  | Return pages =>
      let text_content := pages_loop pages 0 [] in
      if negb (truthy (strip text_content))
      then ([], Some "No text content could be extracted from the PDF"%string)
      else (strip text_content, None)
  | Raise e =>
      ([], Some ("Failed to process PDF " +:+ filename +:+ ": " +:+ exn_str e))
  end.

Definition validate_pdf_file (file_data : list Byte.byte) (filename : string)
    (max_size : Z) : option string :=
  if len file_data >? max_size then
    Some ("File size (" +:+ str_of_int (len file_data)
          +:+ " bytes) exceeds maximum allowed size ("
          +:+ str_of_int max_size +:+ " bytes)")
  else if negb (endswith (lower (str filename)) (str ".pdf")) then
    Some "File must be a PDF (.pdf extension)"%string
  else
    match PdfReader file_data with
    | Return pages =>
        if len pages =? 0
        then Some "PDF file appears to be empty (no pages found)"%string
        else None
    | Raise e => Some ("Invalid or corrupted PDF file: " +:+ exn_str e)
    end.

End PyPDF2.

End PdfUtils.

(** ** src/services/document_service.py *)

(** [Document], without the upload time and the metadata, which no
    function below reads. *)
Record Document := mkDocument {
  doc_id : string;
  filename : string;
  file_size : Z;
  processing_status : string;
  total_chunks : Z;
  error_message : option string
}.

Record ProcessingResult := mkProcessingResult {
  document : Document;
  chunks : list DocumentChunk;
  success : bool;
  result_error_message : option string
}.

Module DocumentService.

Import Py PdfUtils.
Local Open Scope Z_scope.

(** The fields of [config/settings.py] that the service reads. *)
Record Settings := mkSettings {
  max_file_size : Z;
  chunk_size : Z;
  chunk_overlap : Z
}.

(** [drawn] counts the documents constructed so far. *)
Record DocumentService := mkDocumentService {
  settings : Settings;
  processed_documents : gmap string Document;
  document_chunks : gmap string (list DocumentChunk);
  drawn : nat
}.

Section Service.

Variable PdfReader : list Byte.byte -> result (list (result (list ascii))).

(** [document_uuid n] is the id drawn for the [n]-th document that the
    service constructs, [chunk_uuid n k] the id of the [k]-th chunk made
    for it. *)
Variable document_uuid : nat -> string.
Variable chunk_uuid : nat -> Z -> string.

(** [__init__] *)
Definition new_service (settings' : Settings) : DocumentService :=
  {| settings := settings'; processed_documents := ∅; document_chunks := ∅;
     drawn := O |}.

(** Truth value of an optional string: [None] and the empty string are
    false. *)
Definition error_truthy (e : option string) : bool :=
  match e with
  | Some (String _ _) => true
  | _ => false
  end.

Definition failed (document' : Document) (message : option string)
    : ProcessingResult :=
  {| document :=
       {| doc_id := doc_id document'; filename := filename document';
          file_size := file_size document';
          processing_status := "failed";
          total_chunks := total_chunks document';
          error_message := message |};
     chunks := []; success := false; result_error_message := message |}.

(** The result is [None] when the loop of [create_text_chunks] does not
    end within [fuel] turns.  None of the calls in the [try] block raises:
    the two functions of [pdf_utils] catch what the reader raises. *)
Definition process_uploaded_file (fuel : nat) (self : DocumentService)
    (file_data : list Byte.byte) (filename' : string)
    : option (ProcessingResult * DocumentService) :=
  let n := drawn self in
  let document' :=
    {| doc_id := document_uuid n; filename := filename';
       file_size := len file_data; processing_status := "processing";
       total_chunks := 0; error_message := None |} in
  let self :=
    {| settings := settings self;
       processed_documents := processed_documents self;
       document_chunks := document_chunks self;
       drawn := S (drawn self) |} in
  let validation_error :=
    validate_pdf_file PdfReader file_data filename'
      (max_file_size (settings self)) in
  if error_truthy validation_error then
    Some (failed document' validation_error, self)
  else
    let '(extracted_text, extraction_error) :=
      extract_text_from_pdf PdfReader file_data filename' in
    if error_truthy extraction_error then
      Some (failed document' extraction_error, self)
    else
      match TextUtils.create_text_chunks fuel (chunk_uuid n) extracted_text
              (doc_id document') (chunk_size (settings self))
              (chunk_overlap (settings self)) with
      | None => None
      | Some chunks' =>
          let document' :=
            {| doc_id := doc_id document'; filename := filename document';
               file_size := file_size document';
               processing_status := "completed";
               total_chunks := len chunks';
               error_message := error_message document' |} in
          Some ({| document := document'; chunks := chunks'; success := true;
                   result_error_message := None |},
                {| settings := settings self;
                   processed_documents :=
                     <[doc_id document' := document']>
                       (processed_documents self);
                   document_chunks :=
                     <[doc_id document' := chunks']> (document_chunks self);
                   drawn := drawn self |})
      end.

Definition get_document (self : DocumentService) (document_id' : string)
    : option Document :=
  processed_documents self !! document_id'.

Definition get_document_chunks (self : DocumentService)
    (document_id' : string) : list DocumentChunk :=
  default [] (document_chunks self !! document_id').

Definition remove_document (self : DocumentService) (document_id' : string)
    : bool * DocumentService :=
  match processed_documents self !! document_id' with
  | Some _ =>
      (true,
       {| settings := settings self;
          processed_documents := delete document_id' (processed_documents self);
          document_chunks :=
            match document_chunks self !! document_id' with
            | Some _ => delete document_id' (document_chunks self)
            | None => document_chunks self
            end;
          drawn := drawn self |})
  | None => (false, self)
  end.

Definition clear_all_documents (self : DocumentService) : DocumentService :=
  {| settings := settings self; processed_documents := ∅;
     document_chunks := ∅; drawn := drawn self |}.

(** The statistics of [get_knowledge_base_stats], without the time of the
    call.  The sums and the counters do not depend on the order of the
    dictionary values. *)
Record KnowledgeBaseStats := mkKnowledgeBaseStats {
  total_documents : Z;
  stats_total_chunks : Z;
  total_size : Z;
  status_counts : gmap string Z
}.

Definition get_knowledge_base_stats (self : DocumentService)
    : KnowledgeBaseStats :=
  let documents := (map_to_list (processed_documents self)).*2 in
  {| total_documents := Z.of_nat (size (processed_documents self));
     stats_total_chunks :=
       fold_left (fun total chunks' => total + len chunks')
                 (map_to_list (document_chunks self)).*2 0;
     total_size :=
       fold_left (fun total doc => total + file_size doc) documents 0;
     status_counts :=
       fold_left (fun counts doc =>
                    <[processing_status doc :=
                        default 0 (counts !! processing_status doc) + 1]>
                      counts)
                 documents ∅ |}.

End Service.

End DocumentService.

(** * Properties *)

(** ** Facts about the Python built-ins *)

Module PyFacts.

Import Py.
Local Open Scope Z_scope.

Lemma newline_isspace : isspace newline = true.
Proof. reflexivity. Qed.

Lemma lstrip_split (s : list ascii) :
  exists k, s = k ++ lstrip s /\ Forall (fun c => isspace c = true) k.
Proof.
  induction s as [|c r IH]; simpl.
  - exists []. split; [reflexivity | constructor].
  - destruct (isspace c) eqn:Hc.
    + destruct IH as (k & Hk & Hall). exists (c :: k). split.
      * simpl. congruence.
      * constructor; assumption.
    + exists []. split; [reflexivity | constructor].
Qed.

Lemma lstrip_head (s : list ascii) (c : ascii) :
  head (lstrip s) = Some c -> isspace c = false.
Proof.
  induction s as [|x r IH]; simpl; [discriminate|].
  destruct (isspace x) eqn:Hx; [exact IH|].
  simpl. intros [= <-]. exact Hx.
Qed.

Lemma lstrip_nil (s : list ascii) :
  lstrip s = [] <-> Forall (fun c => isspace c = true) s.
Proof.
  induction s as [|x r IH]; simpl.
  - split; [constructor | reflexivity].
  - destruct (isspace x) eqn:Hx.
    + rewrite IH. split; [intros; constructor; assumption|].
      inversion 1; assumption.
    + split; [discriminate|]. inversion 1; congruence.
Qed.

Lemma rstrip_split (s : list ascii) :
  exists k, s = rstrip s ++ k /\ Forall (fun c => isspace c = true) k.
Proof.
  unfold rstrip. destruct (lstrip_split (rev s)) as (k & Hk & Hall).
  exists (rev k). split.
  - rewrite <- rev_app_distr, <- Hk, rev_involutive. reflexivity.
  - apply Forall_forall. intros c Hc. rewrite Forall_forall in Hall.
    apply Hall. apply list_elem_of_In. apply list_elem_of_In in Hc.
    apply in_rev. exact Hc.
Qed.

Lemma last_rev_head {A} (l : list A) : last (rev l) = head l.
Proof.
  destruct l as [|a l]; [reflexivity|]. simpl.
  rewrite last_snoc. reflexivity.
Qed.

Lemma rstrip_last (s : list ascii) (c : ascii) :
  last (rstrip s) = Some c -> isspace c = false.
Proof.
  unfold rstrip. rewrite last_rev_head. apply lstrip_head.
Qed.

Lemma rstrip_nil (s : list ascii) :
  rstrip s = [] <-> Forall (fun c => isspace c = true) s.
Proof.
  unfold rstrip. split.
  - intros Hr. apply (f_equal (@rev ascii)) in Hr.
    rewrite rev_involutive in Hr. simpl in Hr. apply lstrip_nil in Hr.
    apply Forall_forall. intros c Hc. rewrite Forall_forall in Hr.
    apply Hr. apply list_elem_of_In. apply list_elem_of_In in Hc.
    apply in_rev in Hc. exact Hc.
  - intros Hall.
    assert (Hrev : Forall (fun c => isspace c = true) (rev s)).
    { apply Forall_forall. intros c Hc. rewrite Forall_forall in Hall.
      apply Hall. apply list_elem_of_In. apply list_elem_of_In in Hc.
      apply in_rev. exact Hc. }
    apply lstrip_nil in Hrev. rewrite Hrev. reflexivity.
Qed.

Lemma strip_head (s : list ascii) (c : ascii) :
  head (strip s) = Some c -> isspace c = false.
Proof.
  unfold strip. intros Hh.
  destruct (rstrip_split (lstrip s)) as (k & Hk & _).
  destruct (rstrip (lstrip s)) as [|x r] eqn:Hr; [discriminate|].
  simpl in Hh. injection Hh as ->.
  apply (lstrip_head s). rewrite Hk. reflexivity.
Qed.

Lemma strip_last (s : list ascii) (c : ascii) :
  last (strip s) = Some c -> isspace c = false.
Proof. unfold strip. apply rstrip_last. Qed.

Lemma strip_nil (s : list ascii) :
  strip s = [] <-> Forall (fun c => isspace c = true) s.
Proof.
  unfold strip. rewrite rstrip_nil. split.
  - intros Hl. destruct (lstrip_split s) as (k & Hk & Hall).
    rewrite Hk. apply Forall_app. split; assumption.
  - intros Hall. apply lstrip_nil in Hall. rewrite Hall. constructor.
Qed.

Lemma strip_Forall (P : ascii -> Prop) (s : list ascii) :
  Forall P s -> Forall P (strip s).
Proof.
  intros Hs. unfold strip.
  destruct (lstrip_split s) as (k & Hk & _).
  destruct (rstrip_split (lstrip s)) as (k' & Hk' & _).
  rewrite Hk, Hk' in Hs.
  apply Forall_app in Hs as [_ Hs]. apply Forall_app in Hs as [Hs _].
  exact Hs.
Qed.

(** [re.sub] keeps a property that the text and the replacement share. *)
Lemma re_sub_from_Forall (P : ascii -> Prop) m repl :
  Forall P repl ->
  forall s skip, Forall P s -> Forall P (re_sub_from m repl skip s).
Proof.
  intros Hrepl. induction s as [|c r IH]; intros skip Hs; simpl.
  - constructor.
  - inversion Hs as [|? ? Hc Hr]; subst.
    destruct skip as [|k]; [|apply IH; assumption].
    destruct (m (c :: r)) as [[|n]|].
    + constructor; [assumption | apply IH; assumption].
    + apply Forall_app. split; [assumption | apply IH; assumption].
    + constructor; [assumption | apply IH; assumption].
Qed.

(** A pattern that matches at no position of the text leaves it as it is. *)
Lemma re_sub_no_match m repl (s : list ascii) :
  (forall t, t `suffix_of` s -> m t = None) -> re_sub m repl s = s.
Proof.
  unfold re_sub. induction s as [|c r IH]; intros Hm; simpl; [reflexivity|].
  rewrite (Hm (c :: r)) by reflexivity.
  f_equal. apply IH. intros t Ht. apply Hm.
  apply suffix_cons_r. exact Ht.
Qed.

(** After [\s+] is replaced by a space, a space is the only white space. *)
Lemma re_sub_spaces_only_space (s : list ascii) :
  forall skip,
    Forall (fun c => isspace c = true -> c = space)
           (re_sub_from re_spaces [space] skip s).
Proof.
  induction s as [|c r IH]; intros skip; simpl; [constructor|].
  destruct skip as [|k]; [|apply IH].
  unfold re_spaces. cbn [span_len]. destruct (isspace c) eqn:Hc.
  - cbn [app]. constructor; [reflexivity | apply IH].
  - constructor; [congruence | apply IH].
Qed.

Lemma re_newlines3_no_newline (t : list ascii) :
  ~ In newline t -> re_newlines3 t = None.
Proof.
  intros Hn. unfold re_newlines3.
  destruct t as [|c r]; [reflexivity|]. cbn [span_len].
  destruct (Ascii.eqb newline c) eqn:Hc; [|reflexivity].
  apply Ascii.eqb_eq in Hc. subst c. exfalso. apply Hn. left. reflexivity.
Qed.

End PyFacts.

(** ** The chunker *)

Module TextUtilsFacts.

Import Py PyFacts TextUtils.
Local Open Scope Z_scope.

Definition space_is_only_whitespace (s : list ascii) : Prop :=
  Forall (fun c => isspace c = true -> c = space) s.

Lemma only_space_no_newline (s : list ascii) :
  space_is_only_whitespace s -> ~ In newline s.
Proof.
  intros Hs Hin. unfold space_is_only_whitespace in Hs.
  rewrite Forall_forall in Hs.
  specialize (Hs newline (proj2 (list_elem_of_In _ _) Hin) newline_isspace).
  discriminate Hs.
Qed.

Lemma clean_spaces_only_space (text : list ascii) :
  space_is_only_whitespace (clean_spaces text).
Proof. apply re_sub_spaces_only_space. Qed.

Lemma clean_markers_only_space (text : list ascii) :
  space_is_only_whitespace (clean_markers (clean_spaces text)).
Proof.
  apply re_sub_from_Forall; [constructor | apply clean_spaces_only_space].
Qed.

Lemma newlines3_never_matches (text t : list ascii) :
  t `suffix_of` clean_markers (clean_spaces text) -> re_newlines3 t = None.
Proof.
  intros [k Hk]. apply re_newlines3_no_newline. intros Hin.
  apply (only_space_no_newline _ (clean_markers_only_space text)).
  rewrite Hk. apply in_or_app. right. exact Hin.
Qed.

Lemma clean_newlines_id (text : list ascii) :
  clean_newlines (clean_markers (clean_spaces text))
  = clean_markers (clean_spaces text).
Proof. apply re_sub_no_match. apply newlines3_never_matches. Qed.

Lemma clean_text_eq (text : list ascii) :
  clean_text text = strip (clean_markers (clean_spaces text)).
Proof. unfold clean_text. rewrite clean_newlines_id. reflexivity. Qed.

Lemma clean_text_only_space (text : list ascii) :
  space_is_only_whitespace (clean_text text).
Proof.
  rewrite clean_text_eq. apply strip_Forall. apply clean_markers_only_space.
Qed.

(** C10.  The text that [clean_text] returns holds no newline and neither
    starts nor ends with white space; the substitution of [\n{3,}] matches
    at no position of the text it is given and returns that text as it is,
    because after the substitution of [\s+] no newline is left. *)
Theorem clean_text_normal_form (text : list ascii) :
  ~ In newline (clean_text text)
  /\ (forall c, head (clean_text text) = Some c -> isspace c = false)
  /\ (forall c, last (clean_text text) = Some c -> isspace c = false)
  /\ ~ In newline (clean_spaces text)
  /\ (forall t, t `suffix_of` clean_markers (clean_spaces text) ->
                re_newlines3 t = None)
  /\ clean_newlines (clean_markers (clean_spaces text))
     = clean_markers (clean_spaces text).
Proof.
  split; [|split; [|split; [|split; [|split]]]].
  - apply only_space_no_newline, clean_text_only_space.
  - intros c. unfold clean_text. apply strip_head.
  - intros c. unfold clean_text. apply strip_last.
  - apply only_space_no_newline, clean_spaces_only_space.
  - apply newlines3_never_matches.
  - apply clean_newlines_id.
Qed.

End TextUtilsFacts.

(** ** The chunk loop *)

Module ChunkFacts.

Import Py PyFacts TextUtils TextUtilsFacts.
Local Open Scope Z_scope.

(** The character at a position that is not negative. *)
Definition char_at (s : list ascii) (p : Z) : option ascii :=
  if p <? 0 then None else s !! Z.to_nat p.

Definition terminator (c : ascii) : bool :=
  Ascii.eqb c "."%char || Ascii.eqb c "!"%char || Ascii.eqb c "?"%char.

Lemma slice_index_inside (n i : Z) : 0 <= i <= n -> slice_index n i = i.
Proof. intros Hi. unfold slice_index. destruct (Z.ltb_spec i 0); lia. Qed.

Lemma slice_inside {A} (s : list A) (a b : Z) :
  0 <= a <= b -> b <= len s ->
  slice s a b = take (Z.to_nat (b - a)) (drop (Z.to_nat a) s).
Proof.
  intros Hab Hb. unfold slice.
  rewrite !slice_index_inside by lia. reflexivity.
Qed.

Lemma slice_lookup (s : list ascii) (a b : Z) (k : nat) :
  0 <= a <= b -> b <= len s -> (Z.of_nat k < b - a) ->
  slice s a b !! k = char_at s (a + Z.of_nat k).
Proof.
  intros Hab Hb Hk. rewrite slice_inside by assumption.
  rewrite lookup_take_lt by lia. rewrite lookup_drop.
  unfold char_at. destruct (Z.ltb_spec (a + Z.of_nat k) 0); [lia|].
  f_equal. lia.
Qed.

Lemma slice_length (s : list ascii) (a b : Z) :
  0 <= a <= b -> b <= len s -> len (slice s a b) = b - a.
Proof.
  intros Hab Hb. rewrite slice_inside by assumption.
  unfold len in *. rewrite length_take, length_drop. lia.
Qed.

Lemma rindex_Some (c : ascii) (l : list ascii) (k : nat) :
  rindex c l = Some k ->
  l !! k = Some c /\ forall j, (k < j)%nat -> l !! j <> Some c.
Proof.
  revert k. induction l as [|x r IH]; intros k; simpl; [discriminate|].
  destruct (rindex c r) as [k'|] eqn:Hr.
  - intros [= <-]. destruct (IH k' eq_refl) as [Hk Hj]. split; [exact Hk|].
    intros [|j] Hlt; [lia|]. simpl. apply Hj. lia.
  - destruct (Ascii.eqb x c) eqn:Hx; [|discriminate].
    intros [= <-]. apply Ascii.eqb_eq in Hx. subst x. split; [reflexivity|].
    intros [|j] Hlt; [lia|]. simpl. intros Hj.
    clear IH. revert j Hj Hlt. induction r as [|y r IHr]; intros j Hj Hlt.
    + destruct j; discriminate.
    + simpl in Hr. destruct (rindex c r) eqn:Hr'; [discriminate|].
      destruct (Ascii.eqb y c) eqn:Hy; [discriminate|].
      destruct j as [|j]; simpl in Hj.
      * injection Hj as ->. rewrite Ascii.eqb_refl in Hy. discriminate.
      * apply (IHr eq_refl j Hj). lia.
Qed.

Lemma rindex_None (c : ascii) (l : list ascii) :
  rindex c l = None -> forall j, l !! j <> Some c.
Proof.
  induction l as [|x r IH]; simpl; intros Hr j.
  - destruct j; discriminate.
  - destruct (rindex c r) eqn:Hr'; [discriminate|].
    destruct (Ascii.eqb x c) eqn:Hx; [discriminate|].
    destruct j as [|j]; simpl.
    + intros [= ->]. rewrite Ascii.eqb_refl in Hx. discriminate.
    + apply IH. reflexivity.
Qed.

Lemma rindex_lt (c : ascii) (l : list ascii) (k : nat) :
  rindex c l = Some k -> (k < length l)%nat.
Proof.
  intros Hr. apply rindex_Some in Hr as [Hk _].
  apply lookup_lt_Some in Hk. exact Hk.
Qed.

(** What [rfind] returns on a range inside the text: -1 when the character
    does not occur in the range, else its last position there. *)
Definition last_in_range (s : list ascii) (P : ascii -> Prop)
    (start end_ r : Z) : Prop :=
  (r = -1 /\ forall j c, start <= j < end_ -> char_at s j = Some c -> ~ P c)
  \/ (start <= r < end_
      /\ (exists c, char_at s r = Some c /\ P c)
      /\ forall j c, r < j < end_ -> char_at s j = Some c -> ~ P c).

Lemma rfind_spec (s : list ascii) (c : ascii) (start end_ : Z) :
  0 <= start <= end_ -> end_ <= len s ->
  last_in_range s (fun x => x = c) start end_ (rfind s c start end_).
Proof.
  intros Hse He. unfold rfind.
  rewrite (slice_index_inside _ start) by lia.
  destruct (rindex c (slice s start end_)) as [k|] eqn:Hr.
  - right. pose proof (rindex_lt _ _ _ Hr) as Hlt.
    pose proof (slice_length s start end_ Hse He) as Hlen. unfold len in Hlen.
    apply rindex_Some in Hr as [Hk Hj].
    rewrite slice_lookup in Hk by lia.
    split; [lia|]. split; [exists c; split; [exact Hk | reflexivity]|].
    intros j x Hjr Hx ->.
    apply (Hj (Z.to_nat (j - start))); [lia|].
    rewrite slice_lookup by lia.
    replace (start + Z.of_nat (Z.to_nat (j - start))) with j by lia.
    exact Hx.
  - left. split; [reflexivity|].
    intros j x Hjr Hx ->.
    apply (rindex_None _ _ Hr (Z.to_nat (j - start))).
    rewrite slice_lookup by lia.
    replace (start + Z.of_nat (Z.to_nat (j - start))) with j by lia.
    exact Hx.
Qed.

Lemma terminator_cases (c : ascii) :
  terminator c = true <-> c = "."%char \/ c = "!"%char \/ c = "?"%char.
Proof.
  unfold terminator. rewrite !orb_true_iff, !Ascii.eqb_eq. tauto.
Qed.

(** [sentence_break] is the last sentence terminator of the window, or -1. *)
Lemma sentence_break_spec (s : list ascii) (start end_ : Z) :
  0 <= start <= end_ -> end_ <= len s ->
  last_in_range s (fun x => terminator x = true) start end_
    (sentence_break s start end_).
Proof.
  intros Hse He. unfold sentence_break.
  pose proof (rfind_spec s "."%char start end_ Hse He) as H1.
  pose proof (rfind_spec s "!"%char start end_ Hse He) as H2.
  pose proof (rfind_spec s "?"%char start end_ Hse He) as H3.
  set (r1 := rfind s "." start end_) in *.
  set (r2 := rfind s "!" start end_) in *.
  set (r3 := rfind s "?" start end_) in *.
  assert (Hno : forall r x, last_in_range s (fun y => y = x) start end_ r ->
            forall j c, r < j < end_ -> start <= j -> char_at s j = Some c ->
                        c <> x).
  { intros r x [[-> Hn]|(Hr & _ & Hn)] j c Hj Hsj Hc.
    - apply (Hn j c); [lia | exact Hc].
    - apply (Hn j c); [lia | exact Hc]. }
  assert (Hyes : forall r x, terminator x = true ->
            last_in_range s (fun y => y = x) start end_ r -> r <> -1 ->
            start <= r < end_
            /\ exists c, char_at s r = Some c /\ terminator c = true).
  { intros r x Hx [[-> _]|(Hr & (c & Hc & ->) & _)] Hne; [lia|].
    split; [exact Hr | exists x; split; assumption]. }
  assert (Hb : forall r x, last_in_range s (fun y => y = x) start end_ r ->
            r = -1 \/ start <= r < end_).
  { intros r x [[-> _]|(Hr & _)]; [left; reflexivity | right; exact Hr]. }
  pose proof (Hb _ _ H1) as B1. pose proof (Hb _ _ H2) as B2.
  pose proof (Hb _ _ H3) as B3.
  set (sb := Z.max (Z.max r1 r2) r3).
  assert (Hafter : forall j c, sb < j < end_ -> start <= j ->
            char_at s j = Some c -> terminator c <> true).
  { intros j c Hj Hsj Hc Ht. apply terminator_cases in Ht as [-> | [-> | ->]].
    - apply (Hno _ _ H1 j _ ltac:(lia) Hsj Hc). reflexivity.
    - apply (Hno _ _ H2 j _ ltac:(lia) Hsj Hc). reflexivity.
    - apply (Hno _ _ H3 j _ ltac:(lia) Hsj Hc). reflexivity. }
  destruct (Z.eq_dec sb (-1)) as [Hm|Hm].
  - left. split; [exact Hm|]. intros j c Hj. apply Hafter; lia.
  - right.
    assert (Hsb : sb = r1 \/ sb = r2 \/ sb = r3) by lia.
    assert (Hin : start <= sb < end_
                  /\ exists c, char_at s sb = Some c /\ terminator c = true).
    { destruct Hsb as [E|[E|E]]; rewrite E in Hm |- *.
      - apply (Hyes _ "."%char eq_refl H1 Hm).
      - apply (Hyes _ "!"%char eq_refl H2 Hm).
      - apply (Hyes _ "?"%char eq_refl H3 Hm). }
    destruct Hin as [Hr Hc]. split; [exact Hr|]. split; [exact Hc|].
    intros j c Hj. apply Hafter; lia.
Qed.

(** *** The loop under valid parameters *)

Section Loop.

Variable uuid4 : Z -> string.
Variable clean : list ascii.
Variable doc : string.
Variables cs ov : Z.
Hypothesis Hcs : 0 < cs.
Hypothesis Hov : 0 <= ov < cs.

Lemma half_nonneg : 0 <= cs / 2.
Proof. apply Z.div_pos; lia. Qed.

(** How the end of a window is chosen when the hard end is inside the
    text. *)
Lemma window_end_inside (start : Z) :
  start + cs < len clean ->
  window_end clean cs start
  = if sentence_break clean start (start + cs) >? start + cs / 2
    then sentence_break clean start (start + cs) + 1
    else start + cs.
Proof.
  intros Hin. unfold window_end.
  rewrite Z.min_l by lia.
  destruct (Z.ltb_spec (start + cs) (len clean)); [reflexivity | lia].
Qed.

Lemma window_end_at_end (start : Z) :
  len clean <= start + cs -> window_end clean cs start = len clean.
Proof.
  intros Hin. unfold window_end.
  rewrite Z.min_r by lia. rewrite Z.ltb_irrefl. reflexivity.
Qed.

Lemma window_end_bounds (start : Z) :
  0 <= start < len clean ->
  start < window_end clean cs start <= Z.min (start + cs) (len clean).
Proof.
  intros Hs. pose proof half_nonneg as Hh.
  destruct (Z.lt_ge_cases (start + cs) (len clean)) as [Hin|Hout].
  - rewrite window_end_inside by assumption.
    pose proof (sentence_break_spec clean start (start + cs)
                  ltac:(lia) ltac:(lia)) as Hsb.
    set (sb := sentence_break clean start (start + cs)) in *.
    rewrite Z.gtb_ltb. destruct (Z.ltb_spec (start + cs / 2) sb).
    + destruct Hsb as [[Hm _]|[Hr _]]; lia.
    + lia.
  - rewrite window_end_at_end by lia. lia.
Qed.

(** The chunk list after the window at [start] has been looked at. *)
Definition emit (idx start : Z) (chunks : list DocumentChunk)
    : list DocumentChunk :=
  let e := window_end clean cs start in
  let chunk_content := strip (slice clean start e) in
  if truthy chunk_content
  then chunks ++ [make_chunk uuid4 clean doc idx start e chunk_content]
  else chunks.

Lemma no_progress_false (start : Z) (chunks : list DocumentChunk) :
  Forall (fun c => start_char c < start) chunks ->
  no_progress start chunks = false.
Proof.
  intros Hall. unfold no_progress.
  destruct (last chunks) as [c|] eqn:Hl; [|reflexivity].
  apply last_Some_elem_of in Hl.
  rewrite Forall_forall in Hall. specialize (Hall c Hl).
  apply Z.leb_gt. exact Hall.
Qed.

Lemma emit_starts (idx start : Z) (chunks : list DocumentChunk) :
  Forall (fun c => start_char c <= start) chunks ->
  Forall (fun c => start_char c <= start) (emit idx start chunks).
Proof.
  intros Hall. unfold emit.
  destruct (truthy _); [|exact Hall].
  apply Forall_app. split; [exact Hall|].
  constructor; [simpl; lia | constructor].
Qed.

Definition next_index (idx start : Z) : Z :=
  if truthy (strip (slice clean start (window_end clean cs start)))
  then idx + 1 else idx.

(** One turn of the loop.  Under valid parameters the next start is always
    [start + chunk_size - chunk_overlap]: [end - chunk_overlap] is never the
    larger argument of [max], and the progress guard never fires. *)
Lemma chunk_loop_iteration (fuel : nat) (start idx : Z)
    (chunks : list DocumentChunk) :
  0 <= start < len clean ->
  Forall (fun c => start_char c <= start) chunks ->
  chunk_loop uuid4 clean doc cs ov (S fuel) start idx chunks
  = if window_end clean cs start >=? len clean
    then Some (emit idx start chunks)
    else chunk_loop uuid4 clean doc cs ov fuel (start + cs - ov)
           (next_index idx start) (emit idx start chunks).
Proof.
  intros Hs Hall. cbn [chunk_loop].
  destruct (Z.ltb_spec start (len clean)); [|lia].
  pose proof (window_end_bounds start Hs) as Hwe.
  pose proof (emit_starts idx start chunks Hall) as Hall'.
  unfold emit, next_index in *.
  set (e := window_end clean cs start) in *.
  destruct (truthy (strip (slice clean start e)));
    (rewrite Z.geb_leb; destruct (Z.leb_spec (len clean) e); [reflexivity|];
     rewrite Z.max_l by lia;
     rewrite no_progress_false; [reflexivity|];
     eapply Forall_impl; [exact Hall'|]; simpl; intros; lia).
Qed.

(** A total-correctness rule for the loop: an invariant [P] of the start
    position and the chunk list that every window keeps, and that gives [Q]
    when the loop is left, gives [Q] of the list returned, and the list is
    returned as soon as the fuel exceeds the distance to the end. *)
Section Rule.

Variable P : Z -> list DocumentChunk -> Prop.
Variable Q : list DocumentChunk -> Prop.

Hypothesis P_exit : forall start chunks,
  len clean <= start -> P start chunks -> Q chunks.

Hypothesis P_step : forall start idx chunks,
  0 <= start < len clean -> P start chunks ->
  (len clean <= window_end clean cs start -> Q (emit idx start chunks))
  /\ (window_end clean cs start < len clean ->
      P (start + cs - ov) (emit idx start chunks)).

Lemma chunk_loop_rule (fuel : nat) :
  forall start idx chunks,
    0 <= start ->
    Forall (fun c => start_char c <= start) chunks ->
    P start chunks ->
    (Z.to_nat (len clean - start) < fuel)%nat ->
    exists out,
      chunk_loop uuid4 clean doc cs ov fuel start idx chunks = Some out
      /\ Q out.
Proof.
  induction fuel as [|fuel IH]; intros start idx chunks Hs Hall HP Hfuel;
    [lia|].
  destruct (Z.lt_ge_cases start (len clean)) as [Hlt|Hge].
  - rewrite chunk_loop_iteration by (split || idtac; assumption).
    destruct (P_step start idx chunks ltac:(lia) HP) as [Hq Hp].
    rewrite Z.geb_leb.
    destruct (Z.leb_spec (len clean) (window_end clean cs start)) as [He|He].
    + eexists. split; [reflexivity | apply Hq; lia].
    + apply IH; [lia | | apply Hp; lia | lia].
      eapply Forall_impl; [apply emit_starts; exact Hall|].
      simpl. intros; lia.
  - cbn [chunk_loop]. destruct (Z.ltb_spec start (len clean)); [lia|].
    eexists. split; [reflexivity | apply (P_exit start); [lia | exact HP]].
Qed.

End Rule.

End Loop.

(** More fuel does not change what the loop returns. *)
Lemma chunk_loop_more_fuel uuid4 clean doc cs ov (fuel : nat) :
  forall start idx chunks out,
    chunk_loop uuid4 clean doc cs ov fuel start idx chunks = Some out ->
    forall extra,
      chunk_loop uuid4 clean doc cs ov (fuel + extra) start idx chunks
      = Some out.
Proof.
  induction fuel as [|fuel IH]; intros start idx chunks out Hrun extra;
    [discriminate|].
  change (S fuel + extra)%nat with (S (fuel + extra)).
  cbn [chunk_loop] in Hrun |- *.
  destruct (start <? len clean); [|exact Hrun].
  destruct (truthy _);
    (destruct (_ >=? len clean); [exact Hrun | apply IH; exact Hrun]).
Qed.

End ChunkFacts.

(** ** Properties of [create_text_chunks] *)

Module ChunkProperties.

Import Py PyFacts TextUtils TextUtilsFacts ChunkFacts.
Local Open Scope Z_scope.

Definition in_bounds (n : Z) (c : DocumentChunk) : Prop :=
  0 <= start_char c /\ start_char c < end_char c /\ end_char c <= n.

Definition span (c : DocumentChunk) : Z * Z := (start_char c, end_char c).

(** Position [p] lies in the span of a chunk of the list. *)
Definition covered (chunks : list DocumentChunk) (p : Z) : Prop :=
  Exists (fun c => start_char c <= p /\ p < end_char c) chunks.

Definition covers_text (clean : list ascii) (chunks : list DocumentChunk)
    : Prop :=
  forall p, 0 <= p < len clean -> covered chunks p.

Definition uuid_of_index (k : Z) : string := "chunk"%string.

Lemma char_at_range (s : list ascii) (p : Z) (c : ascii) :
  char_at s p = Some c -> 0 <= p < len s.
Proof.
  unfold char_at. destruct (Z.ltb_spec p 0); [discriminate|].
  intros Hp. apply lookup_lt_Some in Hp. unfold len. lia.
Qed.

Lemma clean_text_Forall (P : ascii -> Prop) (text : list ascii) :
  P space -> P newline -> Forall P text -> Forall P (clean_text text).
Proof.
  intros Hsp Hnl Ht. unfold clean_text, clean_newlines, clean_markers,
    clean_spaces, re_sub.
  apply strip_Forall.
  apply re_sub_from_Forall; [repeat constructor; assumption|].
  apply re_sub_from_Forall; [constructor|].
  apply re_sub_from_Forall; [repeat constructor; assumption|].
  exact Ht.
Qed.

Lemma blank_text_clean (text : list ascii) :
  negb (truthy text) || negb (truthy (strip text)) = true ->
  Forall (fun c => isspace c = true) (clean_text text).
Proof.
  intros Hb. apply clean_text_Forall; [reflexivity | reflexivity |].
  apply strip_nil. destruct text as [|c r]; [reflexivity|].
  simpl in Hb. destruct (strip (c :: r)); [reflexivity | discriminate].
Qed.

(** C3.  For a positive chunk size and an overlap below it the loop ends:
    with more fuel than the cleaned text has characters
    [create_text_chunks] returns its list, and every chunk of the list has
    [0 <= start_char < end_char <= len(clean_content)]. *)
Theorem create_text_chunks_total (uuid4 : Z -> string) (text : list ascii)
    (doc : string) (cs ov : Z) (fuel : nat) :
  0 < cs -> 0 <= ov < cs ->
  (length (clean_text text) < fuel)%nat ->
  exists chunks,
    create_text_chunks fuel uuid4 text doc cs ov = Some chunks
    /\ Forall (in_bounds (len (clean_text text))) chunks.
Proof.
  intros Hcs Hov Hfuel. unfold create_text_chunks.
  destruct (negb (truthy text) || negb (truthy (strip text))).
  { exists []. split; [reflexivity | constructor]. }
  set (clean := clean_text text) in *.
  apply (chunk_loop_rule uuid4 clean doc cs ov Hcs Hov
           (fun _ chunks => Forall (in_bounds (len clean)) chunks)
           (Forall (in_bounds (len clean)))).
  - intros start chunks _ HP. exact HP.
  - intros start idx chunks Hs HP.
    pose proof (window_end_bounds clean cs Hcs start Hs) as Hwe.
    assert (Hemit : Forall (in_bounds (len clean))
                      (emit uuid4 clean doc cs idx start chunks)).
    { unfold emit. destruct (truthy _); [|exact HP].
      apply Forall_app. split; [exact HP|].
      constructor; [|constructor]. unfold in_bounds. simpl. lia. }
    split; intros _; exact Hemit.
  - lia.
  - constructor.
  - constructor.
  - unfold len. lia.
Qed.

Lemma create_text_chunks_total_witness :
  exists chunks,
    create_text_chunks 40 uuid_of_index
      (str "One. Two three four. Five six.") "doc" 10 2 = Some chunks
    /\ Forall (in_bounds (len (clean_text (str "One. Two three four. Five six."))))
         chunks.
Proof.
  apply create_text_chunks_total; [lia | lia | vm_compute; lia].
Defined.

(** *** The cut of a window *)

(** The rule of C8 as the specification words it: a terminator at or after the
    midpoint is the cut. *)
Definition cut_at_or_after_midpoint (clean : list ascii) (cs start : Z)
    : Prop :=
  let sb := sentence_break clean start (start + cs) in
  (start + cs / 2 <= sb -> window_end clean cs start = sb + 1)
  /\ (sb < start + cs / 2 -> window_end clean cs start = start + cs).

(** C8, as the code has it.  For a window whose hard end [start +
    chunk_size] is inside the text, [sentence_break] is the last sentence
    terminator of the window (or -1 when it has none); the chunk is cut
    just after it when it lies strictly after [start + chunk_size // 2],
    and at the hard end otherwise. *)
Theorem window_end_cut (clean : list ascii) (cs start : Z) :
  0 < cs -> 0 <= start -> start + cs < len clean ->
  let sb := sentence_break clean start (start + cs) in
  last_in_range clean (fun c => terminator c = true) start (start + cs) sb
  /\ (start + cs / 2 < sb -> window_end clean cs start = sb + 1)
  /\ (sb <= start + cs / 2 -> window_end clean cs start = start + cs).
Proof.
  intros Hcs Hs Hin sb. split; [|split].
  - apply sentence_break_spec; lia.
  - intros Hsb. rewrite window_end_inside by assumption. fold sb.
    rewrite Z.gtb_ltb. destruct (Z.ltb_spec (start + cs / 2) sb); [reflexivity | lia].
  - intros Hsb. rewrite window_end_inside by assumption. fold sb.
    rewrite Z.gtb_ltb. destruct (Z.ltb_spec (start + cs / 2) sb); [lia | reflexivity].
Qed.

Lemma window_end_cut_witness :
  let clean := str "abcde.ghijkl" in
  sentence_break clean 0 8 = 5 /\ window_end clean 8 0 = 6.
Proof.
  pose proof (window_end_cut (str "abcde.ghijkl") 8 0
                ltac:(lia) ltac:(lia) ltac:(vm_compute; reflexivity))
    as (_ & Hcut & _).
  split; [reflexivity|]. apply Hcut. vm_compute. reflexivity.
Defined.

(** A terminator exactly at the midpoint is not taken: in "ab.defgh" with
    [chunk_size = 4] the full stop is at position 2 = 0 + 4 // 2, and the
    first chunk ends at 4. *)
Lemma midpoint_terminator_not_cut :
  ~ cut_at_or_after_midpoint (str "ab.defgh") 4 0
  /\ option_map (map span)
       (create_text_chunks 10 uuid_of_index (str "ab.defgh") "doc" 4 0)
     = Some [(0, 4); (4, 8)].
Proof.
  split; [|vm_compute; reflexivity].
  intros [Hcut _]. vm_compute in Hcut.
  specialize (Hcut ltac:(discriminate)). discriminate Hcut.
Qed.

(** *** Coverage *)

Lemma covered_app (chunks more : list DocumentChunk) (p : Z) :
  covered chunks p -> covered (chunks ++ more) p.
Proof. unfold covered. rewrite Exists_app. tauto. Qed.

Section Coverage.

Variable uuid4 : Z -> string.
Variable clean : list ascii.
Variable doc : string.
Variables cs ov : Z.
Hypothesis Hcs : 0 < cs.
Hypothesis Hov : 0 <= ov < cs.

Lemma covered_emit idx start chunks p :
  covered chunks p -> covered (emit uuid4 clean doc cs idx start chunks) p.
Proof.
  intros Hc. unfold emit. destruct (truthy _); [|exact Hc].
  apply covered_app. exact Hc.
Qed.

(** A window that holds a character other than white space is emitted. *)
Lemma emit_covers_window idx start chunks p c :
  0 <= start < len clean ->
  start <= p < window_end clean cs start ->
  char_at clean p = Some c -> isspace c = false ->
  covered (emit uuid4 clean doc cs idx start chunks) p.
Proof.
  intros Hs Hp Hc Hns.
  pose proof (window_end_bounds clean cs Hcs start Hs) as Hwe.
  unfold emit. set (e := window_end clean cs start) in *.
  destruct (strip (slice clean start e)) as [|x r] eqn:Hstrip.
  - exfalso. apply strip_nil in Hstrip. rewrite Forall_forall in Hstrip.
    assert (Hin : slice clean start e !! Z.to_nat (p - start) = Some c).
    { rewrite slice_lookup by lia.
      replace (start + Z.of_nat (Z.to_nat (p - start))) with p by lia.
      exact Hc. }
    apply list_elem_of_lookup_2 in Hin. specialize (Hstrip c Hin). congruence.
  - simpl. unfold covered. apply Exists_app. right.
    constructor. simpl. lia.
Qed.

(** The next window starts inside or right after the current one when the
    overlap is large enough or the text has no sentence terminator. *)
Lemma next_start_no_gap start :
  cs - ov <= cs / 2 + 2 \/ Forall (fun c => terminator c = false) clean ->
  0 <= start < len clean ->
  window_end clean cs start < len clean ->
  start + cs - ov <= window_end clean cs start.
Proof.
  intros Hno Hs He.
  destruct (Z.lt_ge_cases (start + cs) (len clean)) as [Hin|Hout].
  2:{ rewrite window_end_at_end in He by lia. lia. }
  rewrite window_end_inside by assumption.
  pose proof (sentence_break_spec clean start (start + cs)
                ltac:(lia) ltac:(lia)) as Hsb.
  set (sb := sentence_break clean start (start + cs)) in *.
  rewrite Z.gtb_ltb. destruct (Z.ltb_spec (start + cs / 2) sb) as [Hcut|Hcut];
    [|lia].
  destruct Hno as [Hpar|Hterm]; [lia|].
  exfalso. destruct Hsb as [[Hm _]|(Hr & (c & Hc & Ht) & _)].
  - pose proof (half_nonneg cs Hcs). lia.
  - unfold char_at in Hc. destruct (Z.ltb_spec sb 0); [discriminate|].
    apply list_elem_of_lookup_2 in Hc.
    rewrite Forall_forall in Hterm. specialize (Hterm c Hc). congruence.
Qed.

Lemma chunk_loop_covers (fuel : nat) :
  cs - ov <= cs / 2 + 2 \/ Forall (fun c => terminator c = false) clean ->
  (length clean < fuel)%nat ->
  exists chunks,
    chunk_loop uuid4 clean doc cs ov fuel 0 0 [] = Some chunks
    /\ forall p c, char_at clean p = Some c -> isspace c = false ->
                   covered chunks p.
Proof.
  intros Hno Hfuel.
  apply (chunk_loop_rule uuid4 clean doc cs ov Hcs Hov
           (fun start chunks =>
              forall p c, p < start -> char_at clean p = Some c ->
                          isspace c = false -> covered chunks p)
           (fun chunks =>
              forall p c, char_at clean p = Some c -> isspace c = false ->
                          covered chunks p)).
  - intros start chunks Hge HP p c Hc Hns.
    apply (HP p c); [|exact Hc | exact Hns].
    apply char_at_range in Hc. lia.
  - intros start idx chunks Hs HP.
    assert (Hboth : forall p c, p < window_end clean cs start ->
              char_at clean p = Some c -> isspace c = false ->
              covered (emit uuid4 clean doc cs idx start chunks) p).
    { intros p c Hp Hc Hns. destruct (Z.lt_ge_cases p start) as [Hlt|Hge].
      - apply covered_emit. apply (HP p c); assumption.
      - apply (emit_covers_window idx start chunks p c); [exact Hs | lia | exact Hc | exact Hns]. }
    split.
    + intros He p c Hc Hns. apply (Hboth p c); [|exact Hc | exact Hns].
      apply char_at_range in Hc. lia.
    + intros He p c Hp Hc Hns. apply (Hboth p c); [|exact Hc | exact Hns].
      pose proof (next_start_no_gap start Hno Hs He). lia.
  - lia.
  - constructor.
  - intros p c Hp Hc. apply char_at_range in Hc. lia.
  - unfold len. lia.
Qed.

End Coverage.

(** C1, as the code has it.  For a positive chunk size and an overlap below
    it, every position of the cleaned text that holds a character other
    than white space lies in the span of a returned chunk, when no window
    can be cut short of the next start: the text has no sentence terminator,
    or [chunk_size - overlap <= chunk_size // 2 + 2]. *)
Theorem create_text_chunks_covers (uuid4 : Z -> string) (text : list ascii)
    (doc : string) (cs ov : Z) (fuel : nat) :
  0 < cs -> 0 <= ov < cs ->
  cs - ov <= cs / 2 + 2
    \/ Forall (fun c => terminator c = false) (clean_text text) ->
  (length (clean_text text) < fuel)%nat ->
  exists chunks,
    create_text_chunks fuel uuid4 text doc cs ov = Some chunks
    /\ forall p c, char_at (clean_text text) p = Some c ->
                   isspace c = false -> covered chunks p.
Proof.
  intros Hcs Hov Hno Hfuel. unfold create_text_chunks.
  destruct (negb (truthy text) || negb (truthy (strip text))) eqn:Hblank.
  - exists []. split; [reflexivity|]. intros p c Hc Hns. exfalso.
    apply blank_text_clean in Hblank. rewrite Forall_forall in Hblank.
    unfold char_at in Hc. destruct (Z.ltb_spec p 0); [discriminate|].
    apply list_elem_of_lookup_2 in Hc. specialize (Hblank c Hc). congruence.
  - apply chunk_loop_covers; assumption.
Qed.

Lemma create_text_chunks_covers_witness :
  exists chunks,
    create_text_chunks 40 uuid_of_index
      (str "One. Two three four. Five six.") "doc" 10 4 = Some chunks
    /\ forall p c,
         char_at (clean_text (str "One. Two three four. Five six.")) p = Some c ->
         isspace c = false -> covered chunks p.
Proof.
  apply create_text_chunks_covers;
    [lia | lia | left; vm_compute; discriminate | vm_compute; lia].
Defined.

(** Refutes [H : covers_text clean chunks] for concrete chunks at a position
    [p] of the text that no span holds. *)
Ltac not_covered H p :=
  specialize (H p ltac:(vm_compute; split; [discriminate | reflexivity]));
  unfold covered in H; rewrite Exists_exists in H;
  let c := fresh "c" in
  let Hin := fresh "Hin" in
  let Hlo := fresh "Hlo" in
  let Hhi := fresh "Hhi" in
  destruct H as (c & Hin & Hlo & Hhi);
  repeat (apply elem_of_cons in Hin as [-> | Hin]; [simpl in Hlo, Hhi; lia|]);
  inversion Hin.

(** C1 as the specification words it fails in two ways.  A window of white
    space only is not emitted: "a b" with windows of one character leaves
    position 1 in no chunk.  And after a cut at a sentence end the next
    window still starts [chunk_size - overlap] after the previous start:
    with windows of ten characters and no overlap, positions 8 and 9 of the
    text below are in no chunk. *)
Lemma create_text_chunks_leaves_gaps :
  (exists chunks,
     create_text_chunks 10 uuid_of_index (str "a b") "doc" 1 0 = Some chunks
     /\ map span chunks = [(0, 1); (2, 3)]
     /\ ~ covers_text (clean_text (str "a b")) chunks)
  /\ (exists chunks,
        create_text_chunks 10 uuid_of_index
          (str "abcdefg. ijklmnopqrstuvwxyz") "doc" 10 0 = Some chunks
        /\ map span chunks = [(0, 8); (10, 20); (20, 27)]
        /\ ~ covers_text (clean_text (str "abcdefg. ijklmnopqrstuvwxyz")) chunks).
Proof.
  split.
  - eexists. split; [vm_compute; reflexivity|]. split; [reflexivity|].
    intros Hcov. not_covered Hcov 1.
  - eexists. split; [vm_compute; reflexivity|]. split; [reflexivity|].
    intros Hcov. not_covered Hcov 9.
Qed.

End ChunkProperties.

(** ** The retry policy of the client *)

Module OpenAIFacts.

Import Py OpenAIUtils.
Local Open Scope Z_scope.

(** The policy in the words of the specification: the waits after the
    failures [errs] of the attempts numbered from [attempt].  A rate-limit
    failure of attempt [i] waits [base_delay * 2^i]; any other failure waits
    [base_delay] before the next attempt, and there is none after the
    third. *)
Fixpoint policy_delays (attempt : Z) (errs : list exn) : list Z :=
  match errs with
  | [] => []
  | e :: rest =>
      match exn_class_of e with
      | RateLimitError => [1 * 2 ^ attempt]
      | APIError | OtherException => if attempt =? 2 then [] else [1]
      end ++ policy_delays (attempt + 1) rest
  end.

(** [errs] are the failures of the first attempts of a run that starts in
    world [w]. *)
Definition fails_with {A} (body : nat -> result A) (w : world)
    (errs : list exn) : Prop :=
  forall i e, errs !! i = Some e -> body (requests w + i)%nat = Raise e.

Definition after (w : world) (n : nat) (errs : list exn) : world :=
  {| requests := requests w + n; slept := slept w ++ policy_delays 0 errs |}.

(** A run obeys the policy: when fewer than three attempts fail and the
    next one succeeds with [a], the run goes on as [on_return a] after one
    request per attempt made; when three attempts fail, it goes on as
    [on_raise] of the third error after three requests; in both cases the
    waits are those of the policy. *)
Definition obeys_policy {A R} (body : nat -> result A)
    (run : world -> R * world)
    (on_return : A -> world -> R * world)
    (on_raise : exn -> world -> R * world) : Prop :=
  forall w errs,
    fails_with body w errs ->
    (forall a, (length errs < 3)%nat ->
               body (requests w + length errs)%nat = Return a ->
               run w = on_return a (after w (S (length errs)) errs))
    /\ (forall e, length errs = 3%nat -> last errs = Some e ->
                  run w = on_raise e (after w 3 errs)).

Lemma world_eq (w w' : world) :
  requests w = requests w' -> slept w = slept w' -> w = w'.
Proof. destruct w, w'. simpl. intros -> ->. reflexivity. Qed.

Lemma fails_with_tail {A} (body : nat -> result A) w e errs w' :
  fails_with body w (e :: errs) -> requests w' = S (requests w) ->
  fails_with body w' errs.
Proof.
  intros Hf Hw i e' Hi. rewrite Hw.
  replace (S (requests w) + i)%nat with (requests w + S i)%nat by lia.
  apply Hf. exact Hi.
Qed.

Section Loop.

Context {A : Type}.
Variable body : nat -> result A.

(** The attempts [n, n+1, ..., 2] of the loop of [init]. *)
Definition attempts_from (n : nat) : list Z := map Z.of_nat (seq n (3 - n)).

Lemma attempts_from_step (n : nat) :
  (n < 3)%nat -> attempts_from n = Z.of_nat n :: attempts_from (S n).
Proof.
  intros Hn. unfold attempts_from.
  replace (3 - n)%nat with (S (3 - S n)) by lia. reflexivity.
Qed.

Lemma retry_loop_success (errs : list exn) :
  forall n w a,
    (n + length errs < 3)%nat ->
    fails_with body w errs ->
    body (requests w + length errs)%nat = Return a ->
    retry_loop init body (attempts_from n) w
    = (Some (Return a),
       {| requests := requests w + S (length errs);
          slept := slept w ++ policy_delays (Z.of_nat n) errs |}).
Proof.
  induction errs as [|e errs IH]; intros n w a Hn Hf Ha.
  - rewrite attempts_from_step by lia. cbn [retry_loop].
    simpl in Ha. rewrite Nat.add_0_r in Ha. rewrite Ha.
    f_equal. apply world_eq; simpl; [lia | rewrite app_nil_r; reflexivity].
  - rewrite attempts_from_step by (simpl in Hn; lia). cbn [retry_loop].
    pose proof (Hf O e eq_refl) as He. rewrite Nat.add_0_r in He.
    rewrite He. simpl in Hn.
    assert (Hne : (Z.of_nat n =? max_retries init - 1) = false).
    { apply Z.eqb_neq. simpl. lia. }
    rewrite Hne. cbn [policy_delays].
    replace (Z.of_nat n =? 2) with false by (symmetry; apply Z.eqb_neq; lia).
    replace (Z.of_nat n + 1) with (Z.of_nat (S n)) by lia.
    destruct (exn_class_of e);
      (rewrite (IH (S n) _ a);
       [ f_equal; apply world_eq; simpl;
         [lia | rewrite <- app_assoc; reflexivity]
       | lia
       | eapply fails_with_tail; [exact Hf | reflexivity]
       | simpl; rewrite <- Ha; f_equal; simpl; lia ]).
Qed.

Lemma retry_loop_exhausted (errs : list exn) :
  forall n w e,
    (n + length errs = 3)%nat -> (n < 3)%nat ->
    fails_with body w errs ->
    last errs = Some e ->
    retry_loop init body (attempts_from n) w
    = (Some (Raise e),
       {| requests := requests w + length errs;
          slept := slept w ++ policy_delays (Z.of_nat n) errs |}).
Proof.
  induction errs as [|e0 errs IH]; intros n w e Hn Hlt Hf Hl;
    [discriminate|].
  rewrite attempts_from_step by lia. cbn [retry_loop].
  pose proof (Hf O e0 eq_refl) as He. rewrite Nat.add_0_r in He.
  rewrite He. simpl in Hn. cbn [policy_delays].
  destruct errs as [|e1 errs].
  - (* the third attempt *)
    simpl in Hl. injection Hl as ->. assert (n = 2%nat) as -> by (simpl in Hn; lia).
    simpl. destruct (exn_class_of e); f_equal; apply world_eq; simpl;
      try lia; try reflexivity; rewrite ?app_nil_r; reflexivity.
  - assert (Hne : (Z.of_nat n =? max_retries init - 1) = false).
    { apply Z.eqb_neq. simpl in *. lia. }
    rewrite Hne.
    replace (Z.of_nat n =? 2) with false
      by (symmetry; apply Z.eqb_neq; simpl in *; lia).
    replace (Z.of_nat n + 1) with (Z.of_nat (S n)) by lia.
    destruct (exn_class_of e0);
      (rewrite (IH (S n) _ e);
       [ f_equal; apply world_eq; simpl;
         [lia | rewrite <- app_assoc; reflexivity]
       | simpl in *; lia
       | simpl in *; lia
       | eapply fails_with_tail; [exact Hf | reflexivity]
       | exact Hl ]).
Qed.

Lemma range_max_retries : range (max_retries init) = attempts_from 0.
Proof. reflexivity. Qed.

Lemma retry_loop_obeys :
  obeys_policy body (retry_loop init body (range (max_retries init)))
    (fun a w => (Some (Return a), w)) (fun e w => (Some (Raise e), w)).
Proof.
  intros w errs Hf. rewrite range_max_retries. split.
  - intros a Hlen Ha. apply retry_loop_success; assumption.
  - intros e Hlen Hl. rewrite (retry_loop_exhausted errs 0 w e);
      [unfold after; rewrite Hlen; reflexivity | lia | lia | exact Hf | exact Hl].
Qed.

(** A run never sends more than three requests. *)
Lemma retry_loop_requests (attempts : list Z) :
  forall w,
    (requests (snd (retry_loop init body attempts w))
     <= requests w + length attempts)%nat.
Proof.
  induction attempts as [|k rest IH]; intros w; cbn [retry_loop].
  - simpl. lia.
  - destruct (body (requests w)) as [a|e]; [simpl; lia|].
    destruct (exn_class_of e); destruct (k =? max_retries init - 1);
      try (simpl; lia);
      (etransitivity; [apply IH|]; simpl; lia).
Qed.

(** Every run has its failing prefix: the cases of [obeys_policy] leave no
    run out. *)
Lemma failing_prefix (w : world) :
  exists errs,
    fails_with body w errs
    /\ ((length errs = 3)%nat /\ is_Some (last errs)
        \/ (length errs < 3)%nat
           /\ exists a, body (requests w + length errs)%nat = Return a).
Proof.
  destruct (body (requests w + 0)%nat) as [a0|e0] eqn:H0.
  { exists []. split; [intros i e Hi; destruct i; discriminate|].
    right. split; [simpl; lia | exists a0; exact H0]. }
  destruct (body (requests w + 1)%nat) as [a1|e1] eqn:H1.
  { exists [e0]. split.
    - intros [|[|i]] e Hi; try discriminate. injection Hi as <-. exact H0.
    - right. split; [simpl; lia | exists a1; exact H1]. }
  destruct (body (requests w + 2)%nat) as [a2|e2] eqn:H2.
  { exists [e0; e1]. split.
    - intros [|[|[|i]]] e Hi; try discriminate; injection Hi as <-; assumption.
    - right. split; [simpl; lia | exists a2; exact H2]. }
  exists [e0; e1; e2]. split.
  - intros [|[|[|[|i]]]] e Hi; try discriminate; injection Hi as <-; assumption.
  - left. split; [reflexivity | exists e2; reflexivity].
Qed.

End Loop.

(** The bound of the specification: a call sends at most three
    requests. *)
Definition at_most_three_attempts {R} (run : world -> R * world) : Prop :=
  forall w, (requests (snd (run w)) <= requests w + 3)%nat.

(** The sub-batches of a call of [get_embeddings_batch]. *)
Definition sub_batches (texts : list string) : nat :=
  length (range_step (len texts) batch_size).

Lemma batch_loop_bound {V : Type}
    (embeddings_create_batch : list string -> string -> nat -> result (list V))
    (texts : list string) (model : string) (starts : list Z) :
  forall all_embeddings w,
    (requests (snd (batch_loop init embeddings_create_batch texts model
                      starts all_embeddings w))
     <= requests w + 3 * length starts)%nat.
Proof.
  induction starts as [|i rest IH]; intros all_embeddings w;
    cbn [batch_loop]; [simpl; lia|].
  pose proof (retry_loop_requests
                (embeddings_create_batch (slice texts i (i + batch_size)) model)
                (range (max_retries init)) w) as Hr.
  destruct (retry_loop _ _ _ w) as [[[vs|e]|] w']; cbn [snd] in Hr.
  - etransitivity; [apply IH|]. simpl in *. lia.
  - simpl in *. lia.
  - etransitivity; [apply IH|]. simpl in *. lia.
Qed.

Lemma single_sub_batch (texts : list string) :
  0 < len texts <= batch_size ->
  range_step (len texts) batch_size = [0]
  /\ slice texts 0 (0 + batch_size) = texts.
Proof.
  intros Hlen. unfold range_step, batch_size in *. split.
  - replace ((len texts + 100 - 1) / 100) with 1; [reflexivity|].
    apply Z.div_unique with (r := len texts - 1); lia.
  - unfold slice, slice_index, len in *. simpl.
    rewrite (Z.min_l 0) by lia. rewrite Z.min_r by lia.
    rewrite Z.sub_0_r, Nat2Z.id. change (Z.to_nat 0) with 0%nat.
    rewrite drop_0. apply firstn_all.
Qed.

(** C5, as the code has it.  [get_embedding], [chat_completion] and every
    sub-batch of at most 100 texts that [get_embeddings_batch] sends obey
    the retry policy: at most three attempts; a rate-limit failure of
    attempt [i] waits [base_delay * 2^i] with [base_delay = 1], any other
    failure waits [base_delay] before the next attempt; when the third
    attempt fails its error is raised to the caller, and no value is
    returned.  [get_embeddings_batch] is the loop over its sub-batches: a
    call on at most 100 texts obeys the policy as a whole, and a call on
    more texts sends at most three requests for each sub-batch. *)
Theorem operations_obey_policy {V U T : Type}
    (embeddings_create : string -> string -> nat -> result V)
    (embeddings_create_batch : list string -> string -> nat -> result (list V))
    (chat_completions_create :
       string -> list (string * string) -> T -> Z -> nat
       -> result (option string * U))
    (text model : string) (texts : list string)
    (messages : list (string * string)) (temperature : T) (max_tokens : Z)
    (i : Z) (rest : list Z) (all_embeddings : list V) :
  obeys_policy (embeddings_create text model)
    (get_embedding init embeddings_create text model)
    (fun v w => (Return (Some v), w)) (fun e w => (Raise e, w))
  /\ obeys_policy
       (embeddings_create_batch (slice texts i (i + batch_size)) model)
       (batch_loop init embeddings_create_batch texts model (i :: rest)
          all_embeddings)
       (fun vs w =>
          batch_loop init embeddings_create_batch texts model rest
            (all_embeddings ++ vs) w)
       (fun e w => (Raise e, w))
  /\ obeys_policy
       (chat_completions_create model messages temperature max_tokens)
       (chat_completion init chat_completions_create messages model
          temperature max_tokens)
       (fun r w => (Return (Some r), w)) (fun e w => (Raise e, w))
  /\ (forall w,
        (requests (snd (get_embedding init embeddings_create text model w))
         <= requests w + 3)%nat
        /\ (requests (snd (chat_completion init chat_completions_create
                             messages model temperature max_tokens w))
            <= requests w + 3)%nat
        /\ (requests
              (snd (retry_loop init
                      (embeddings_create_batch
                         (slice texts i (i + batch_size)) model)
                      (range (max_retries init)) w))
            <= requests w + 3)%nat)
  /\ (forall w,
        get_embeddings_batch init embeddings_create_batch texts model w
        = batch_loop init embeddings_create_batch texts model
            (range_step (len texts) batch_size) [] w
        /\ (requests (snd (get_embeddings_batch init embeddings_create_batch
                             texts model w))
            <= requests w + 3 * sub_batches texts)%nat)
  /\ (0 < len texts <= batch_size ->
      obeys_policy (embeddings_create_batch texts model)
        (get_embeddings_batch init embeddings_create_batch texts model)
        (fun vs w => (Return vs, w)) (fun e w => (Raise e, w))
      /\ at_most_three_attempts
           (get_embeddings_batch init embeddings_create_batch texts model)).
Proof.
  split; [|split; [|split; [|split; [|split]]]].
  - intros w errs Hf.
    destruct (retry_loop_obeys (embeddings_create text model) w errs Hf)
      as [Hok Hex].
    unfold get_embedding. split.
    + intros a Hlen Ha. rewrite (Hok a Hlen Ha). reflexivity.
    + intros e Hlen Hl. rewrite (Hex e Hlen Hl). reflexivity.
  - intros w errs Hf.
    destruct (retry_loop_obeys
                (embeddings_create_batch (slice texts i (i + batch_size)) model)
                w errs Hf) as [Hok Hex].
    cbn [batch_loop]. split.
    + intros a Hlen Ha. rewrite (Hok a Hlen Ha). reflexivity.
    + intros e Hlen Hl. rewrite (Hex e Hlen Hl). reflexivity.
  - intros w errs Hf.
    destruct (retry_loop_obeys
                (chat_completions_create model messages temperature max_tokens)
                w errs Hf) as [Hok Hex].
    unfold chat_completion. split.
    + intros a Hlen Ha. rewrite (Hok a Hlen Ha). reflexivity.
    + intros e Hlen Hl. rewrite (Hex e Hlen Hl). reflexivity.
  - intros w. split; [|split].
    + unfold get_embedding.
      pose proof (retry_loop_requests (embeddings_create text model)
                    (range (max_retries init)) w) as Hr.
      destruct (retry_loop _ _ _ w) as [[[v|e]|] w']; simpl in *; lia.
    + unfold chat_completion.
      pose proof (retry_loop_requests
                    (chat_completions_create model messages temperature
                       max_tokens)
                    (range (max_retries init)) w) as Hr.
      destruct (retry_loop _ _ _ w) as [[[v|e]|] w']; simpl in *; lia.
    + apply (retry_loop_requests _ (range (max_retries init)) w).
  - intros w. split; [reflexivity|].
    unfold get_embeddings_batch, sub_batches. apply batch_loop_bound.
  - intros Hlen. destruct (single_sub_batch texts Hlen) as [Hstarts Hslice].
    assert (Hrun : forall w,
              get_embeddings_batch init embeddings_create_batch texts model w
              = match retry_loop init (embeddings_create_batch texts model)
                        (range (max_retries init)) w with
                | (Some (Return vs), w) => (Return vs, w)
                | (Some (Raise e), w) => (Raise e, w)
                | (None, w) => (Return [], w)
                end).
    { intros w. unfold get_embeddings_batch. rewrite Hstarts.
      cbn [batch_loop]. rewrite Hslice.
      destruct (retry_loop _ _ _ w) as [[[vs|e]|] w']; reflexivity. }
    split.
    + intros w errs Hf.
      destruct (retry_loop_obeys (embeddings_create_batch texts model)
                  w errs Hf) as [Hok Hex].
      rewrite Hrun. split.
      * intros a Hl Ha. rewrite (Hok a Hl Ha). reflexivity.
      * intros e Hl Hla. rewrite (Hex e Hl Hla). reflexivity.
    + intros w. rewrite Hrun.
      pose proof (retry_loop_requests (embeddings_create_batch texts model)
                    (range (max_retries init)) w) as Hr.
      destruct (retry_loop _ _ _ w) as [[[vs|e]|] w']; simpl in *; lia.
Qed.

(** A provider that answers the third, the sixth, ... request and fails
    on the others. *)
Definition every_third (batch : list string) (model : string) (n : nat)
    : result (list Z) :=
  if (n mod 3 =? 2)%nat then Return (map (fun _ => 1) batch)
  else Raise (mkExn APIError "server error").

(** C5 fails for [get_embeddings_batch] as a whole: on 101 texts, with two
    failures for each of the two sub-batches, one call sends six requests
    and returns the embeddings. *)
Lemma batch_call_sends_six_requests :
  get_embeddings_batch init every_third (replicate 101 "t"%string) "model"
    {| requests := 0; slept := [] |}
  = (Return (replicate 101 1), {| requests := 6; slept := [1; 1; 1; 1] |})
  /\ ~ at_most_three_attempts
         (get_embeddings_batch init every_third (replicate 101 "t"%string)
            "model").
Proof.
  assert (Hrun : get_embeddings_batch init every_third
                   (replicate 101 "t"%string) "model"
                   {| requests := 0; slept := [] |}
                 = (Return (replicate 101 1),
                    {| requests := 6; slept := [1; 1; 1; 1] |}))
    by (vm_compute; reflexivity).
  split; [exact Hrun|].
  intros Hspec. specialize (Hspec {| requests := 0; slept := [] |}).
  rewrite Hrun in Hspec. simpl in Hspec. lia.
Qed.

(** Three rate-limit failures in a row: waits of 1, 2 and 4 seconds, then
    the third error reaches the caller. *)
Definition rate_limited (n : nat) : exn :=
  mkExn RateLimitError "rate limit".

Example chat_completion_rate_limited :
  chat_completion (U := unit) init
    (fun _ _ _ _ n => Raise (rate_limited n)) [] "gpt-3.5-turbo" 7 1000
    {| requests := 0; slept := [] |}
  = (Raise (rate_limited 2), {| requests := 3; slept := [1; 2; 4] |}).
Proof. reflexivity. Qed.

(** An error of another class on the first attempt, then a success. *)
Example get_embedding_second_attempt :
  get_embedding init
    (fun _ _ n => if (n =? 0)%nat then Raise (mkExn APIError "server error")
                  else Return [1; 2])
    "text" "text-embedding-ada-002" {| requests := 0; slept := [] |}
  = (Return (Some [1; 2]), {| requests := 2; slept := [1] |}).
Proof. reflexivity. Qed.

End OpenAIFacts.

(** ** The vector index *)

Module VectorFacts.

Import Py VectorService.
Local Open Scope Z_scope.

Section WithFloats.

Context `{Floats}.

(** Hits and results in descending order of score. *)
Definition hit_ge (a b : F * Z) : Prop := f_ge (fst a) (fst b) = true.

Definition score_ge (a b : SearchResult) : Prop :=
  f_ge (relevance_score a) (relevance_score b) = true.

Definition descending (rs : list SearchResult) : Prop :=
  StronglySorted score_ge rs.

(** [>=] on floats is transitive, NaN included: a comparison with NaN is
    false. *)
Definition ge_transitive : Prop :=
  forall a b c : F, f_ge a b = true -> f_ge b c = true -> f_ge a c = true.

(** The query as [search] hands it to the index: taken to single
    precision, then divided by its norm when that is positive. *)
Definition query_vector (query_embedding : list F) : list F :=
  let query_vector := map float32 query_embedding in
  let norm' := norm query_vector in
  if f_gt norm' f_zero then map (fun x => f_div x norm') query_vector
  else query_vector.

(** No score of the search is NaN: the inner products of the query with
    any two stored vectors can be compared. *)
Definition scores_comparable (self : VectorService)
    (query_embedding : list F) : Prop :=
  forall a b,
    a ∈ vectors self -> b ∈ vectors self ->
    f_ge (inner (query_vector query_embedding) a)
         (inner (query_vector query_embedding) b) = true
    \/ f_ge (inner (query_vector query_embedding) b)
            (inner (query_vector query_embedding) a) = true.

(** The threshold as the specification words it: every result has a score
    of at least [relevance_threshold]. *)
Definition at_least_threshold (query' : SearchQuery) (r : SearchResponse)
    : Prop :=
  Forall (fun x => f_ge (relevance_score x) (relevance_threshold query') = true)
         (results r).

Lemma insert_hit_elem (h x : F * Z) (l : list (F * Z)) :
  x ∈ insert_hit h l -> x = h \/ x ∈ l.
Proof.
  induction l as [|h' r IH]; simpl.
  - intros Hx. apply list_elem_of_singleton in Hx. left. exact Hx.
  - destruct (f_ge (fst h) (fst h')).
    + intros Hx. apply elem_of_cons in Hx as [-> | Hx]; [left; reflexivity | right; exact Hx].
    + intros Hx. apply elem_of_cons in Hx as [-> | Hx].
      * right. left.
      * destruct (IH Hx) as [-> | Hin]; [left; reflexivity | right; right; exact Hin].
Qed.

Lemma insert_hit_length (h : F * Z) (l : list (F * Z)) :
  length (insert_hit h l) = S (length l).
Proof.
  induction l as [|h' r IH]; simpl; [reflexivity|].
  destruct (f_ge (fst h) (fst h')); simpl; [reflexivity | rewrite IH; reflexivity].
Qed.

Lemma sort_hits_length (l : list (F * Z)) : length (sort_hits l) = length l.
Proof.
  induction l as [|h r IH]; simpl; [reflexivity|].
  rewrite insert_hit_length, IH. reflexivity.
Qed.

Lemma sort_hits_from (x : F * Z) (l : list (F * Z)) :
  x ∈ sort_hits l -> x ∈ l.
Proof.
  induction l as [|h r IH]; simpl; [intros Hx; exact Hx|].
  intros Hx. apply insert_hit_elem in Hx as [-> | Hx];
    [left | right; apply IH, Hx].
Qed.

(** Two hits whose scores can be compared. *)
Definition comparable (a b : F * Z) : Prop :=
  f_ge (fst a) (fst b) = true \/ f_ge (fst b) (fst a) = true.

Lemma insert_hit_sorted (h : F * Z) (l : list (F * Z)) :
  ge_transitive ->
  (forall x, x ∈ l -> comparable h x) ->
  StronglySorted hit_ge l -> StronglySorted hit_ge (insert_hit h l).
Proof.
  intros Htrans. induction l as [|h' r IH]; intros Hcmp Hs; simpl.
  - repeat constructor.
  - apply StronglySorted_inv in Hs as [Hr Hall].
    destruct (f_ge (fst h) (fst h')) eqn:Hge.
    + constructor; [constructor; assumption|].
      constructor; [exact Hge|].
      eapply Forall_impl; [exact Hall|]. intros x Hx.
      unfold hit_ge in *. eapply Htrans; eassumption.
    + constructor.
      * apply IH; [|exact Hr]. intros x Hx. apply Hcmp. right. exact Hx.
      * apply Forall_forall. intros x Hx.
        apply insert_hit_elem in Hx as [-> | Hx].
        -- unfold hit_ge.
           destruct (Hcmp h' ltac:(left)) as [Hno|Hok];
             [congruence | exact Hok].
        -- rewrite Forall_forall in Hall. apply Hall. exact Hx.
Qed.

Lemma sort_hits_sorted (l : list (F * Z)) :
  ge_transitive ->
  (forall a b, a ∈ l -> b ∈ l -> comparable a b) ->
  StronglySorted hit_ge (sort_hits l).
Proof.
  intros Htrans. induction l as [|h r IH]; intros Hcmp; simpl.
  - constructor.
  - apply insert_hit_sorted; [exact Htrans | |].
    + intros x Hx. apply Hcmp; [left | right; apply sort_hits_from, Hx].
    + apply IH. intros a b Ha Hb. apply Hcmp; right; assumption.
Qed.

Lemma take_sorted {A} (R : A -> A -> Prop) (n : nat) (l : list A) :
  StronglySorted R l -> StronglySorted R (take n l).
Proof.
  revert n. induction l as [|x r IH]; intros n Hs.
  - destruct n; constructor.
  - destruct n as [|n]; [constructor|]. simpl.
    apply StronglySorted_inv in Hs as [Hr Hall].
    constructor; [apply IH; exact Hr|].
    apply Forall_forall. intros y Hy. rewrite Forall_forall in Hall.
    apply Hall. apply elem_of_take in Hy as (i & Hi & _).
    apply list_elem_of_lookup_2 in Hi. exact Hi.
Qed.

(** What [index_search] returns when it is asked for no more hits than the
    index has rows: that many hits, in descending order when the scores
    can be compared. *)
Lemma index_search_hits (ix : IndexFlatIP) (q : list F) (k : Z)
    (hits : list (F * Z)) :
  k <= ntotal ix ->
  index_search ix q k = Return hits ->
  len hits = k
  /\ (ge_transitive ->
      (forall a b, a ∈ xb ix -> b ∈ xb ix ->
                   f_ge (inner q a) (inner q b) = true
                   \/ f_ge (inner q b) (inner q a) = true) ->
      StronglySorted hit_ge hits).
Proof.
  intros Hk. unfold index_search.
  destruct (negb (len q =? d ix)); [discriminate|].
  rewrite Z.gtb_ltb. destruct (Z.ltb_spec 0 k) as [Hpos|]; [|discriminate].
  simpl. intros [= <-].
  set (scored := imap (fun i row => (inner q row, Z.of_nat i)) (xb ix)).
  assert (Hlen : length (take (Z.to_nat k) (sort_hits scored)) = Z.to_nat k).
  { apply length_take_le. rewrite sort_hits_length. unfold scored.
    rewrite length_imap. unfold ntotal, len in Hk. lia. }
  rewrite Hlen, Nat.sub_diag. simpl. rewrite app_nil_r. split.
  - unfold len. rewrite Hlen. lia.
  - intros Htrans Hcmp. apply take_sorted. apply sort_hits_sorted;
      [exact Htrans|].
    assert (Hrow : forall x, x ∈ scored ->
              exists row, row ∈ xb ix /\ fst x = inner q row).
    { intros x Hx. unfold scored in Hx.
      apply elem_of_lookup_imap in Hx as (i & row & -> & Hi).
      exists row. split; [eapply list_elem_of_lookup_2, Hi | reflexivity]. }
    intros a b Ha Hb.
    destruct (Hrow a Ha) as (ra & Hra & Ea).
    destruct (Hrow b Hb) as (rb & Hrb & Eb).
    unfold comparable. rewrite Ea, Eb. apply Hcmp; assumption.
Qed.

Lemma build_results_elem (self : VectorService) (query' : SearchQuery)
    (hits : list (F * Z)) (r : SearchResult) :
  r ∈ build_results self query' hits ->
  score_passes (relevance_score r) (relevance_threshold query') = true
  /\ exists idx, (relevance_score r, idx) ∈ hits.
Proof.
  induction hits as [|[score idx] rest IH]; simpl.
  - intros Hr. inversion Hr.
  - assert (Hmore : r ∈ build_results self query' rest ->
              score_passes (relevance_score r) (relevance_threshold query')
              = true
              /\ exists idx0, (relevance_score r, idx0) ∈ (score, idx) :: rest).
    { intros Hr. destruct (IH Hr) as [Hge [i Hi]]. split; [exact Hge|].
      exists i. right. exact Hi. }
    destruct (idx =? -1); [exact Hmore|].
    destruct (score_passes score (relevance_threshold query')) eqn:Hge;
      [|exact Hmore].
    destruct (chunk_metadata self !! idx) as [c|]; [|exact Hmore].
    intros Hr. apply elem_of_cons in Hr as [-> | Hr]; [|exact (Hmore Hr)].
    simpl. split; [exact Hge|]. exists idx. left.
Qed.

Lemma build_results_length (self : VectorService) (query' : SearchQuery)
    (hits : list (F * Z)) :
  (length (build_results self query' hits) <= length hits)%nat.
Proof.
  induction hits as [|[score idx] rest IH]; simpl; [lia|].
  destruct (idx =? -1); [lia|].
  destruct (score_passes score (relevance_threshold query')); [|lia].
  destruct (chunk_metadata self !! idx); simpl; lia.
Qed.

Lemma build_results_sorted (self : VectorService) (query' : SearchQuery)
    (hits : list (F * Z)) :
  StronglySorted hit_ge hits ->
  descending (build_results self query' hits).
Proof.
  unfold descending.
  induction hits as [|[score idx] rest IH]; intros Hs; simpl.
  - constructor.
  - apply StronglySorted_inv in Hs as [Hr Hall].
    specialize (IH Hr).
    destruct (idx =? -1); [exact IH|].
    destruct (score_passes score (relevance_threshold query')); [|exact IH].
    destruct (chunk_metadata self !! idx) as [c|]; [|exact IH].
    constructor; [exact IH|].
    apply Forall_forall. intros r Hr'.
    apply build_results_elem in Hr' as [_ [i Hi]].
    rewrite Forall_forall in Hall. apply (Hall _ Hi).
Qed.

(** The goal of [search_results] for a response without results. *)
Ltac no_results :=
  eexists; split; [reflexivity|]; simpl;
  split; [intros; unfold len; simpl; lia|];
  split; [reflexivity|];
  split; [intros; constructor|];
  split; [constructor|];
  first [ intros _; split; reflexivity
        | intros Hv; exfalso; eauto ].


(** *** [add_embeddings] *)

(** A chunk whose vector is added: it has an embedding with [norm > 0]. *)
Definition usable (embeddings : gmap string (list F)) (c : DocumentChunk)
    : bool :=
  match embeddings !! id c with
  | Some embedding => f_gt (norm embedding) f_zero
  | None => false
  end.

Lemma valid_embeddings_chunks chunks (embeddings : gmap string (list F)) :
  snd (valid_embeddings chunks embeddings)
  = List.filter (usable embeddings) chunks.
Proof.
  induction chunks as [|c rest IH]; simpl; [reflexivity|].
  destruct (valid_embeddings rest embeddings) as [vs cs] eqn:Hv.
  simpl in IH. unfold usable at 1.
  destruct (embeddings !! id c) as [e|]; [|exact IH].
  destruct (f_gt (norm e) f_zero); simpl; [f_equal|]; exact IH.
Qed.

Lemma valid_embeddings_lengths chunks (embeddings : gmap string (list F)) :
  length (fst (valid_embeddings chunks embeddings))
  = length (snd (valid_embeddings chunks embeddings)).
Proof.
  induction chunks as [|c rest IH]; simpl; [reflexivity|].
  destruct (valid_embeddings rest embeddings) as [vs cs] eqn:Hv.
  simpl in IH.
  destruct (embeddings !! id c) as [e|]; [|exact IH].
  destruct (f_gt (norm e) f_zero); simpl; [f_equal|]; exact IH.
Qed.

Lemma valid_embeddings_filter chunks (embeddings : gmap string (list F)) :
  valid_embeddings (List.filter (usable embeddings) chunks) embeddings
  = valid_embeddings chunks embeddings.
Proof.
  induction chunks as [|c rest IH]; simpl; [reflexivity|].
  destruct (usable embeddings c) eqn:Hu.
  - simpl. rewrite IH. reflexivity.
  - rewrite IH. destruct (valid_embeddings rest embeddings) as [vs cs].
    unfold usable in Hu. destruct (embeddings !! id c) as [e|]; [|reflexivity].
    rewrite Hu. reflexivity.
Qed.

Lemma store_metadata_index self start cs name :
  index (store_metadata self start cs name) = index self.
Proof.
  revert self start. induction cs as [|c rest IH]; intros self start; simpl;
    [reflexivity|]. rewrite IH. reflexivity.
Qed.

Lemma store_metadata_below self start cs name (k : Z) :
  k < start ->
  chunk_metadata (store_metadata self start cs name) !! k
  = chunk_metadata self !! k.
Proof.
  revert self start. induction cs as [|c rest IH]; intros self start Hk; simpl;
    [reflexivity|].
  rewrite IH by lia. simpl. apply lookup_insert_ne. lia.
Qed.

Lemma store_metadata_lookup self start cs name (i : nat) (c : DocumentChunk) :
  cs !! i = Some c ->
  chunk_metadata (store_metadata self start cs name) !! (start + Z.of_nat i)
  = Some c.
Proof.
  revert self start i. induction cs as [|c0 rest IH]; intros self start i Hi;
    [destruct i; discriminate|].
  simpl. destruct i as [|i]; simpl in Hi.
  - injection Hi as ->. rewrite store_metadata_below by lia. simpl.
    replace (start + Z.of_nat 0) with start by lia. apply lookup_insert_eq.
  - replace (start + Z.of_nat (S i)) with (start + 1 + Z.of_nat i) by lia.
    apply IH. exact Hi.
Qed.

Lemma np_matrix_rows rows ncols (m : list (list F)) :
  np_matrix rows = Return (ncols, m) -> length m = length rows.
Proof.
  unfold np_matrix. destruct rows as [|r rest]; [intros [= _ <-]; reflexivity|].
  destruct (forallb _ _); [|discriminate].
  intros [= _ Hm]. subst m. simpl. f_equal. apply length_map.
Qed.

(** C6.  A chunk with no embedding in the map, or with an embedding of
    norm zero, is not usable, and a call of [add_embeddings] is the call
    without the chunks that are not usable: they are passed over one by one.
    The call returns false exactly when it adds no vector; when it returns
    true it has added one vector for each usable chunk, of which there is at
    least one, and the new slots hold these chunks in order. *)
Theorem add_embeddings_skips_and_reports (self : VectorService)
    (chunks : list DocumentChunk) (embeddings : gmap string (list F))
    (name : string) :
  f_gt f_zero f_zero = false ->
  (forall c,
      embeddings !! id c = None
      \/ (exists e, embeddings !! id c = Some e /\ norm e = f_zero) ->
      usable embeddings c = false)
  /\ add_embeddings self chunks embeddings name
     = add_embeddings self (List.filter (usable embeddings) chunks)
         embeddings name
  /\ exists b self',
       add_embeddings self chunks embeddings name = (Return b, self')
       /\ (b = false <-> len (vectors self') = len (vectors self))
       /\ (b = false -> self' = self)
       /\ (b = true ->
           let kept := List.filter (usable embeddings) chunks in
           kept <> []
           /\ len (vectors self') = len (vectors self) + len kept
           /\ forall i c, kept !! i = Some c ->
                chunk_metadata self' !! (len (vectors self) + Z.of_nat i)
                = Some c).
Proof.
  intros Hzero. split; [|split].
  - intros c [Hnone | (e & He & Hn)]; unfold usable.
    + rewrite Hnone. reflexivity.
    + rewrite He, Hn. exact Hzero.
  - unfold add_embeddings, add_embeddings_body.
    rewrite valid_embeddings_filter.
    pose proof (valid_embeddings_chunks chunks embeddings) as Hcs.
    pose proof (valid_embeddings_lengths chunks embeddings) as Hlen.
    destruct (valid_embeddings chunks embeddings) as [vs cs]. simpl in Hcs, Hlen.
    destruct (size embeddings =? 0)%nat; [rewrite !orb_true_r; reflexivity|].
    rewrite !orb_false_r.
    destruct chunks as [|c0 rest]; [reflexivity|].
    destruct (List.filter (usable embeddings) (c0 :: rest)) as [|k0 krest] eqn:Hk.
    + subst cs. destruct vs; [reflexivity | discriminate].
    + reflexivity.
  - unfold add_embeddings, add_embeddings_body.
    pose proof (valid_embeddings_chunks chunks embeddings) as Hcs.
    pose proof (valid_embeddings_lengths chunks embeddings) as Hlen.
    destruct (valid_embeddings chunks embeddings) as [vs cs]. simpl in Hcs, Hlen.
    assert (Hfalse : exists b self',
              (@Return bool false, self) = (Return b, self')
              /\ (b = false <-> len (vectors self') = len (vectors self))
              /\ (b = false -> self' = self)
              /\ (b = true ->
                  let kept := List.filter (usable embeddings) chunks in
                  kept <> []
                  /\ len (vectors self') = len (vectors self) + len kept
                  /\ forall i c, kept !! i = Some c ->
                       chunk_metadata self' !! (len (vectors self) + Z.of_nat i)
                       = Some c)).
    { exists false, self. split; [reflexivity|]. split; [tauto|].
      split; [reflexivity | discriminate]. }
    destruct (negb (truthy chunks) || (size embeddings =? 0)%nat);
      [exact Hfalse|].
    destruct vs as [|v vs']; [exact Hfalse|]. cbn [truthy negb].
    destruct (np_matrix (v :: vs')) as [[ncols m]|e] eqn:Hm; [|exact Hfalse].
    pose proof (np_matrix_rows _ _ _ Hm) as Hrows.
    assert (Hne : List.filter (usable embeddings) chunks <> []).
    { rewrite <- Hcs. destruct cs; [discriminate | discriminate]. }
    assert (Hmlen : len m = len (List.filter (usable embeddings) chunks)).
    { unfold len. rewrite Hrows, Hlen, Hcs. reflexivity. }
    assert (Hdone : forall st' : VectorService,
              len (vectors st')
              = len (vectors self) + len (List.filter (usable embeddings) chunks) ->
              (forall i c, cs !! i = Some c ->
                 chunk_metadata st' !! (len (vectors self) + Z.of_nat i) = Some c) ->
              (true = false <-> len (vectors st') = len (vectors self))
              /\ (true = false -> st' = self)
              /\ (true = true ->
                  let kept := List.filter (usable embeddings) chunks in
                  kept <> []
                  /\ len (vectors st') = len (vectors self) + len kept
                  /\ forall i c, kept !! i = Some c ->
                       chunk_metadata st' !! (len (vectors self) + Z.of_nat i)
                       = Some c)).
    { intros st' Hv Hmeta. split; [|split].
      - split; [discriminate|]. intros Heq. exfalso. rewrite Hv in Heq.
        destruct (List.filter (usable embeddings) chunks);
          [congruence | unfold len in Heq; simpl in Heq; lia].
      - discriminate.
      - intros _. split; [exact Hne|]. split; [exact Hv|].
        intros i c Hi. apply Hmeta. rewrite Hcs. exact Hi. }
    destruct (index self) as [ix|] eqn:Hix.
    + rewrite Hix. unfold index_add.
      destruct (ncols =? d ix); [|exact Hfalse].
      eexists true, _. split; [reflexivity|]. apply Hdone.
      * unfold vectors. rewrite store_metadata_index, Hix.
        unfold len in *. simpl. rewrite length_app. lia.
      * intros i c Hi. unfold vectors. rewrite Hix.
        apply store_metadata_lookup. exact Hi.
    + unfold create_index, index_add.
      cbn [index d chunk_metadata document_names]. rewrite Z.eqb_refl.
      eexists true, _. split; [reflexivity|]. apply Hdone.
      * unfold vectors. rewrite store_metadata_index, Hix.
        unfold len in *. simpl. lia.
      * intros i c Hi. unfold vectors. rewrite Hix.
        apply store_metadata_lookup. exact Hi.
Qed.

(** *** [load_index] *)

Definition missing (dk : disk) : Prop :=
  index_file dk = None \/ metadata_file dk = None.

Definition unreadable (dk : disk) : Prop :=
  index_file dk = Some None \/ metadata_file dk = Some None.

Definition empty (self : VectorService) : Prop :=
  vectors self = [] /\ chunk_metadata self = ∅.

(** C7 as the specification words it: from every state, a load from a missing or
    unreadable store returns false and leaves no vector and no chunk. *)
Definition failed_load_leaves_empty (dk : disk) (self : VectorService)
    : Prop :=
  missing dk \/ unreadable dk ->
  fst (load_index dk self) = Return false
  /\ empty (snd (load_index dk self)).

(** C7, as the code has it.  [load_index] never raises, and returns false
    exactly when a file is missing or unreadable.  When a file is missing or
    the index file is unreadable, the service is left as it was, so it is
    empty when it was empty, as it is when [__init__] makes the call. *)
Theorem load_index_failure (dk : disk) (self : VectorService) :
  (exists b, fst (load_index dk self) = Return b)
  /\ (fst (load_index dk self) = Return false <-> missing dk \/ unreadable dk)
  /\ (missing dk \/ index_file dk = Some None ->
      snd (load_index dk self) = self
      /\ (empty self -> empty (snd (load_index dk self)))).
Proof.
  unfold load_index, missing, unreadable.
  destruct (index_file dk) as [[ix|]|]; destruct (metadata_file dk) as [[m|]|];
    simpl; (split; [eexists; reflexivity|]); (split; [split|]);
    try (intros [[?|?]|[?|?]]; congruence);
    try (intros [[?|?]|?]; congruence);
    try (intros _; split; [reflexivity | tauto]);
    try (intros _; tauto);
    try discriminate.
Qed.

End WithFloats.

End VectorFacts.

(** ** A model of the float interface

    Fixed-point numbers with three decimals, as integers: enough to run the
    definitions on examples. *)

Definition fixed_point : Floats := {|
  F := Z;
  f_zero := 0%Z;
  f_tenth := 100%Z;
  f_gt := Z.gtb;
  f_ge := Z.geb;
  f_sub := Z.sub;
  f_div := fun x y => (x * 1000 / y)%Z;
  float32 := fun x => x;
  norm := fun v => Z.sqrt (fold_right (fun x acc => x * x + acc)%Z 0%Z v);
  inner := fun a b => (fold_right Z.add 0 (zip_with Z.mul a b) / 1000)%Z;
  f_lowest := (-1000000000)%Z;
  format_3f := fun _ => "0.000"%string
|}.

(** ** Binary fixed point

    A second instance, for the examples in which single precision
    matters.  A number is a count of [2^-60]: the doubles 0.96, 0.28 and
    1.0 and their single-precision roundings are such numbers.  [float32]
    rounds to 24 significant bits, to nearest and ties to even, as IEEE 754
    does between the smallest and the largest normal number.  Quotients,
    square roots and the sum of an inner product are cut to the grid; they
    are exact in the examples, or differ from the IEEE result by less than
    [2^-59] before a rounding to single precision that this does not
    change. *)
Definition round_to_multiple (u x : Z) : Z :=
  let q := (x / u)%Z in
  let r := (x mod u)%Z in
  if (2 * r <? u)%Z then (q * u)%Z
  else if (u <? 2 * r)%Z then ((q + 1) * u)%Z
  else if Z.even q then (q * u)%Z else ((q + 1) * u)%Z.

Definition round_single (x : Z) : Z :=
  if (x =? 0)%Z then 0%Z
  else
    let e := Z.log2 (Z.abs x) in
    if (e <=? 23)%Z then x else round_to_multiple (2 ^ (e - 23)) x.

Definition binary_point : Floats := {|
  F := Z;
  f_zero := 0%Z;
  f_tenth := 115292150460684704%Z;
  f_gt := Z.gtb;
  f_ge := Z.geb;
  f_sub := Z.sub;
  f_div := fun x y => (x * 2 ^ 60 / y)%Z;
  float32 := round_single;
  norm := fun v => Z.sqrt (fold_right (fun x acc => x * x + acc)%Z 0%Z v);
  inner := fun a b =>
    round_single (fold_right Z.add 0 (zip_with Z.mul a b) / 2 ^ 60)%Z;
  f_lowest := (- 2 ^ 200)%Z;
  format_3f := fun _ => "0.000"%string
|}.

Module VectorExamples.

Import Py VectorService VectorFacts.
Local Open Scope Z_scope.

Definition chunk_of (name : string) (k : Z) : DocumentChunk :=
  {| id := name; document_id := "doc-1"; chunk_index := k;
     content := str "text"; start_char := 0; end_char := 4;
     page_number := None; metadata := [] |}.

Definition chunk_a : DocumentChunk := chunk_of "a" 0.
Definition chunk_zero : DocumentChunk := chunk_of "zero" 1.
Definition chunk_b : DocumentChunk := chunk_of "b" 2.
Definition chunk_none : DocumentChunk := chunk_of "none" 3.

(** [1, 0] for a, [0, 0] for zero, [0, 1] for b, nothing for none. *)
Definition embeddings_ab : gmap string (list Z) :=
  <["a"%string := [1000; 0]]>
    (<["zero"%string := [0; 0]]> (<["b"%string := [0; 1000]]> ∅)).

Definition library : @VectorService fixed_point :=
  snd (add_embeddings (H := fixed_point) fresh
         [chunk_a; chunk_zero; chunk_b; chunk_none] embeddings_ab "a.pdf").

Definition query_top2 : @SearchQuery fixed_point :=
  @mkSearchQuery fixed_point "q" 2 100.

Definition clock_0_5 (n : nat) : Z := Z.of_nat n * 5.

Lemma fixed_point_ge_transitive : @ge_transitive fixed_point.
Proof.
  intros a b c. simpl. rewrite !Z.geb_leb, !Z.leb_le. lia.
Qed.

Lemma fixed_point_comparable (self : @VectorService fixed_point)
    (query_embedding : list Z) :
  scores_comparable (H := fixed_point) self query_embedding.
Proof.
  intros a b _ _. simpl. rewrite !Z.geb_leb, !Z.leb_le. lia.
Qed.


(** The doubles nearest 0.96, 0.28 and 1.0, and 0.96 in single
    precision. *)
Definition d_096 : Z := 1106804644422573056.
Definition d_028 : Z := 322818021289917184.
Definition d_1 : Z := 2 ^ 60.
Definition s_096 : Z := 1106804619683561472.

(** A service that holds the one vector [0.96, 0.28], whose norm is 1. *)
Definition shelf : @VectorService binary_point :=
  snd (add_embeddings (H := binary_point) (fresh (H := binary_point))
         [chunk_a] {[ "a"%string := [d_096; d_028] ]} "a.pdf").

Definition query_096 : @SearchQuery binary_point :=
  @mkSearchQuery binary_point "q" 1 d_096.

(** What the search for [1, 0] with threshold 0.96 returns. *)
Definition found : @SearchResponse binary_point :=
  @mkSearchResponse binary_point "q"
    [@mkSearchResult binary_point chunk_a s_096 "a.pdf"] 1 5.


Example search_a_before_b :
  match search (H := fixed_point) clock_0_5 library [900; 100] query_top2 with
  | Return r => map (fun x => (id (chunk x), relevance_score x)) (results r)
  | Raise _ => []
  end = [("a"%string, 994); ("b"%string, 110)].
Proof. vm_compute. reflexivity. Qed.

(** The chunk with the zero vector and the chunk without a vector are
    passed over; the call is the call on a and b. *)
Lemma add_embeddings_witness :
  usable (H := fixed_point) embeddings_ab chunk_zero = false
  /\ usable (H := fixed_point) embeddings_ab chunk_none = false
  /\ add_embeddings (H := fixed_point) fresh
       [chunk_a; chunk_zero; chunk_b; chunk_none] embeddings_ab "a.pdf"
     = add_embeddings (H := fixed_point) fresh [chunk_a; chunk_b]
         embeddings_ab "a.pdf".
Proof.
  destruct (@add_embeddings_skips_and_reports fixed_point fresh
              [chunk_a; chunk_zero; chunk_b; chunk_none] embeddings_ab "a.pdf"
              eq_refl) as (Hskip & Hsame & _).
  split; [|split].
  - apply Hskip. right. exists [0; 0]. split; reflexivity.
  - apply Hskip. left. reflexivity.
  - exact Hsame.
Defined.

Example add_embeddings_returns_true :
  fst (add_embeddings (H := fixed_point) fresh
         [chunk_a; chunk_zero; chunk_b; chunk_none] embeddings_ab "a.pdf")
  = Return true
  /\ vectors library = [[1000; 0]; [0; 1000]].
Proof. vm_compute. split; reflexivity. Qed.

(** Nothing on disk, and a store whose pickle cannot be read. *)
Definition no_files : @disk fixed_point :=
  @mkDisk fixed_point None None.

Definition torn_store : @disk fixed_point :=
  @mkDisk fixed_point (Some (Some (@mkIndexFlatIP fixed_point 2 [[1000; 0]])))
    (Some None).

(** C7 fails in two ways.  A load with nothing on disk leaves a service
    that holds vectors as it is, not empty.  And a load that reads the index
    file and then fails on the pickle returns false with the vectors of the
    file in the service and no chunk for them. *)
Lemma failed_load_not_empty :
  ~ failed_load_leaves_empty (H := fixed_point) no_files library
  /\ ~ failed_load_leaves_empty (H := fixed_point) torn_store fresh.
Proof.
  split; intros Hspec.
  - destruct Hspec as [_ [Hv _]]; [left; left; reflexivity|].
    vm_compute in Hv. discriminate Hv.
  - destruct Hspec as [_ [Hv _]]; [right; right; reflexivity|].
    vm_compute in Hv. discriminate Hv.
Qed.

End VectorExamples.

(** ** The orchestrator *)

Module RAGFacts.

Import Py RAGService.
Local Open Scope Z_scope.

Section WithFloats.

Context `{Floats}.

Variable settings : Settings.
Variable get_embedding : string -> string -> result (list F).
Variable search : list F -> SearchQuery -> result SearchResponse.
Variable chat_completion :
  list (string * string) -> string -> F -> Z
  -> result (option string * token_counts).
Variable content_error : exn.
Variable clock : nat -> F.

(** The response of the [except] branch. *)
Definition failure_response (e : exn) : ChatResponse :=
  {| response_content := apology e;
     sources := [];
     response_time := f_sub (clock 1%nat) (clock O);
     token_usage := None |}.

(** A step of the pipeline raises [e]: the embedding of the query, the
    search with that embedding, or the completion on the messages built
    from the search response. *)
Definition step_fails (query' : string)
    (history : option (list (string * string))) (e : exn) : Prop :=
  get_embedding query' (embedding_model settings) = Raise e
  \/ (exists v,
        get_embedding query' (embedding_model settings) = Return v
        /\ search v (search_query_of settings query') = Raise e)
  \/ (exists v sr,
        get_embedding query' (embedding_model settings) = Return v
        /\ search v (search_query_of settings query') = Return sr
        /\ chat_completion (prompt_messages sr query' history)
             (chat_model settings) (temperature settings)
             (max_tokens settings) = Raise e).


End WithFloats.

(** Scenario D: the completion fails on its third attempt with a rate-limit
    error, which the client raises. *)
Example generate_response_rate_limited :
  let settings := @mkSettings fixed_point 5 700 1000
                    "text-embedding-ada-002" "gpt-3.5-turbo" in
  generate_response (H := fixed_point) settings
    (fun _ _ => Return [900; 100])
    (fun v q => VectorService.search (H := fixed_point) VectorExamples.clock_0_5
                  VectorExamples.library v q)
    (fun _ _ _ _ => Raise (mkExn RateLimitError "Rate limit reached"))
    (mkExn OtherException "1 validation error for ChatResponse")
    (fun n => Z.of_nat n * 7000) "What is a?" None
  = Return (@mkChatResponse fixed_point
              "I apologize, but I encountered an error while processing your question: Rate limit reached"
              [] 7000 None).
Proof. vm_compute. reflexivity. Qed.

End RAGFacts.

(** ** The session manager *)

Module ChatFacts.

Import Py ChatService.
Local Open Scope Z_scope.

Definition role_content (m : ChatMessage) : string * string :=
  (role m, message_content m).

(** The last [n] elements of a list, all of it when it is shorter. *)
Definition last_n {A} (n : nat) (l : list A) : list A :=
  drop (length l - n) l.

Lemma recent_without_last {A} (l : list A) (m : A) :
  slice_to (slice_from (l ++ [m]) (-10)) (-1) = last_n 9 l.
Proof.
  unfold slice_from, slice_to, last_n, slice_index, len. simpl.
  rewrite length_app. simpl.
  replace (Z.to_nat (Z.max (-10 + Z.of_nat (length l + 1)) 0))
    with (length l - 9)%nat by lia.
  rewrite drop_app_le by lia.
  rewrite length_app, length_drop. simpl.
  replace (Z.to_nat (Z.max (-1 + Z.of_nat (length l - (length l - 9) + 1)) 0))
    with (length (drop (length l - 9) l)) by (rewrite length_drop; lia).
  apply take_app_length.
Qed.

Section WithFloats.

Context `{Floats}.

Variable uuid4 : nat -> string.
Variable generate_response :
  string -> list (string * string) -> result ChatResponse.

(** The messages of the session that [send_message] resolves, before the
    new message is appended. *)
Definition prior_messages (self : ChatService) (session_id' : option string)
    : list ChatMessage :=
  messages (snd (fst (resolve_session uuid4 self session_id'))).

Definition orchestrator_calls (self : ChatService) (message : string)
    (session_id' : option string) : list (string * list (string * string)) :=
  snd (send_message uuid4 generate_response self message session_id').

(** C9 as the specification words it: the history is the last ten prior messages. *)
Definition history_is_last_ten (self : ChatService) (message : string)
    (session_id' : option string) : Prop :=
  orchestrator_calls self message session_id'
  = [(message, map role_content (last_n 10 (prior_messages self session_id')))].

Lemma conversation_history_after_append (session : ConversationSession)
    (message : string) :
  conversation_history (snd (add_message session message "user"))
  = map role_content (last_n 9 (messages session)).
Proof.
  unfold conversation_history, get_recent_messages, add_message.
  cbn [snd messages].
  set (m := {| message_content := message; role := "user" |}).
  assert (Ht : truthy (messages session ++ [m]) = true)
    by (destruct (messages session); reflexivity).
  rewrite Ht. change (Z.opp 10) with (-10).
  rewrite recent_without_last. reflexivity.
Qed.

(** C9, as the code has it.  [send_message] calls the orchestrator once,
    with the message and, as history, the role and content of the last nine
    messages that the session held before the message was appended (all of
    them when there are fewer), in order. *)
Theorem send_message_history (self : ChatService) (message : string)
    (session_id' : option string) :
  orchestrator_calls self message session_id'
  = [(message, map role_content (last_n 9 (prior_messages self session_id')))].
Proof.
  unfold orchestrator_calls, prior_messages, send_message.
  destruct (resolve_session uuid4 self session_id') as [[key session] self'].
  simpl fst. simpl snd.
  pose proof (conversation_history_after_append session message) as Hh.
  unfold add_message in *. simpl in Hh.
  destruct (generate_response message _) as [r|e]; simpl; rewrite Hh;
    reflexivity.
Qed.

End WithFloats.

(** A session that holds ten messages, numbered 0 to 9. *)
Definition numbered (k : nat) : ChatMessage :=
  {| message_content := String (ascii_of_nat (48 + k)) EmptyString;
     role := if Nat.even k then "user" else "assistant" |}.

Definition ten_messages : ConversationSession :=
  {| session_id := "s"; messages := map numbered (seq 0 10) |}.

Definition one_session : ChatService :=
  {| sessions := {[ "s"%string := ten_messages ]};
     current_session_id := Some "s"%string;
     uuids := 1 |}.

Definition canned_response : @ChatResponse fixed_point :=
  @mkChatResponse fixed_point "ok" [] 0%Z None.

(** With ten prior messages the history holds nine of them: message 0 is
    left out. *)
Lemma history_holds_nine_of_ten :
  ~ history_is_last_ten (H := fixed_point) (fun _ => "t"%string)
      (fun _ _ => Return canned_response) one_session "next" (Some "s"%string)
  /\ map (fun c => length (snd c))
       (orchestrator_calls (H := fixed_point) (fun _ => "t"%string)
          (fun _ _ => Return canned_response) one_session "next"
          (Some "s"%string))
     = [9%nat].
Proof.
  split; [|vm_compute; reflexivity].
  unfold history_is_last_ten. intros Hspec.
  apply (f_equal (map (fun c => length (snd c)))) in Hspec.
  vm_compute in Hspec. discriminate Hspec.
Qed.

End ChatFacts.

(** ** More on the chunks of [create_text_chunks] *)

Module ChunkExtras.

Import Py PyFacts TextUtils TextUtilsFacts ChunkFacts ChunkProperties.
Local Open Scope Z_scope.

(** *** For all parameters *)

Section AnyParameters.

Variable uuid4 : Z -> string.
Variable clean : list ascii.
Variable doc : string.
Variables cs ov : Z.

(** An invariant of the chunk counter and the chunk list that holds after
    every append holds of what the loop returns. *)
Section Keeps.

Variable Inv : Z -> list DocumentChunk -> Prop.

Hypothesis Inv_append : forall idx start chunks,
  Inv idx chunks ->
  truthy (strip (slice clean start (window_end clean cs start))) = true ->
  Inv (idx + 1)
      (chunks ++ [make_chunk uuid4 clean doc idx start
                    (window_end clean cs start)
                    (strip (slice clean start (window_end clean cs start)))]).

Lemma chunk_loop_keeps (fuel : nat) :
  forall start idx chunks out,
    Inv idx chunks ->
    chunk_loop uuid4 clean doc cs ov fuel start idx chunks = Some out ->
    exists idx', Inv idx' out.
Proof.
  induction fuel as [|fuel IH]; intros start idx chunks out HI Hrun;
    [discriminate|].
  cbn [chunk_loop] in Hrun.
  destruct (start <? len clean).
  2:{ injection Hrun as <-. exists idx. exact HI. }
  destruct (truthy (strip (slice clean start (window_end clean cs start))))
    eqn:Hc.
  - pose proof (Inv_append idx start chunks HI Hc) as HI'.
    destruct (window_end clean cs start >=? len clean).
    + injection Hrun as <-. eexists. exact HI'.
    + eapply IH; [exact HI' | exact Hrun].
  - destruct (window_end clean cs start >=? len clean).
    + injection Hrun as <-. exists idx. exact HI.
    + eapply IH; [exact HI | exact Hrun].
Qed.

End Keeps.

End AnyParameters.

(** The content of a chunk is the stripped slice of the cleaned text
    between its offsets, and it is not empty. *)
Definition well_cut (clean : list ascii) (c : DocumentChunk) : Prop :=
  content c = strip (slice clean (start_char c) (end_char c))
  /\ content c <> []
  /\ (forall x, head (content c) = Some x -> isspace x = false)
  /\ (forall x, last (content c) = Some x -> isspace x = false)
  /\ metadata c = [("chunk_size"%string, len (content c));
                   ("original_length"%string, len clean)].

(** X1.  Whatever the parameters, every chunk that [create_text_chunks]
    returns holds the text between its two offsets in the cleaned text,
    stripped of white space at both ends; this content is never empty, and
    the two metadata entries are its length and the length of the cleaned
    text. *)
Theorem chunks_hold_their_span (uuid4 : Z -> string) (text : list ascii)
    (doc : string) (cs ov : Z) (fuel : nat) (chunks : list DocumentChunk) :
  create_text_chunks fuel uuid4 text doc cs ov = Some chunks ->
  Forall (well_cut (clean_text text)) chunks.
Proof.
  unfold create_text_chunks.
  destruct (negb (truthy text) || negb (truthy (strip text))).
  { intros [= <-]. constructor. }
  intros Hrun.
  destruct (chunk_loop_keeps uuid4 (clean_text text) doc cs ov
              (fun _ l => Forall (well_cut (clean_text text)) l)) with
    (fuel := fuel) (start := 0) (idx := 0) (chunks := @nil DocumentChunk)
    (out := chunks) as [_ Hall]; [| constructor | exact Hrun | exact Hall].
  intros idx start l Hl Hc. apply Forall_app. split; [exact Hl|].
  constructor; [|constructor]. unfold well_cut. cbn [content start_char end_char metadata make_chunk].
  split; [reflexivity|]. split.
  - destruct (strip _); [discriminate | discriminate].
  - split; [apply strip_head|]. split; [apply strip_last | reflexivity].
Qed.

Lemma chunks_hold_their_span_witness :
  exists chunks,
    create_text_chunks 40 uuid_of_index
      (str "One. Two three four. Five six.") "doc" 10 2 = Some chunks
    /\ Forall (well_cut (clean_text (str "One. Two three four. Five six.")))
         chunks.
Proof.
  eexists. split; [vm_compute; reflexivity|].
  apply (chunks_hold_their_span uuid_of_index
           (str "One. Two three four. Five six.") "doc" 10 2 40).
  vm_compute. reflexivity.
Defined.

(** X2.  Whatever the parameters, the chunks are numbered 0, 1, 2, ... in
    the order of the list, without a hole for a window that was not
    emitted; the i-th chunk carries the i-th identifier drawn and the
    document id that was passed in, and no page number. *)
Theorem chunks_are_numbered (uuid4 : Z -> string) (text : list ascii)
    (doc : string) (cs ov : Z) (fuel : nat) (chunks : list DocumentChunk) :
  create_text_chunks fuel uuid4 text doc cs ov = Some chunks ->
  forall (i : nat) (c : DocumentChunk),
    chunks !! i = Some c ->
    chunk_index c = Z.of_nat i
    /\ id c = uuid4 (Z.of_nat i)
    /\ document_id c = doc
    /\ page_number c = None.
Proof.
  unfold create_text_chunks.
  destruct (negb (truthy text) || negb (truthy (strip text))).
  { intros [= <-] i c Hi. destruct i; discriminate. }
  intros Hrun.
  destruct (chunk_loop_keeps uuid4 (clean_text text) doc cs ov
              (fun idx l =>
                 idx = len l
                 /\ forall (i : nat) c, l !! i = Some c ->
                      chunk_index c = Z.of_nat i
                      /\ id c = uuid4 (Z.of_nat i)
                      /\ document_id c = doc
                      /\ page_number c = None)) with
    (fuel := fuel) (start := 0) (idx := 0) (chunks := @nil DocumentChunk)
    (out := chunks) as [idx' [_ Hall]]; [| | exact Hrun | exact Hall].
  - intros idx start l [Hidx Hl] Hc. split.
    + unfold len in *. rewrite length_app. simpl. lia.
    + intros i c Hi. apply lookup_app_Some in Hi as [Hi | [Hge Hi]].
      * apply Hl. exact Hi.
      * apply list_lookup_singleton_Some in Hi as [Hz <-].
        assert (Z.of_nat i = idx) as <- by (unfold len in Hidx; lia).
        simpl. auto.
  - split; [reflexivity|]. intros i c Hi. destruct i; discriminate.
Qed.

Lemma chunks_are_numbered_witness :
  exists chunks,
    create_text_chunks 10 uuid_of_index (str "a b") "doc" 1 0 = Some chunks
    /\ forall (i : nat) (c : DocumentChunk),
         chunks !! i = Some c ->
         chunk_index c = Z.of_nat i
         /\ id c = uuid_of_index (Z.of_nat i)
         /\ document_id c = "doc"%string
         /\ page_number c = None.
Proof.
  eexists. split; [vm_compute; reflexivity|].
  apply (chunks_are_numbered uuid_of_index (str "a b") "doc" 1 0 10).
  vm_compute. reflexivity.
Defined.

(** *** For valid parameters *)

Definition starts_before (a b : DocumentChunk) : Prop :=
  start_char a < start_char b.

(** The start of a chunk is a multiple of the step. *)
Definition on_grid (step : Z) (c : DocumentChunk) : Prop :=
  exists k, 0 <= k /\ start_char c = k * step.

(** X3.  For a positive chunk size and an overlap below it, the chunks
    come in strictly increasing order of [start_char], and every start is a
    multiple of [chunk_size - chunk_overlap]: a cut at a sentence end moves
    the end of a chunk, never the start of the next one. *)
Theorem chunk_starts_on_grid (uuid4 : Z -> string) (text : list ascii)
    (doc : string) (cs ov : Z) (fuel : nat) :
  0 < cs -> 0 <= ov < cs ->
  (length (clean_text text) < fuel)%nat ->
  exists chunks,
    create_text_chunks fuel uuid4 text doc cs ov = Some chunks
    /\ StronglySorted starts_before chunks
    /\ Forall (on_grid (cs - ov)) chunks.
Proof.
  intros Hcs Hov Hfuel. unfold create_text_chunks.
  destruct (negb (truthy text) || negb (truthy (strip text))).
  { exists []. split; [reflexivity|]. split; constructor. }
  set (clean := clean_text text) in *.
  apply (chunk_loop_rule uuid4 clean doc cs ov Hcs Hov
           (fun start chunks =>
              (exists k, 0 <= k /\ start = k * (cs - ov))
              /\ Forall (fun c => start_char c < start) chunks
              /\ StronglySorted starts_before chunks
              /\ Forall (on_grid (cs - ov)) chunks)
           (fun chunks =>
              StronglySorted starts_before chunks
              /\ Forall (on_grid (cs - ov)) chunks)).
  - intros start chunks _ (_ & _ & Hs & Hg). split; assumption.
  - intros start idx chunks Hs ((k & Hk & Hstart) & Hlt & Hsorted & Hgrid).
    assert (Hemit :
      Forall (fun c => start_char c <= start)
             (emit uuid4 clean doc cs idx start chunks)
      /\ StronglySorted starts_before (emit uuid4 clean doc cs idx start chunks)
      /\ Forall (on_grid (cs - ov)) (emit uuid4 clean doc cs idx start chunks)).
    { unfold emit. destruct (truthy _).
      - split; [|split].
        + apply Forall_app. split.
          * eapply Forall_impl; [exact Hlt|]. simpl. intros; lia.
          * constructor; [simpl; lia | constructor].
        + apply StronglySorted_app_2; [| exact Hsorted | repeat constructor].
          intros a b Ha Hb. apply list_elem_of_singleton in Hb as ->.
          rewrite Forall_forall in Hlt. unfold starts_before. simpl.
          apply Hlt. exact Ha.
        + apply Forall_app. split; [exact Hgrid|].
          constructor; [|constructor]. exists k. simpl. split; assumption.
      - split; [|split; assumption].
        eapply Forall_impl; [exact Hlt|]. simpl. intros; lia. }
    destruct Hemit as (Hle & Hsorted' & Hgrid').
    split; [intros _; split; assumption|].
    intros _. split; [|split; [|split; assumption]].
    + exists (k + 1). split; [lia | lia].
    + eapply Forall_impl; [exact Hle|]. simpl. intros; lia.
  - lia.
  - constructor.
  - split; [exists 0; lia|]. split; [constructor|]. split; constructor.
  - unfold len. lia.
Qed.

Lemma chunk_starts_on_grid_witness :
  exists chunks,
    create_text_chunks 40 uuid_of_index
      (str "abcdefg. ijklmnopqrstuvwxyz") "doc" 10 0 = Some chunks
    /\ StronglySorted starts_before chunks
    /\ Forall (on_grid (10 - 0)) chunks.
Proof.
  apply chunk_starts_on_grid; [lia | lia | vm_compute; lia].
Defined.

Lemma clean_text_head (text : list ascii) (c : ascii) :
  head (clean_text text) = Some c -> isspace c = false.
Proof. unfold clean_text. apply strip_head. Qed.

Lemma clean_text_last (text : list ascii) (c : ascii) :
  last (clean_text text) = Some c -> isspace c = false.
Proof. unfold clean_text. apply strip_last. Qed.

(** The cleaned text of a blank text is empty. *)
Lemma blank_text_clean_nil (text : list ascii) :
  negb (truthy text) || negb (truthy (strip text)) = true ->
  clean_text text = [].
Proof.
  intros Hb. apply blank_text_clean in Hb.
  destruct (clean_text text) as [|c r] eqn:Hclean; [reflexivity|].
  pose proof (clean_text_head text c) as Hh. rewrite Hclean in Hh.
  specialize (Hh eq_refl). inversion Hb; congruence.
Qed.

Lemma char_at_head (s : list ascii) : char_at s 0 = head s.
Proof. unfold char_at. simpl. destruct s; reflexivity. Qed.

Lemma char_at_last (s : list ascii) :
  s <> [] -> char_at s (len s - 1) = last s.
Proof.
  intros Hs. unfold char_at, len.
  destruct (Z.ltb_spec (Z.of_nat (length s) - 1) 0) as [Hlt|_].
  { destruct s; [congruence | simpl in Hlt; lia]. }
  rewrite last_lookup. f_equal. lia.
Qed.

Section Ends.

Variable uuid4 : Z -> string.
Variable clean : list ascii.
Variable doc : string.
Variables cs ov : Z.
Hypothesis Hcs : 0 < cs.
Hypothesis Hov : 0 <= ov < cs.

(** A window that holds a character other than white space appends its
    chunk. *)
Lemma emit_appends idx start chunks p c :
  0 <= start < len clean ->
  start <= p < window_end clean cs start ->
  char_at clean p = Some c -> isspace c = false ->
  exists chunk,
    emit uuid4 clean doc cs idx start chunks = chunks ++ [chunk]
    /\ start_char chunk = start
    /\ end_char chunk = window_end clean cs start.
Proof.
  intros Hs Hp Hc Hns.
  pose proof (window_end_bounds clean cs Hcs start Hs) as Hwe.
  unfold emit. set (e := window_end clean cs start) in *.
  destruct (strip (slice clean start e)) as [|x r] eqn:Hstrip.
  - exfalso. apply strip_nil in Hstrip. rewrite Forall_forall in Hstrip.
    assert (Hin : slice clean start e !! Z.to_nat (p - start) = Some c).
    { rewrite slice_lookup by lia.
      replace (start + Z.of_nat (Z.to_nat (p - start))) with p by lia.
      exact Hc. }
    apply list_elem_of_lookup_2 in Hin. specialize (Hstrip c Hin). congruence.
  - simpl. eexists. split; [reflexivity|]. split; reflexivity.
Qed.

Lemma emit_head idx start chunks c :
  head chunks = Some c ->
  head (emit uuid4 clean doc cs idx start chunks) = Some c.
Proof.
  intros Hh. unfold emit. destruct (truthy _); [|exact Hh].
  destruct chunks; [discriminate | exact Hh].
Qed.

Definition starts_at_zero (chunks : list DocumentChunk) : Prop :=
  exists c, head chunks = Some c /\ start_char c = 0.

Definition ends_at (n : Z) (chunks : list DocumentChunk) : Prop :=
  exists c, last chunks = Some c /\ end_char c = n.

Lemma chunk_loop_ends (fuel : nat) :
  clean <> [] ->
  (forall c, head clean = Some c -> isspace c = false) ->
  (forall c, last clean = Some c -> isspace c = false) ->
  (length clean < fuel)%nat ->
  exists chunks,
    chunk_loop uuid4 clean doc cs ov fuel 0 0 [] = Some chunks
    /\ starts_at_zero chunks /\ ends_at (len clean) chunks.
Proof.
  intros Hne Hhead Hlast Hfuel.
  assert (Hlen : 0 < len clean).
  { unfold len. destruct clean; [congruence | simpl; lia]. }
  destruct (head clean) as [c0|] eqn:Hc0; [|destruct clean; [congruence | discriminate]].
  destruct (last clean) as [cn|] eqn:Hcn.
  2:{ apply last_None in Hcn. congruence. }
  apply (chunk_loop_rule uuid4 clean doc cs ov Hcs Hov
           (fun start chunks =>
              start < len clean
              /\ ((start = 0 /\ chunks = []) \/ starts_at_zero chunks))
           (fun chunks => starts_at_zero chunks /\ ends_at (len clean) chunks)).
  - intros start chunks Hge [Hlt _]. lia.
  - intros start idx chunks Hs [_ Hfirst].
    pose proof (window_end_bounds clean cs Hcs start Hs) as Hwe.
    assert (Hzero : starts_at_zero (emit uuid4 clean doc cs idx start chunks)).
    { destruct Hfirst as [[-> ->] | (c & Hh & Hz)].
      - destruct (emit_appends idx 0 [] 0 c0) as (chunk & -> & Hst & _);
          [lia | lia | rewrite char_at_head; exact Hc0
          | apply Hhead; reflexivity |].
        exists chunk. split; [reflexivity | exact Hst].
      - exists c. split; [apply emit_head; exact Hh | exact Hz]. }
    split.
    + intros He. split; [exact Hzero|].
      destruct (emit_appends idx start chunks (len clean - 1) cn)
        as (chunk & -> & _ & Hend);
        [lia | lia | rewrite char_at_last by exact Hne; exact Hcn
        | apply Hlast; reflexivity |].
      exists chunk. split; [apply last_snoc | lia].
    + intros He. split; [|right; exact Hzero].
      destruct (Z.lt_ge_cases (start + cs) (len clean)) as [Hin|Hout]; [lia|].
      rewrite window_end_at_end in He by lia. lia.
  - lia.
  - constructor.
  - split; [exact Hlen | left; split; reflexivity].
  - unfold len. lia.
Qed.

End Ends.

(** X4.  For a positive chunk size and an overlap below it, no chunk is
    returned exactly when the cleaned text is empty; otherwise the first
    chunk starts at offset 0 and the last chunk ends at the length of the
    cleaned text. *)
Theorem chunks_reach_both_ends (uuid4 : Z -> string) (text : list ascii)
    (doc : string) (cs ov : Z) (fuel : nat) :
  0 < cs -> 0 <= ov < cs ->
  (length (clean_text text) < fuel)%nat ->
  exists chunks,
    create_text_chunks fuel uuid4 text doc cs ov = Some chunks
    /\ (chunks = [] <-> clean_text text = [])
    /\ (clean_text text <> [] ->
        starts_at_zero chunks /\ ends_at (len (clean_text text)) chunks).
Proof.
  intros Hcs Hov Hfuel. unfold create_text_chunks.
  destruct (negb (truthy text) || negb (truthy (strip text))) eqn:Hblank.
  { apply blank_text_clean_nil in Hblank. exists [].
    split; [reflexivity|]. split; [tauto | congruence]. }
  destruct (clean_text text) as [|c r] eqn:Hclean.
  { exists []. destruct fuel; [simpl in Hfuel; lia|].
    split; [reflexivity|]. split; [tauto | congruence]. }
  rewrite <- Hclean in *.
  destruct (chunk_loop_ends uuid4 (clean_text text) doc cs ov Hcs Hov fuel)
    as (chunks & Hrun & Hzero & Hend);
    [ rewrite Hclean; discriminate
    | apply clean_text_head | apply clean_text_last | exact Hfuel |].
  exists chunks. split; [exact Hrun|]. split.
  - split.
    + intros ->. destruct Hzero as (c' & Hh & _). discriminate.
    + rewrite Hclean. discriminate.
  - intros _. split; assumption.
Qed.

Lemma chunks_reach_both_ends_witness :
  exists chunks,
    create_text_chunks 40 uuid_of_index
      (str "abcdefg. ijklmnopqrstuvwxyz") "doc" 10 0 = Some chunks
    /\ (chunks = [] <-> clean_text (str "abcdefg. ijklmnopqrstuvwxyz") = [])
    /\ (clean_text (str "abcdefg. ijklmnopqrstuvwxyz") <> [] ->
        starts_at_zero chunks
        /\ ends_at (len (clean_text (str "abcdefg. ijklmnopqrstuvwxyz")))
             chunks).
Proof.
  apply chunks_reach_both_ends; [lia | lia | vm_compute; lia].
Defined.

End ChunkExtras.

(** ** [get_embeddings_batch] as a whole *)

Module BatchExtras.

Import Py OpenAIUtils OpenAIFacts.
Local Open Scope Z_scope.

(** Number of sub-batches for [n] texts. *)
Definition batches (n : Z) : nat := Z.to_nat ((n + batch_size - 1) / batch_size).

Lemma range_step_batches {A} (texts : list A) :
  range_step (len texts) batch_size
  = map (fun k => Z.of_nat k * batch_size) (seq 0 (batches (len texts))).
Proof. reflexivity. Qed.

Lemma slice_batch {A} (texts : list A) (k : nat) :
  slice texts (Z.of_nat k * batch_size) (Z.of_nat k * batch_size + batch_size)
  = take 100 (drop (100 * k) texts).
Proof.
  unfold slice, slice_index, batch_size, len.
  destruct (Z.ltb_spec (Z.of_nat k * 100) 0); [lia|].
  destruct (Z.ltb_spec (Z.of_nat k * 100 + 100) 0); [lia|].
  destruct (Nat.le_gt_cases (length texts) (100 * k)) as [Hout|Hin].
  - rewrite !Z.min_r by lia. rewrite Z.sub_diag.
    rewrite (drop_ge texts (100 * k)) by lia. reflexivity.
  - rewrite (Z.min_l (Z.of_nat k * 100)) by lia.
    replace (Z.to_nat (Z.of_nat k * 100)) with (100 * k)%nat by lia.
    destruct (Z.le_gt_cases (Z.of_nat k * 100 + 100) (Z.of_nat (length texts))).
    + rewrite Z.min_l by lia. f_equal. lia.
    + rewrite Z.min_r by lia.
      rewrite (take_ge (drop (100 * k) texts) 100)
        by (rewrite length_drop; lia).
      apply take_ge. rewrite length_drop. lia.
Qed.

(** The sub-batches, one after the other, are the texts. *)
Lemma batches_concat {A} (texts : list A) (m j : nat) :
  concat (map (fun k => take 100 (drop (100 * k) texts)) (seq j m))
  = take (100 * m) (drop (100 * j) texts).
Proof.
  revert j. induction m as [|m IH]; intros j; [reflexivity|].
  cbn [seq map concat]. rewrite IH.
  replace (100 * S j)%nat with (100 * j + 100)%nat by lia.
  rewrite <- drop_drop.
  replace (100 * S m)%nat with (100 + 100 * m)%nat by lia.
  apply take_take_drop.
Qed.

Lemma batches_cover {A} (texts : list A) :
  concat (map (fun i => slice texts i (i + batch_size))
              (range_step (len texts) batch_size))
  = texts.
Proof.
  rewrite range_step_batches, map_map.
  erewrite map_ext; [|intros k; apply slice_batch].
  rewrite batches_concat. simpl drop. apply take_ge.
  unfold batches, batch_size, len.
  pose proof (Z.div_mod (Z.of_nat (length texts) + 100 - 1) 100 ltac:(lia)).
  pose proof (Z.mod_pos_bound (Z.of_nat (length texts) + 100 - 1) 100 ltac:(lia)).
  lia.
Qed.

Section Batch.

Context {V : Type}.
Variable embeddings_create_batch : list string -> string -> nat -> result (list V).

(** A request that succeeds at once costs one request and no wait. *)
Lemma retry_loop_first_try {A} (body : nat -> result A) (w : world) (a : A) :
  body (requests w) = Return a ->
  retry_loop init body (range (max_retries init)) w
  = (Some (Return a), request w).
Proof.
  intros Hb. change (range (max_retries init)) with [0; 1; 2].
  cbn [retry_loop]. rewrite Hb. reflexivity.
Qed.

Lemma batch_loop_all_succeed (embed : string -> V) (texts : list string)
    (model : string) (starts : list Z) :
  (forall batch n,
      embeddings_create_batch batch model n = Return (map embed batch)) ->
  forall all_embeddings w,
    batch_loop init embeddings_create_batch texts model starts all_embeddings w
    = (Return (all_embeddings
               ++ map embed
                    (concat (map (fun i => slice texts i (i + batch_size))
                                 starts))),
       {| requests := requests w + length starts; slept := slept w |}).
Proof.
  intros Hok. induction starts as [|i rest IH]; intros acc w.
  - simpl. rewrite app_nil_r, Nat.add_0_r. destruct w; reflexivity.
  - cbn [batch_loop]. rewrite (retry_loop_first_try _ w _ (Hok _ _)).
    rewrite IH. cbn [map concat]. rewrite map_app, app_assoc.
    f_equal. apply world_eq; simpl; [lia | reflexivity].
Qed.

(** X5.  With a provider that answers every request with one vector per
    text, in order, [get_embeddings_batch] returns one vector per text, in
    the order of the texts, after one request for each sub-batch of at most
    100 texts and without any wait. *)
Theorem get_embeddings_batch_in_order (embed : string -> V)
    (texts : list string) (model : string) (w : world) :
  (forall batch n,
      embeddings_create_batch batch model n = Return (map embed batch)) ->
  get_embeddings_batch init embeddings_create_batch texts model w
  = (Return (map embed texts),
     {| requests := requests w + batches (len texts); slept := slept w |}).
Proof.
  intros Hok. unfold get_embeddings_batch.
  rewrite (batch_loop_all_succeed embed texts model _ Hok).
  rewrite batches_cover. simpl app. f_equal.
  rewrite range_step_batches, length_map, length_seq. reflexivity.
Qed.

Lemma batch_loop_requests (texts : list string) (model : string)
    (starts : list Z) :
  forall all_embeddings w,
    (requests (snd (batch_loop init embeddings_create_batch texts model
                      starts all_embeddings w))
     <= requests w + 3 * length starts)%nat.
Proof.
  induction starts as [|i rest IH]; intros acc w; cbn [batch_loop].
  - simpl. lia.
  - pose proof (retry_loop_requests
                  (embeddings_create_batch (slice texts i (i + batch_size)) model)
                  (range (max_retries init)) w) as Hr.
    destruct (retry_loop _ _ _ w) as [[[vs|e]|] w']; simpl in Hr.
    + etransitivity; [apply IH|]. simpl. lia.
    + simpl. lia.
    + etransitivity; [apply IH|]. simpl. lia.
Qed.

(** X6.  Whatever the provider does, [get_embeddings_batch] sends at most
    three requests for each sub-batch of 100 texts; for no text it sends
    none and returns the empty list. *)
Theorem get_embeddings_batch_requests (texts : list string) (model : string)
    (w : world) :
  (requests (snd (get_embeddings_batch init embeddings_create_batch
                    texts model w))
   <= requests w + 3 * batches (len texts))%nat
  /\ get_embeddings_batch init embeddings_create_batch [] model w
     = (Return [], w).
Proof.
  split; [|reflexivity].
  unfold get_embeddings_batch.
  etransitivity; [apply batch_loop_requests|].
  rewrite range_step_batches, length_map, length_seq. lia.
Qed.

End Batch.

Lemma get_embeddings_batch_in_order_witness :
  get_embeddings_batch init (fun batch _ _ => Return (map String.length batch))
    (replicate 150 "ab"%string ++ ["c"%string]) "model"
    {| requests := 0; slept := [] |}
  = (Return (map String.length (replicate 150 "ab"%string ++ ["c"%string])),
     {| requests := 0 + batches (len (replicate 150 "ab"%string ++ ["c"%string]));
        slept := [] |}).
Proof.
  apply (get_embeddings_batch_in_order
           (fun batch _ _ => Return (map String.length batch)) String.length).
  intros batch n. reflexivity.
Defined.

End BatchExtras.

(** ** More on the vector index *)

Module VectorExtras.

Import Py VectorService VectorFacts.
Local Open Scope Z_scope.

Section WithFloats.

Context `{Floats}.

(** *** Saving, loading, clearing *)

(** X7.  A save that returns true can be loaded back: from any state of a
    service, [load_index] on the files written returns true and gives the
    service that was saved, so that every search answers as before.  A
    service without an index saves nothing and returns false. *)
Theorem save_then_load (index_write : write_outcome IndexFlatIP)
    (metadata_write : write_outcome pickled) (dk : disk)
    (self other : VectorService) :
  (fst (save_index index_write metadata_write dk self) = Return true ->
   load_index (snd (save_index index_write metadata_write dk self)) other
   = (Return true, self)
   /\ forall clock q query',
        search clock
          (snd (load_index
                  (snd (save_index index_write metadata_write dk self)) other))
          q query'
        = search clock self q query')
  /\ (index self = None ->
      save_index index_write metadata_write dk self = (Return false, dk)).
Proof.
  split.
  - unfold save_index. destruct self as [[ix|] md dn]; simpl; [|discriminate].
    destruct index_write; [|discriminate].
    destruct metadata_write; [|discriminate].
    intros _. split; [reflexivity|]. intros clock q query'. reflexivity.
  - intros Hnone. unfold save_index. rewrite Hnone. reflexivity.
Qed.

(** X8.  [clear_index] leaves the service empty in memory even when a file
    cannot be removed; when it returns, both files are gone, a later load
    finds nothing, a search finds nothing, and a second [clear_index]
    changes nothing and cannot fail. *)
Theorem clear_index_clears (index_remove metadata_remove : result unit)
    (dk : disk) (self : VectorService) :
  snd (fst (clear_index index_remove metadata_remove dk self)) = fresh
  /\ (fst (fst (clear_index index_remove metadata_remove dk self)) = Return tt ->
      let self' := snd (fst (clear_index index_remove metadata_remove dk self)) in
      let dk' := snd (clear_index index_remove metadata_remove dk self) in
      index_file dk' = None /\ metadata_file dk' = None
      /\ load_index dk' self' = (Return false, fresh)
      /\ (forall clock q query',
            exists r, search clock self' q query' = Return r
                      /\ results r = [] /\ total_results r = 0)
      /\ forall index_remove' metadata_remove',
           clear_index index_remove' metadata_remove' dk' self'
           = (Return tt, self', dk')).
Proof.
  unfold clear_index.
  destruct (index_file dk) as [fi|]; destruct index_remove as [[]|e1];
    destruct (metadata_file dk) as [fm|]; destruct metadata_remove as [[]|e2];
    simpl; (split; [reflexivity|]); try discriminate;
    intros _; (split; [reflexivity|]); (split; [reflexivity|]);
    (split; [reflexivity|]);
    (split; [intros; eexists; split; [reflexivity|]; split; reflexivity|]);
    intros; reflexivity.
Qed.

(** *** What [add_embeddings] does to the service *)

Lemma valid_embeddings_vector chunks (embeddings : gmap string (list F))
    (c : DocumentChunk) (e : list F) :
  In c chunks -> embeddings !! id c = Some e ->
  f_gt (norm e) f_zero = true ->
  In (map (fun x => f_div x (norm e)) e)
     (fst (valid_embeddings chunks embeddings)).
Proof.
  intros Hin He Hn. induction chunks as [|c0 rest IH]; [destruct Hin|].
  simpl. destruct (valid_embeddings rest embeddings) as [vs cs] eqn:Hv.
  simpl in IH. destruct Hin as [-> | Hin].
  - rewrite He, Hn. left. reflexivity.
  - specialize (IH Hin).
    destruct (embeddings !! id c0) as [e0|]; [|exact IH].
    destruct (f_gt (norm e0) f_zero); [right|]; exact IH.
Qed.

Lemma np_matrix_ok_lengths (rows : list (list F)) ncols m :
  np_matrix rows = Return (ncols, m) ->
  forall r, In r rows -> len r = ncols.
Proof.
  unfold np_matrix. destruct rows as [|r0 rest]; [intros _ r []|].
  destruct (forallb _ _) eqn:Hall; [|discriminate].
  intros [= <- _] r Hr. rewrite forallb_forall in Hall.
  apply Z.eqb_eq. apply Hall. exact Hr.
Qed.

Lemma lookup_Some_size (embeddings : gmap string (list F)) k e :
  embeddings !! k = Some e -> (size embeddings =? 0)%nat = false.
Proof.
  intros He. apply Nat.eqb_neq. intros Hz.
  apply map_size_empty_iff in Hz. rewrite Hz in He.
  rewrite lookup_empty in He. discriminate.
Qed.

(** X9.  The dimension is checked for the call as a whole.  When two
    usable chunks have embeddings of different lengths, or a usable chunk
    has an embedding whose length is not the dimension of the index, the
    call returns false and leaves the service as it was: no vector is
    added, not even for the chunks that fit. *)
Theorem add_embeddings_rejects_dimension (self : VectorService)
    (chunks : list DocumentChunk) (embeddings : gmap string (list F))
    (name : string) (c1 c2 : DocumentChunk) (e1 e2 : list F) :
  In c1 chunks -> embeddings !! id c1 = Some e1 ->
  f_gt (norm e1) f_zero = true ->
  In c2 chunks -> embeddings !! id c2 = Some e2 ->
  f_gt (norm e2) f_zero = true ->
  len e1 <> len e2 \/ (exists ix, index self = Some ix /\ len e1 <> d ix) ->
  add_embeddings self chunks embeddings name = (Return false, self).
Proof.
  intros Hin1 He1 Hn1 Hin2 He2 Hn2 Hbad.
  pose proof (valid_embeddings_vector _ _ _ _ Hin1 He1 Hn1) as Hv1.
  pose proof (valid_embeddings_vector _ _ _ _ Hin2 He2 Hn2) as Hv2.
  unfold add_embeddings, add_embeddings_body.
  rewrite (lookup_Some_size _ _ _ He1), orb_false_r.
  destruct chunks as [|c0 rest]; [destruct Hin1|]. cbn [truthy negb].
  destruct (valid_embeddings (c0 :: rest) embeddings) as [vs cs].
  simpl in Hv1, Hv2.
  destruct vs as [|v vs']; [destruct Hv1|]. cbn [truthy negb].
  destruct (np_matrix (v :: vs')) as [[ncols m]|e] eqn:Hm; [|reflexivity].
  pose proof (np_matrix_ok_lengths _ _ _ Hm _ Hv1) as L1.
  pose proof (np_matrix_ok_lengths _ _ _ Hm _ Hv2) as L2.
  unfold len in L1, L2. rewrite length_map in L1, L2.
  destruct Hbad as [Hne | (ix & Hix & Hne)]; [unfold len in Hne; lia|].
  rewrite Hix. cbn [index]. rewrite Hix. unfold index_add.
  destruct (Z.eqb_spec ncols (d ix)) as [Heq|_]; [|reflexivity].
  unfold len in Hne. lia.
Qed.

(** How a call that returns true builds the new service: on the index it
    found, or on a new one of the width of the vectors when there was
    none. *)
Definition grown (self : VectorService) (m : list (list F))
    (kept : list DocumentChunk) (name : string) (self' : VectorService)
    : Prop :=
  (exists ix,
      index self = Some ix
      /\ self' = store_metadata
                   {| index := Some {| d := d ix; xb := xb ix ++ m |};
                      chunk_metadata := chunk_metadata self;
                      document_names := document_names self |}
                   (ntotal ix) kept name)
  \/ (exists ncols,
        index self = None
        /\ self' = store_metadata
                     {| index := Some {| d := ncols; xb := m |};
                        chunk_metadata := ∅;
                        document_names := ∅ |}
                     0 kept name).

Lemma add_embeddings_outcome (self : VectorService)
    (chunks : list DocumentChunk) (embeddings : gmap string (list F))
    (name : string) :
  add_embeddings self chunks embeddings name = (Return false, self)
  \/ exists m self',
       add_embeddings self chunks embeddings name = (Return true, self')
       /\ length m = length (List.filter (usable embeddings) chunks)
       /\ List.filter (usable embeddings) chunks <> []
       /\ grown self m (List.filter (usable embeddings) chunks) name self'.
Proof.
  unfold add_embeddings, add_embeddings_body.
  pose proof (valid_embeddings_chunks chunks embeddings) as Hcs.
  pose proof (valid_embeddings_lengths chunks embeddings) as Hlen.
  destruct (valid_embeddings chunks embeddings) as [vs cs].
  simpl in Hcs, Hlen. subst cs.
  destruct (negb (truthy chunks) || (size embeddings =? 0)%nat);
    [left; reflexivity|].
  destruct vs as [|v vs']; [left; reflexivity|]. cbn [truthy negb].
  destruct (np_matrix (v :: vs')) as [[ncols m]|e] eqn:Hm; [|left; reflexivity].
  pose proof (np_matrix_rows _ _ _ Hm) as Hrows.
  assert (Hne : List.filter (usable embeddings) chunks <> []).
  { intros Hnil. rewrite Hnil in Hlen. discriminate. }
  destruct (index self) as [ix|] eqn:Hix.
  - rewrite Hix. unfold index_add.
    destruct (ncols =? d ix); [|left; reflexivity].
    right. eexists m, _. split; [reflexivity|].
    split; [congruence|]. split; [exact Hne|].
    left. exists ix. split; [exact Hix | reflexivity].
  - unfold create_index, index_add.
    cbn [index d chunk_metadata document_names]. rewrite Z.eqb_refl.
    right. eexists m, _. split; [reflexivity|].
    split; [congruence|]. split; [exact Hne|].
    right. exists ncols. split; [exact Hix | reflexivity].
Qed.

Lemma store_metadata_above self start cs name (k : Z) :
  start + len cs <= k ->
  chunk_metadata (store_metadata self start cs name) !! k
  = chunk_metadata self !! k.
Proof.
  revert self start. induction cs as [|c rest IH]; intros self start Hk; simpl;
    [reflexivity|].
  unfold len in *. simpl in Hk.
  rewrite IH by lia. simpl. apply lookup_insert_ne. lia.
Qed.

Lemma store_metadata_inside self start cs name (k : Z) :
  start <= k < start + len cs ->
  exists c, In c cs
            /\ chunk_metadata (store_metadata self start cs name) !! k = Some c.
Proof.
  intros Hk. unfold len in Hk.
  destruct (lookup_lt_is_Some_2 cs (Z.to_nat (k - start)) ltac:(lia)) as [c Hc].
  exists c. split.
  - apply list_elem_of_In. apply list_elem_of_lookup_2 in Hc. exact Hc.
  - replace k with (start + Z.of_nat (Z.to_nat (k - start))) by lia.
    apply store_metadata_lookup. exact Hc.
Qed.

Lemma store_metadata_names_kept self start cs name key :
  is_Some (document_names self !! key) ->
  is_Some (document_names (store_metadata self start cs name) !! key).
Proof.
  revert self start. induction cs as [|c rest IH]; intros self start Hs; simpl;
    [exact Hs|].
  apply IH. simpl. rewrite lookup_insert. case_decide; [eexists; reflexivity | exact Hs].
Qed.

Lemma store_metadata_names_new self start cs name c :
  In c cs ->
  is_Some (document_names (store_metadata self start cs name) !! document_id c).
Proof.
  revert self start. induction cs as [|c0 rest IH]; intros self start Hin;
    [destruct Hin|].
  simpl. destruct Hin as [-> | Hin].
  - apply store_metadata_names_kept. simpl. rewrite lookup_insert_eq.
    eexists; reflexivity.
  - apply IH. exact Hin.
Qed.

Lemma store_metadata_names_other self start cs name key :
  ~ In key (map document_id cs) ->
  document_names (store_metadata self start cs name) !! key
  = document_names self !! key.
Proof.
  revert self start. induction cs as [|c rest IH]; intros self start Hout;
    simpl; [reflexivity|].
  rewrite IH by (intros Hin; apply Hout; right; exact Hin).
  simpl. apply lookup_insert_ne. intros Heq. apply Hout. left. exact Heq.
Qed.

(** X10.  On a service that has an index, [add_embeddings] only appends:
    the dimension stays, the vectors held before are a prefix of the
    vectors held after, the chunk of every slot in use is the same, and
    the file name of every document other than those of the chunks passed
    in is the same. *)
Theorem add_embeddings_appends (self : VectorService)
    (chunks : list DocumentChunk) (embeddings : gmap string (list F))
    (name : string) (ix : IndexFlatIP) :
  index self = Some ix ->
  let self' := snd (add_embeddings self chunks embeddings name) in
  (exists ix' m,
      index self' = Some ix' /\ d ix' = d ix /\ xb ix' = xb ix ++ m)
  /\ (forall k, k < ntotal ix ->
        chunk_metadata self' !! k = chunk_metadata self !! k)
  /\ (forall key, ~ In key (map document_id chunks) ->
        document_names self' !! key = document_names self !! key).
Proof.
  intros Hix self'. subst self'.
  destruct (add_embeddings_outcome self chunks embeddings name)
    as [-> | (m & self' & -> & _ & _ & Hgrown)]; simpl.
  - split; [exists ix, []; rewrite app_nil_r; auto|]. split; reflexivity.
  - destruct Hgrown as [(ix0 & Hix0 & ->) | (ncols & Hnone & _)];
      [|congruence].
    assert (ix0 = ix) as -> by congruence.
    split; [|split].
    + eexists _, m. rewrite store_metadata_index. simpl. auto.
    + intros k Hk. rewrite store_metadata_below by exact Hk. reflexivity.
    + intros key Hout. rewrite store_metadata_names_other; [reflexivity|].
      intros Hin. apply Hout. apply in_map_iff in Hin as (c & <- & Hc).
      apply in_map. apply filter_In in Hc as [Hc _]. exact Hc.
Qed.

(** *** Slots, chunks and names agree *)

(** The slots in use are those of the vectors, and the document of every
    chunk held has a file name. *)
Definition consistent (self : VectorService) : Prop :=
  (forall k, is_Some (chunk_metadata self !! k)
             <-> 0 <= k < len (vectors self))
  /\ (forall k c, chunk_metadata self !! k = Some c ->
                  is_Some (document_names self !! document_id c)).

Lemma consistent_fresh : consistent fresh.
Proof.
  split.
  - intros k. unfold fresh, vectors, len. simpl. rewrite lookup_empty.
    split; [intros [? ?]; discriminate | lia].
  - intros k c. unfold fresh. simpl. rewrite lookup_empty. discriminate.
Qed.

Lemma consistent_stored (ix : IndexFlatIP) (md : gmap Z DocumentChunk)
    (dn : gmap string string) (m : list (list F))
    (kept : list DocumentChunk) (name : string) :
  consistent {| index := Some ix; chunk_metadata := md; document_names := dn |} ->
  length m = length kept ->
  consistent
    (store_metadata
       {| index := Some {| d := d ix; xb := xb ix ++ m |};
          chunk_metadata := md; document_names := dn |}
       (ntotal ix) kept name).
Proof.
  intros [Hslots Hnames] Hlen.
  set (base := {| index := Some {| d := d ix; xb := xb ix ++ m |};
                  chunk_metadata := md; document_names := dn |}).
  assert (Hv : len (vectors (store_metadata base (ntotal ix) kept name))
               = ntotal ix + len kept).
  { unfold vectors. rewrite store_metadata_index. simpl.
    unfold ntotal, len. rewrite length_app. lia. }
  unfold vectors, len in Hslots. simpl in Hslots.
  assert (Hn : 0 <= ntotal ix) by (unfold ntotal, len; lia).
  split.
  - intros k. rewrite Hv.
    destruct (Z.lt_ge_cases k (ntotal ix)) as [Hlow|Hhigh].
    + rewrite store_metadata_below by exact Hlow. simpl.
      rewrite Hslots. unfold ntotal, len in *. lia.
    + destruct (Z.lt_ge_cases k (ntotal ix + len kept)) as [Hin|Hout].
      * destruct (store_metadata_inside base (ntotal ix) kept name k
                    ltac:(lia)) as (c & _ & ->).
        split; [lia | eexists; reflexivity].
      * rewrite store_metadata_above by exact Hout. simpl.
        rewrite Hslots. unfold ntotal, len in *. lia.
  - intros k c Hk.
    destruct (Z.lt_ge_cases k (ntotal ix)) as [Hlow|Hhigh].
    + rewrite store_metadata_below in Hk by exact Hlow.
      apply store_metadata_names_kept. apply (Hnames k c Hk).
    + destruct (Z.lt_ge_cases k (ntotal ix + len kept)) as [Hin|Hout].
      * destruct (store_metadata_inside base (ntotal ix) kept name k
                    ltac:(lia)) as (c' & Hc' & Hk').
        rewrite Hk' in Hk. injection Hk as <-.
        apply store_metadata_names_new. exact Hc'.
      * rewrite store_metadata_above in Hk by exact Hout.
        apply store_metadata_names_kept. apply (Hnames k c Hk).
Qed.

Lemma consistent_add_embeddings (self : VectorService)
    (chunks : list DocumentChunk) (embeddings : gmap string (list F))
    (name : string) :
  consistent self ->
  consistent (snd (add_embeddings self chunks embeddings name)).
Proof.
  intros Hc.
  destruct (add_embeddings_outcome self chunks embeddings name)
    as [-> | (m & self' & -> & Hlen & _ & Hgrown)]; simpl; [exact Hc|].
  destruct Hgrown as [(ix & Hix & ->) | (ncols & Hnone & ->)].
  - apply consistent_stored; [|exact Hlen].
    destruct self as [i md dn]. simpl in Hix. subst i. exact Hc.
  - apply (consistent_stored {| d := ncols; xb := [] |} ∅ ∅ m);
      [|exact Hlen].
    split.
    + intros k. unfold vectors, len. simpl. rewrite lookup_empty.
      split; [intros [? ?]; discriminate | lia].
    + intros k c. simpl. rewrite lookup_empty. discriminate.
Qed.

(** X11.  The service keeps its slots, chunks and names in agreement: the
    empty service is consistent, and every call of [add_embeddings], of
    [clear_index] and of [create_index] on a consistent service gives a
    consistent service, as does loading what a consistent service saved. *)
Theorem consistent_kept :
  consistent fresh
  /\ (forall self chunks embeddings name,
        consistent self ->
        consistent (snd (add_embeddings self chunks embeddings name)))
  /\ (forall index_remove metadata_remove dk self,
        consistent
          (snd (fst (clear_index index_remove metadata_remove dk self))))
  /\ (forall self dimension, consistent (create_index self dimension))
  /\ (forall index_write metadata_write dk self other,
        consistent self ->
        fst (save_index index_write metadata_write dk self) = Return true ->
        consistent
          (snd (load_index
                  (snd (save_index index_write metadata_write dk self))
                  other))).
Proof.
  split; [exact consistent_fresh|]. split; [|split; [|split]].
  - exact consistent_add_embeddings.
  - intros index_remove metadata_remove dk self.
    replace (snd (fst (clear_index index_remove metadata_remove dk self)))
      with fresh; [exact consistent_fresh|].
    unfold clear_index.
    destruct (index_file dk); destruct index_remove as [[]|?];
      destruct (metadata_file dk); destruct metadata_remove as [[]|?];
      reflexivity.
  - intros self dimension. split.
    + intros k. unfold create_index, vectors, len. simpl. rewrite lookup_empty.
      split; [intros [? ?]; discriminate | lia].
    + intros k c. unfold create_index. simpl. rewrite lookup_empty.
      discriminate.
  - intros index_write metadata_write dk self other Hc.
    unfold save_index. destruct self as [[ix|] md dn]; simpl; [|discriminate].
    destruct index_write; [|discriminate].
    destruct metadata_write; [|discriminate].
    intros _. exact Hc.
Qed.

(** *** A search on a consistent service *)

(** Lines 135-138 of [search]: the query as it is given to the index. *)
Definition normalized (query_embedding : list F) : list F :=
  let v := map float32 query_embedding in
  if f_gt (norm v) f_zero then map (fun x => f_div x (norm v)) v else v.

Lemma normalized_length (q : list F) : length (normalized q) = length q.
Proof.
  unfold normalized. destruct (f_gt _ _); rewrite ?length_map; reflexivity.
Qed.

Lemma sort_hits_elem (x : F * Z) (l : list (F * Z)) :
  x ∈ sort_hits l -> x ∈ l.
Proof.
  induction l as [|h r IH]; simpl; [intros Hx; exact Hx|].
  intros Hx. apply insert_hit_elem in Hx as [-> | Hx]; [left|].
  right. apply IH. exact Hx.
Qed.

(** Every hit of [index_search] is a row of the index with its score. *)
Lemma index_search_hit (ix : IndexFlatIP) (q : list F) (k : Z)
    (hits : list (F * Z)) (h : F * Z) :
  k <= ntotal ix ->
  index_search ix q k = Return hits -> h ∈ hits ->
  exists (i : nat) row,
    xb ix !! i = Some row /\ h = (inner q row, Z.of_nat i).
Proof.
  intros Hk. unfold index_search.
  destruct (negb (len q =? d ix)); [discriminate|].
  rewrite Z.gtb_ltb. destruct (Z.ltb_spec 0 k); [|discriminate].
  simpl. intros [= <-] Hh.
  set (scored := imap (fun i row => (inner q row, Z.of_nat i)) (xb ix)) in *.
  assert (Hlen : length (take (Z.to_nat k) (sort_hits scored)) = Z.to_nat k).
  { apply length_take_le. rewrite sort_hits_length. unfold scored.
    rewrite length_imap. unfold ntotal, len in Hk. lia. }
  rewrite Hlen, Nat.sub_diag in Hh. simpl in Hh. rewrite app_nil_r in Hh.
  apply elem_of_take in Hh as (j & Hj & _).
  apply list_elem_of_lookup_2 in Hj. apply sort_hits_elem in Hj.
  apply list_elem_of_lookup in Hj as [i Hi]. unfold scored in Hi.
  rewrite list_lookup_imap in Hi.
  destruct (xb ix !! i) as [row|] eqn:Hrow; [|discriminate].
  simpl in Hi. injection Hi as <-. exists i, row.
  split; [exact Hrow | reflexivity].
Qed.

Definition name_known (self : VectorService) (r : SearchResult) : Prop :=
  document_names self !! document_id (chunk r) = Some (document_name r).

Lemma build_results_all (self : VectorService) (query' : SearchQuery)
    (hits : list (F * Z)) :
  consistent self ->
  (forall h, h ∈ hits ->
     0 <= snd h < len (vectors self)
     /\ score_passes (fst h) (relevance_threshold query') = true) ->
  length (build_results self query' hits) = length hits
  /\ Forall (name_known self) (build_results self query' hits).
Proof.
  intros [Hslots Hnames]. induction hits as [|[score idx] rest IH]; intros Hh.
  - split; [reflexivity | constructor].
  - destruct IH as [IHlen IHall].
    { intros h Hin. apply Hh. right. exact Hin. }
    destruct (Hh (score, idx) ltac:(left)) as [Hidx Hge]. simpl in Hidx, Hge.
    simpl. destruct (Z.eqb_spec idx (-1)); [lia|]. rewrite Hge.
    destruct (proj2 (Hslots idx) Hidx) as [c Hc]. rewrite Hc.
    split; [simpl; rewrite IHlen; reflexivity|].
    constructor; [|exact IHall].
    unfold name_known. simpl.
    destruct (Hnames idx c Hc) as [nm Hnm]. rewrite Hnm. reflexivity.
Qed.

(** X12.  On a consistent service with vectors, a query of the dimension
    of the index with [top_k > 0] gets exactly [min(top_k, ntotal)] results
    when no stored vector scores below the threshold, in the comparison of
    the code, which is made in single precision: no hit is lost for a
    missing chunk, and every result carries the file name stored for its
    document, never the placeholder. *)
Theorem search_finds_all (clock : nat -> F) (self : VectorService)
    (query_embedding : list F) (query' : SearchQuery) (ix : IndexFlatIP) :
  consistent self ->
  index self = Some ix -> ntotal ix <> 0 ->
  len query_embedding = d ix ->
  0 < top_k query' ->
  (forall row, In row (xb ix) ->
     f_ge (inner (normalized query_embedding) row)
          (float32 (relevance_threshold query')) = true) ->
  exists r,
    search clock self query_embedding query' = Return r
    /\ len (results r) = Z.min (top_k query') (ntotal ix)
    /\ total_results r = len (results r)
    /\ Forall (name_known self) (results r).
Proof.
  intros Hc Hix Hn Hdim Htop Hthr. unfold search. rewrite Hix. simpl.
  destruct (Z.eqb_spec (ntotal ix) 0) as [|_]; [contradiction|].
  fold (normalized query_embedding).
  destruct (index_search ix (normalized query_embedding)
              (Z.min (top_k query') (ntotal ix))) as [hits|e] eqn:Hsearch.
  2:{ exfalso. unfold index_search in Hsearch.
      assert (Hq : len (normalized query_embedding) = d ix).
      { unfold len in *. rewrite normalized_length. exact Hdim. }
      rewrite Hq, Z.eqb_refl in Hsearch. simpl in Hsearch.
      rewrite Z.gtb_ltb in Hsearch.
      assert (0 < ntotal ix) by (unfold ntotal, len in *; lia).
      destruct (Z.ltb_spec 0 (Z.min (top_k query') (ntotal ix))); [|lia].
      discriminate. }
  simpl. eexists. split; [reflexivity|]. simpl.
  destruct (build_results_all self query' hits Hc) as [Hlen Hall].
  { intros h Hh.
    destruct (index_search_hit ix _ _ hits h (Z.le_min_r _ _) Hsearch Hh)
      as (i & row & Hrow & ->). simpl. split.
    - unfold vectors. rewrite Hix. apply lookup_lt_Some in Hrow.
      unfold len. lia.
    - apply Hthr. apply list_elem_of_In.
      apply list_elem_of_lookup_2 in Hrow. exact Hrow. }
  split; [|split; [reflexivity | exact Hall]].
  unfold len. rewrite Hlen.
  assert (Hk : len hits = Z.min (top_k query') (ntotal ix)).
  { unfold index_search in Hsearch.
    destruct (negb (len _ =? d ix)); [discriminate|].
    destruct (negb (_ >? 0)); [discriminate|].
    injection Hsearch as <-. unfold len. rewrite length_app, length_replicate.
    rewrite length_take, sort_hits_length, length_imap.
    unfold ntotal, len in *. lia. }
  exact Hk.
Qed.

End WithFloats.

End VectorExtras.

Module VectorExtraExamples.

Import Py VectorService VectorFacts VectorExamples VectorExtras.
Local Open Scope Z_scope.

Definition chunk_three : DocumentChunk :=
  {| id := "three"; document_id := "doc-2"; chunk_index := 0;
     content := str "text"; start_char := 0; end_char := 4;
     page_number := None; metadata := [] |}.

(** An embedding of three components for an index of dimension two. *)
Definition embeddings_three : gmap string (list Z) :=
  <["three"%string := [1000; 0; 0]]> embeddings_ab.

Lemma add_embeddings_rejects_dimension_witness :
  add_embeddings (H := fixed_point) library [chunk_a; chunk_three]
    embeddings_three "b.pdf"
  = (Return false, library).
Proof.
  apply (@add_embeddings_rejects_dimension fixed_point library
           [chunk_a; chunk_three] embeddings_three "b.pdf"
           chunk_three chunk_three [1000; 0; 0] [1000; 0; 0]);
    try reflexivity; try (right; left; reflexivity).
  right. exists (@mkIndexFlatIP fixed_point 2 [[1000; 0]; [0; 1000]]).
  split; [reflexivity | discriminate].
Defined.

Lemma add_embeddings_appends_witness :
  let self' :=
    snd (add_embeddings (H := fixed_point) library [chunk_three]
           (<["three"%string := [0; 2000]]> embeddings_ab) "b.pdf") in
  (exists ix' m,
      index self' = Some ix' /\ d ix' = 2 /\ xb ix' = [[1000; 0]; [0; 1000]] ++ m)
  /\ (forall k, k < 2 ->
        chunk_metadata self' !! k = chunk_metadata library !! k)
  /\ (forall key, ~ In key (map document_id [chunk_three]) ->
        document_names self' !! key = document_names library !! key).
Proof.
  exact (@add_embeddings_appends fixed_point library [chunk_three]
           (<["three"%string := [0; 2000]]> embeddings_ab) "b.pdf"
           (@mkIndexFlatIP fixed_point 2 [[1000; 0]; [0; 1000]]) eq_refl).
Defined.

Lemma library_consistent : consistent (H := fixed_point) library.
Proof. apply consistent_add_embeddings. apply consistent_fresh. Qed.

Lemma search_finds_all_witness :
  exists r,
    search (H := fixed_point) clock_0_5 library [900; 100] query_top2 = Return r
    /\ len (results r) = Z.min 2 2
    /\ total_results r = len (results r)
    /\ Forall (name_known library) (results r).
Proof.
  apply (@search_finds_all fixed_point clock_0_5 library [900; 100] query_top2
           (@mkIndexFlatIP fixed_point 2 [[1000; 0]; [0; 1000]])).
  - exact library_consistent.
  - reflexivity.
  - discriminate.
  - reflexivity.
  - reflexivity.
  - intros row [<- | [<- | []]]; reflexivity.
Defined.

End VectorExtraExamples.

(** ** More on the orchestrator *)

Module RAGExtras.

Import Py RAGService RAGFacts.
Local Open Scope Z_scope.

Lemma length_text (s : list ascii) : String.length (text s) = length s.
Proof.
  unfold text. induction s as [|c r IH]; simpl; [reflexivity|].
  rewrite IH. reflexivity.
Qed.

Lemma length_append (a b : string) :
  String.length (a +:+ b) = (String.length a + String.length b)%nat.
Proof.
  induction a as [|c a IH]; simpl; [reflexivity|]. rewrite IH. reflexivity.
Qed.

Section WithFloats.

Context `{Floats}.

(** X13.  The content shown in a citation has at most 203 characters: it
    is the content of the chunk when that has at most 200 characters, and
    otherwise its first 200 characters followed by three dots.  The
    citation names the chunk, its document and its score. *)
Theorem citation_is_short (result' : SearchResult) :
  (String.length (citation_content (citation result')) <= 203)%nat
  /\ (len (content (chunk result')) <= 200 ->
      citation_content (citation result') = text (content (chunk result')))
  /\ (200 < len (content (chunk result')) ->
      String.length (citation_content (citation result')) = 203%nat
      /\ citation_content (citation result')
         = text (take 200 (content (chunk result'))) +:+ "...")
  /\ chunk_id (citation result') = id (chunk result')
  /\ citation_document_id (citation result') = document_id (chunk result')
  /\ citation_relevance_score (citation result') = relevance_score result'.
Proof.
  unfold citation. cbn [citation_content chunk_id citation_document_id
                          citation_relevance_score].
  set (c := content (chunk result')).
  assert (Hlong : 200 < len c ->
            text (slice_to c 200) = text (take 200 c)
            /\ String.length (text (slice_to c 200) +:+ "...") = 203%nat).
  { intros Hl. unfold slice_to, slice_index.
    destruct (Z.ltb_spec 200 0); [lia|]. rewrite Z.min_l by lia.
    change (Z.to_nat 200) with 200%nat. split; [reflexivity|].
    rewrite length_append, length_text, length_take.
    change (String.length "...") with 3%nat. unfold len in Hl. lia. }
  rewrite Z.gtb_ltb. destruct (Z.ltb_spec 200 (len c)) as [Hl|Hs].
  - destruct (Hlong Hl) as [Ht Hn]. split; [lia|]. split; [lia|].
    split; [|auto]. intros _. split; [exact Hn|]. rewrite Ht. reflexivity.
  - split; [rewrite length_text; unfold len in Hs; lia|].
    split; [reflexivity|]. split; [lia | auto].
Qed.

(** The last [n] elements of a history. *)
Definition recent (n : nat) (history : option (list (string * string)))
    : list (string * string) :=
  match history with
  | Some h => drop (length h - n) h
  | None => []
  end.

(** X14.  The messages sent to the model are the system prompt, then the
    last six messages of the history in order (all of them when there are
    fewer, none without a history), then one user message built from the
    context and the query: at most eight messages. *)
Theorem prompt_messages_shape (search_response : SearchResponse)
    (query' : string) (history : option (list (string * string))) :
  exists context_text,
    prompt_messages search_response query' history
    = ("system"%string, system_prompt) :: recent 6 history
      ++ [("user"%string, user_message context_text query')]
    /\ (length (recent 6 history) <= 6)%nat
    /\ (length (prompt_messages search_response query' history) <= 8)%nat.
Proof.
  eexists.
  assert (Hrecent : forall h : list (string * string),
            slice_from h (-6) = drop (length h - 6) h).
  { intros h. unfold slice_from, slice_index, len. simpl.
    f_equal. lia. }
  assert (Hlen : (length (recent 6 history) <= 6)%nat).
  { destruct history as [h|]; simpl; [|lia]. rewrite length_drop. lia. }
  assert (Heq : prompt_messages search_response query' history
                = ("system"%string, system_prompt) :: recent 6 history
                  ++ [("user"%string,
                       user_message
                         (_build_context_text
                            (map (fun r => (content (chunk r), document_name r,
                                            relevance_score r))
                                 (results search_response))) query')]).
  { unfold prompt_messages. destruct history as [[|m h]|]; cbn [recent].
    - reflexivity.
    - rewrite Hrecent. reflexivity.
    - reflexivity. }
  split; [exact Heq|]. split; [exact Hlen|].
  rewrite Heq. cbn [length]. rewrite length_app. cbn [length]. lia.
Qed.

Variable settings : Settings.
Variable get_embedding : string -> string -> result (list F).
Variable search : list F -> SearchQuery -> result SearchResponse.
Variable chat_completion :
  list (string * string) -> string -> F -> Z
  -> result (option string * token_counts).
Variable content_error : exn.
Variable clock : nat -> F.

(** Every step of the pipeline returns, the completion with a content. *)
Definition steps_return (query' : string)
    (history : option (list (string * string)))
    (search_response : SearchResponse) (response_text : string)
    (usage : token_counts) : Prop :=
  exists v,
    get_embedding query' (embedding_model settings) = Return v
    /\ search v (search_query_of settings query') = Return search_response
    /\ chat_completion (prompt_messages search_response query' history)
         (chat_model settings) (temperature settings) (max_tokens settings)
       = Return (Some response_text, usage).

(** Every step returns, the completion without a content. *)
Definition no_content (query' : string)
    (history : option (list (string * string))) : Prop :=
  exists v search_response usage,
    get_embedding query' (embedding_model settings) = Return v
    /\ search v (search_query_of settings query') = Return search_response
    /\ chat_completion (prompt_messages search_response query' history)
         (chat_model settings) (temperature settings) (max_tokens settings)
       = Return (None, usage).

(** X15.  A response of [generate_response] tells whether the pipeline
    failed: its token usage is absent exactly when a step raised or the
    completion came without a content.  In the second case the response is
    the apology with the error of the response constructor, timed at the
    third reading of the clock.  Otherwise the response carries the text
    and the usage of the completion and one citation for each search
    result, in the order of the results. *)
Theorem token_usage_tells (query' : string)
    (history : option (list (string * string))) :
  exists r,
    generate_response settings get_embedding search chat_completion
      content_error clock query' history = Return r
    /\ (token_usage r = None <->
        (exists e, step_fails settings get_embedding search chat_completion
                     query' history e)
        \/ no_content query' history)
    /\ (no_content query' history ->
        r = {| response_content := apology content_error; sources := [];
               response_time := f_sub (clock 2%nat) (clock O);
               token_usage := None |})
    /\ (forall usage,
          token_usage r = Some usage ->
          exists search_response,
            steps_return query' history search_response
              (response_content r) usage
            /\ sources r = map citation (results search_response)
            /\ map chunk_id (sources r)
               = map (fun x => id (chunk x)) (results search_response)).
Proof.
  unfold generate_response, generate_response_body, step_fails, steps_return,
    no_content.
  destruct (get_embedding query' (embedding_model settings)) as [v|e] eqn:Hemb.
  2:{ eexists. split; [reflexivity|]. simpl.
      split; [|split; [|discriminate]].
      - split; [intros _; left; exists e; left; reflexivity | reflexivity].
      - intros (v & sr & usage & Hv & _). discriminate Hv. }
  destruct (search v (search_query_of settings query')) as [sr|e] eqn:Hsearch.
  2:{ eexists. split; [reflexivity|]. simpl.
      split; [|split; [|discriminate]].
      - split; [|reflexivity]. intros _. left. exists e. right. left.
        exists v. split; [reflexivity | exact Hsearch].
      - intros (v' & sr & usage & [= <-] & Hs & _). congruence. }
  destruct (chat_completion _ _ _ _) as [[[text'|] usage]|e] eqn:Hchat.
  - eexists. split; [reflexivity|]. simpl. split; [|split].
    + split; [discriminate|].
      intros [(e & [He | [(v' & He & Hs) | (v' & sr' & He & Hs & Hc)]])
             | (v' & sr' & usage' & He & Hs & Hc)].
      * discriminate.
      * injection He as <-. congruence.
      * injection He as <-. rewrite Hsearch in Hs. injection Hs as <-.
        congruence.
      * injection He as <-. rewrite Hsearch in Hs. injection Hs as <-.
        congruence.
    + intros (v' & sr' & usage' & He & Hs & Hc).
      injection He as <-. rewrite Hsearch in Hs. injection Hs as <-.
      congruence.
    + intros usage' [= <-]. exists sr. split.
      * exists v. split; [reflexivity|]. split; [exact Hsearch | exact Hchat].
      * split; [reflexivity|]. rewrite map_map. reflexivity.
  - eexists. split; [reflexivity|]. simpl. split; [|split; [|discriminate]].
    + split; [|reflexivity]. intros _. right.
      exists v, sr, usage. split; [reflexivity|].
      split; [exact Hsearch | exact Hchat].
    + intros _. reflexivity.
  - eexists. split; [reflexivity|]. simpl. split; [|split; [|discriminate]].
    + split; [|reflexivity]. intros _. left. exists e. right. right.
      exists v, sr. split; [reflexivity|]. split; [exact Hsearch | exact Hchat].
    + intros (v' & sr' & usage' & He & Hs & Hc).
      injection He as <-. rewrite Hsearch in Hs. injection Hs as <-.
      congruence.
Qed.

End WithFloats.

End RAGExtras.

(** ** More on the chat sessions *)

Module ChatExtras.

Import Py ChatService ChatFacts.
Local Open Scope Z_scope.

(** X16.  [get_recent_messages(count)] returns the last [count] messages
    for a count of at least one (all of them when there are fewer).  For a
    count of zero it returns every message, since [-0] is [0]; for a
    negative count it drops the first [-count] messages. *)
Theorem get_recent_messages_counts (session : ConversationSession)
    (count : Z) :
  (1 <= count ->
   get_recent_messages session count
   = last_n (Z.to_nat count) (messages session))
  /\ (count = 0 -> get_recent_messages session count = messages session)
  /\ (count < 0 ->
      get_recent_messages session count
      = drop (Z.to_nat (- count)) (messages session)).
Proof.
  unfold get_recent_messages, slice_from, slice_index, last_n, len.
  destruct (messages session) as [|m l] eqn:Hm.
  - simpl. repeat split; intros; rewrite ?drop_nil; reflexivity.
  - rewrite <- Hm. assert (Ht : truthy (messages session) = true)
      by (rewrite Hm; reflexivity).
    rewrite Ht. repeat split; intros Hc.
    + destruct (Z.ltb_spec (- count) 0); [|lia]. f_equal. lia.
    + subst count. change (- 0) with 0. change (0 <? 0) with false.
      cbv iota. rewrite Z.min_l by lia. reflexivity.
    + destruct (Z.ltb_spec (- count) 0); [lia|].
      destruct (Z.le_gt_cases (- count) (Z.of_nat (length (messages session))))
        as [Hle|Hgt].
      * rewrite Z.min_l by lia. reflexivity.
      * rewrite Z.min_r by lia. rewrite Nat2Z.id.
        rewrite !drop_ge by lia. reflexivity.
Qed.

(** The session that a call of [clear_session] addresses: the one named,
    or the current one when no name (or an empty one) is given. *)
Definition addressed (self : ChatService) (session_id' : option string)
    : option string :=
  let current :=
    match current_session_id self with
    | Some sid => if str_truthy sid then Some sid else None
    | None => None
    end in
  match session_id' with
  | Some sid => if str_truthy sid then Some sid else current
  | None => current
  end.

Lemma clear_session_addressed (self : ChatService)
    (session_id' : option string) :
  clear_session self session_id'
  = match addressed self session_id' with
    | Some sid => clear_named self sid
    | None => (false, self)
    end.
Proof.
  unfold clear_session, addressed.
  destruct session_id' as [sid|]; [destruct (str_truthy sid)|];
    try reflexivity;
    destruct (current_session_id self) as [c|]; try reflexivity;
    destruct (str_truthy c); reflexivity.
Qed.

Lemma clear_named_absent (self : ChatService) (sid : string) :
  sessions (snd (clear_named self sid)) !! sid = None.
Proof.
  unfold clear_named. destruct (sessions self !! sid) eqn:Hs; simpl.
  - apply lookup_delete_eq.
  - exact Hs.
Qed.

(** After a session is cleared, no call can address one that is stored
    under the same arguments. *)
Lemma cleared_again (self : ChatService) (session_id' : option string)
    (sid : string) :
  addressed (snd (clear_session self session_id')) session_id' = Some sid ->
  sessions (snd (clear_session self session_id')) !! sid = None.
Proof.
  rewrite clear_session_addressed.
  destruct (addressed self session_id') as [a|] eqn:Ha.
  - unfold addressed in *.
    destruct session_id' as [s|]; [destruct (str_truthy s) eqn:Hs|].
    + injection Ha as ->. intros [= <-]. apply clear_named_absent.
    + unfold clear_named.
      destruct (current_session_id self) as [c|] eqn:Hc; [|discriminate].
      destruct (str_truthy c) eqn:Htc; [|discriminate].
      injection Ha as ->.
      destruct (sessions self !! a) eqn:Hl; simpl.
      * rewrite ?Hc. rewrite decide_True by reflexivity. discriminate.
      * rewrite ?Hc, ?Htc. intros [= <-]. exact Hl.
    + unfold clear_named.
      destruct (current_session_id self) as [c|] eqn:Hc; [|discriminate].
      destruct (str_truthy c) eqn:Htc; [|discriminate].
      injection Ha as ->.
      destruct (sessions self !! a) eqn:Hl; simpl.
      * rewrite ?Hc. rewrite decide_True by reflexivity. discriminate.
      * rewrite ?Hc, ?Htc. intros [= <-]. exact Hl.
  - simpl. rewrite Ha. discriminate.
Qed.

(** X17.  [clear_session] returns true exactly when the session it
    addresses is stored.  It then removes that session and no other, and
    leaves no current session if that was the current one; otherwise it
    changes nothing.  The same call made again returns false. *)
Theorem clear_session_removes (self : ChatService)
    (session_id' : option string) :
  let out := clear_session self session_id' in
  (fst out = true <->
   exists sid, addressed self session_id' = Some sid
               /\ is_Some (sessions self !! sid))
  /\ (fst out = false -> snd out = self)
  /\ (forall sid,
        addressed self session_id' = Some sid ->
        sessions (snd out) !! sid = None
        /\ (forall k, k <> sid -> sessions (snd out) !! k = sessions self !! k)
        /\ (fst out = true ->
            current_session_id (snd out)
            = if decide (current_session_id self = Some sid) then None
              else current_session_id self))
  /\ fst (clear_session (snd out) session_id') = false.
Proof.
  cbv zeta. split; [|split; [|split]].
  - rewrite clear_session_addressed.
    destruct (addressed self session_id') as [a|]; simpl.
    + unfold clear_named. destruct (sessions self !! a) eqn:Hl; simpl.
      * split; [|reflexivity]. intros _. exists a.
        split; [reflexivity|]. rewrite Hl. eexists. reflexivity.
      * split; [discriminate|]. intros (sid & [= <-] & [x Hx]). congruence.
    + split; [discriminate|]. intros (sid & Hsid & _). discriminate.
  - rewrite clear_session_addressed.
    destruct (addressed self session_id') as [a|]; simpl; [|reflexivity].
    unfold clear_named. destruct (sessions self !! a); simpl;
      [discriminate | reflexivity].
  - intros sid Ha. rewrite clear_session_addressed, Ha.
    split; [apply clear_named_absent|].
    unfold clear_named. destruct (sessions self !! sid) eqn:Hl; simpl.
    + split; [|reflexivity]. intros k Hk. apply lookup_delete_ne. congruence.
    + split; [reflexivity | discriminate].
  - pose proof (cleared_again self session_id') as Hagain.
    rewrite (clear_session_addressed (snd (clear_session self session_id'))).
    destruct (addressed (snd (clear_session self session_id')) session_id')
      as [a|]; [|reflexivity].
    unfold clear_named. rewrite (Hagain a eq_refl). reflexivity.
Qed.

Section WithFloats.

Context `{Floats}.

Variable uuid4 : nat -> string.
Variable generate_response :
  string -> list (string * string) -> result ChatResponse.

(** What [send_message] returns and leaves behind, by the session that
    it resolves. *)
Lemma send_message_outcome (self : ChatService) (message : string)
    (session_id' : option string) :
  let resolved := resolve_session uuid4 self session_id' in
  let key := fst (fst resolved) in
  let session := snd (fst resolved) in
  let out := send_message uuid4 generate_response self message session_id' in
  sessions (snd (fst out))
  = <[key := {| session_id := session_id session;
                messages :=
                  messages session
                  ++ [ {| message_content := message; role := "user" |};
                       {| message_content := response_content (fst (fst out));
                          role := "assistant" |} ] |}]>
      (sessions (snd resolved))
  /\ current_session_id (snd (fst out)) = current_session_id (snd resolved)
  /\ uuids (snd (fst out)) = uuids (snd resolved).
Proof.
  cbv zeta. unfold send_message.
  destruct (resolve_session uuid4 self session_id') as [[key session] self1].
  unfold add_message, put_session. cbn [fst snd session_id messages].
  destruct (generate_response message _) as [r|e];
    cbn [fst snd sessions current_session_id uuids response_content
         session_id messages];
    rewrite insert_insert_eq, <- app_assoc; repeat split; reflexivity.
Qed.

(** The session that [resolve_session] gives is a stored one, and the
    service is as it was; or it is a new, empty one, made by
    [create_session]. *)
Lemma resolve_session_cases (self : ChatService)
    (session_id' : option string) :
  let resolved := resolve_session uuid4 self session_id' in
  let key := fst (fst resolved) in
  let session := snd (fst resolved) in
  (sessions self !! key = Some session
   /\ snd resolved = self
   /\ ((exists sid, session_id' = Some sid /\ str_truthy sid = true
                    /\ key = sid)
       \/ ((forall sid, session_id' = Some sid -> str_truthy sid = false)
           /\ current_session_id self = Some key)))
  \/ (session = {| session_id := key; messages := [] |}
      /\ key = uuid4 (uuids self)
      /\ snd resolved = snd (create_session uuid4 self)).
Proof.
  cbv zeta. unfold resolve_session, get_session.
  assert (Hnew : forall r,
            r = created (create_session uuid4 self) ->
            snd (fst r) = {| session_id := fst (fst r); messages := [] |}
            /\ fst (fst r) = uuid4 (uuids self)
            /\ snd r = snd (create_session uuid4 self)).
  { intros r ->. repeat split. }
  assert (Hcur : forall only_current : (forall sid, session_id' = Some sid ->
                                          str_truthy sid = false),
            let r := get_current_session uuid4 self in
            (sessions self !! fst (fst r) = Some (snd (fst r))
             /\ snd r = self
             /\ ((exists sid, session_id' = Some sid /\ str_truthy sid = true
                              /\ fst (fst r) = sid)
                 \/ ((forall sid, session_id' = Some sid ->
                                  str_truthy sid = false)
                     /\ current_session_id self = Some (fst (fst r)))))
            \/ (snd (fst r) = {| session_id := fst (fst r); messages := [] |}
                /\ fst (fst r) = uuid4 (uuids self)
                /\ snd r = snd (create_session uuid4 self))).
  { intros only_current. cbv zeta. unfold get_current_session.
    destruct (current_session_id self) as [c|] eqn:Hc;
      [|right; apply Hnew; reflexivity].
    destruct (str_truthy c); [|right; apply Hnew; reflexivity].
    destruct (sessions self !! c) as [session|] eqn:Hl;
      [|right; apply Hnew; reflexivity].
    left. cbn [fst snd]. split; [exact Hl|]. split; [reflexivity|].
    right. split; [exact only_current | reflexivity]. }
  destruct session_id' as [sid|].
  - destruct (str_truthy sid) eqn:Ht.
    + destruct (sessions self !! sid) as [session|] eqn:Hl.
      * left. cbn [fst snd]. split; [exact Hl|]. split; [reflexivity|].
        left. exists sid. repeat split. exact Ht.
      * right. apply Hnew. reflexivity.
    + apply Hcur. intros sid' [= <-]. exact Ht.
  - apply Hcur. intros sid' Hs. discriminate Hs.
Qed.

(** X18.  [send_message] appends two messages to the session it resolves:
    the user's message, then an assistant message with the content of the
    response that it returns.  This holds also when the orchestrator
    raises; the response is then an apology with the text of the error and
    no sources.  No other session is changed from what it was before the
    call.  The session is one that was stored, and the current session id
    is then as before the call; or it is a new, empty session, made because
    the id given is not stored or there is no current session to go to, and
    it is then the current session.  A message for a stored session named
    by id leaves the current session id as it was; a message without an id
    goes to the current session. *)
Theorem send_message_appends (self : ChatService) (message : string)
    (session_id' : option string) :
  let resolved := resolve_session uuid4 self session_id' in
  let key := fst (fst resolved) in
  let session := snd (fst resolved) in
  let out := send_message uuid4 generate_response self message session_id' in
  let response := fst (fst out) in
  let after := snd (fst out) in
  sessions after !! key
  = Some {| session_id := session_id session;
            messages :=
              messages session
              ++ [ {| message_content := message; role := "user" |};
                   {| message_content := response_content response;
                      role := "assistant" |} ] |}
  /\ (forall k, k <> key -> sessions after !! k = sessions self !! k)
  /\ (sessions self !! key = Some session
      /\ current_session_id after = current_session_id self
      \/ session = {| session_id := key; messages := [] |}
         /\ key = uuid4 (uuids self)
         /\ current_session_id after = Some key)
  /\ (forall sid stored,
        session_id' = Some sid -> str_truthy sid = true ->
        sessions self !! sid = Some stored ->
        key = sid /\ session = stored
        /\ current_session_id after = current_session_id self)
  /\ ((forall sid, session_id' = Some sid -> str_truthy sid = false) ->
      current_session_id after = Some key)
  /\ (forall r,
        generate_response message (conversation_history
                                     (snd (add_message session message "user")))
        = Return r ->
        response = r)
  /\ (forall e,
        generate_response message (conversation_history
                                     (snd (add_message session message "user")))
        = Raise e ->
        response = {| response_content := error_response e; sources := [];
                      response_time := f_zero; token_usage := None |}).
Proof.
  cbv zeta.
  destruct (send_message_outcome self message session_id')
    as (Hs & Hc & _).
  pose proof (resolve_session_cases self session_id') as Hcases.
  cbv zeta in Hcases.
  rewrite Hs. split; [apply lookup_insert_eq|].
  split.
  { intros k Hk. rewrite lookup_insert_ne by congruence.
    destruct Hcases as [(_ & -> & _) | (_ & Hkey & ->)]; [reflexivity|].
    unfold create_session. cbn [snd sessions session_id].
    apply lookup_insert_ne. congruence. }
  split.
  { rewrite Hc.
    destruct Hcases as [(Hl & -> & _) | (Hnew & Hkey & ->)].
    - left. split; [exact Hl | reflexivity].
    - right. split; [exact Hnew|]. split; [exact Hkey|].
      unfold create_session. cbn [snd current_session_id session_id].
      rewrite Hkey. reflexivity. }
  split.
  { intros sid stored -> Ht Hl. rewrite Hc. unfold resolve_session, get_session.
    rewrite Ht, Hl. cbn [fst snd]. repeat split. }
  split.
  { intros Honly. rewrite Hc.
    destruct Hcases as [(Hl & -> & [(sid & Hsid & Ht & _) | (_ & Hcur)])
                       | (_ & Hkey & ->)].
    - rewrite (Honly sid Hsid) in Ht. discriminate Ht.
    - exact Hcur.
    - unfold create_session. cbn [snd current_session_id session_id].
      rewrite Hkey. reflexivity. }
  unfold send_message.
  destruct (resolve_session uuid4 self session_id') as [[key session] self1].
  cbn [fst snd]. unfold add_message at 1 3. cbn [fst snd].
  unfold add_message.
  split.
  - intros r Hr. cbn [snd] in Hr. rewrite Hr. reflexivity.
  - intros e He. cbn [snd] in He. rewrite He. reflexivity.
Qed.

(** [uuid4] never returns the empty string. *)
Definition uuid4_not_empty : Prop := forall n, uuid4 n <> EmptyString.

Lemma str_truthy_not_empty (s : string) :
  s <> EmptyString -> str_truthy s = true.
Proof. destruct s; [congruence | reflexivity]. Qed.

(** X19.  [get_current_session] returns a session that is stored under
    the returned key and is the current one, and it creates at most one
    session; called again, it returns the same session and changes
    nothing. *)
Theorem get_current_session_stable (self : ChatService) :
  uuid4_not_empty ->
  let out := get_current_session uuid4 self in
  sessions (snd out) !! fst (fst out) = Some (snd (fst out))
  /\ current_session_id (snd out) = Some (fst (fst out))
  /\ (uuids (snd out) <= S (uuids self))%nat
  /\ get_current_session uuid4 (snd out) = out.
Proof.
  intros Huuid. cbv zeta.
  assert (Hnew : forall s : ChatService,
            let out := created (create_session uuid4 s) in
            sessions (snd out) !! fst (fst out) = Some (snd (fst out))
            /\ current_session_id (snd out) = Some (fst (fst out))
            /\ (uuids (snd out) <= S (uuids s))%nat
            /\ get_current_session uuid4 (snd out) = out).
  { intros s. cbv zeta. unfold created, create_session, get_current_session.
    cbn [fst snd sessions current_session_id uuids session_id].
    rewrite lookup_insert_eq, (str_truthy_not_empty _ (Huuid _)).
    repeat split. lia. }
  assert (Hcase : get_current_session uuid4 self
                  = created (create_session uuid4 self)
                  \/ exists sid session,
                       get_current_session uuid4 self = (sid, session, self)
                       /\ current_session_id self = Some sid
                       /\ str_truthy sid = true
                       /\ sessions self !! sid = Some session).
  { unfold get_current_session.
    destruct (current_session_id self) as [sid|]; [|left; reflexivity].
    destruct (str_truthy sid) eqn:Ht; [|left; reflexivity].
    destruct (sessions self !! sid) as [session|] eqn:Hl;
      [|left; reflexivity].
    right. exists sid, session. repeat split; assumption. }
  destruct Hcase as [-> | (sid & session & Hg & Hc & Ht & Hl)];
    [apply Hnew|].
  rewrite Hg. cbn [fst snd]. rewrite Hg.
  repeat split; [exact Hl | exact Hc | lia].
Qed.

(** *** The message counters

    A history made of pairs: a user message, then an assistant message. *)
Inductive paired : list ChatMessage -> Prop :=
  | paired_nil : paired []
  | paired_snoc (l : list ChatMessage) (u a : ChatMessage) :
      paired l -> role u = "user"%string -> role a = "assistant"%string ->
      paired (l ++ [u; a]).

(** Every session is stored under its own id and holds pairs, and the
    current session id, when set, names a stored session. *)
Definition sound (self : ChatService) : Prop :=
  map_Forall (fun k s => session_id s = k /\ paired (messages s))
             (sessions self)
  /\ (forall sid, current_session_id self = Some sid ->
                  is_Some (sessions self !! sid)).

(** The states of a service that its methods reach from a new one. *)
Inductive reachable : ChatService -> Prop :=
  | reach_new : reachable new_service
  | reach_create_session (self : ChatService) :
      reachable self -> reachable (snd (create_session uuid4 self))
  | reach_get_current_session (self : ChatService) :
      reachable self -> reachable (snd (get_current_session uuid4 self))
  | reach_send_message (self : ChatService) (message : string)
      (session_id' : option string) :
      reachable self ->
      reachable (snd (fst (send_message uuid4 generate_response self message
                             session_id')))
  | reach_clear_session (self : ChatService) (session_id' : option string) :
      reachable self -> reachable (snd (clear_session self session_id'))
  | reach_clear_all_sessions (self : ChatService) :
      reachable self -> reachable (clear_all_sessions self)
  | reach_get_session_history (self : ChatService)
      (session_id' : option string) :
      reachable self ->
      reachable (snd (get_session_history uuid4 self session_id')).

Lemma sound_create_session (self : ChatService) :
  sound self ->
  let out := create_session uuid4 self in
  sound (snd out) /\ sessions (snd out) !! session_id (fst out) = Some (fst out).
Proof.
  intros [Hall Hcur]. cbv zeta. unfold create_session, sound.
  cbn [fst snd sessions current_session_id session_id].
  split; [split|].
  - apply map_Forall_insert_2; [|exact Hall].
    split; [reflexivity | constructor].
  - intros sid [= <-]. rewrite lookup_insert_eq. eexists. reflexivity.
  - apply lookup_insert_eq.
Qed.

Lemma sound_get_current_session (self : ChatService) :
  sound self ->
  let out := get_current_session uuid4 self in
  sound (snd out) /\ sessions (snd out) !! fst (fst out) = Some (snd (fst out)).
Proof.
  intros Hs. cbv zeta. unfold get_current_session.
  pose proof (sound_create_session self Hs) as Hnew. cbv zeta in Hnew.
  destruct (current_session_id self) as [sid|]; [|exact Hnew].
  destruct (str_truthy sid); [|exact Hnew].
  destruct (sessions self !! sid) eqn:Hl; [|exact Hnew].
  split; [exact Hs | exact Hl].
Qed.

Lemma sound_resolve_session (self : ChatService)
    (session_id' : option string) :
  sound self ->
  let out := resolve_session uuid4 self session_id' in
  sound (snd out) /\ sessions (snd out) !! fst (fst out) = Some (snd (fst out)).
Proof.
  intros Hs. cbv zeta. unfold resolve_session, get_session.
  pose proof (sound_create_session self Hs) as Hnew. cbv zeta in Hnew.
  pose proof (sound_get_current_session self Hs) as Hcur. cbv zeta in Hcur.
  destruct session_id' as [sid|]; [|exact Hcur].
  destruct (str_truthy sid); [|exact Hcur].
  destruct (sessions self !! sid) eqn:Hl; [|exact Hnew].
  split; [exact Hs | exact Hl].
Qed.

Lemma sound_send_message (self : ChatService) (message : string)
    (session_id' : option string) :
  sound self ->
  sound (snd (fst (send_message uuid4 generate_response self message
                     session_id'))).
Proof.
  intros Hs.
  destruct (send_message_outcome self message session_id') as (He & Hc & _).
  destruct (sound_resolve_session self session_id' Hs) as [[Hall Hcur] Hl].
  unfold sound. rewrite He, Hc. split.
  - apply map_Forall_insert_2; [|exact Hall].
    destruct (Hall _ _ Hl) as [Hid Hp]. split; [exact Hid|].
    cbn [messages]. constructor; [exact Hp | reflexivity | reflexivity].
  - intros sid Hsid. apply lookup_insert_is_Some'. right. apply Hcur, Hsid.
Qed.

Lemma sound_clear_session (self : ChatService) (session_id' : option string) :
  sound self -> sound (snd (clear_session self session_id')).
Proof.
  intros [Hall Hcur]. rewrite clear_session_addressed.
  destruct (addressed self session_id') as [a|]; [|split; assumption].
  unfold clear_named. destruct (sessions self !! a); [|split; assumption].
  unfold sound. cbn [snd sessions current_session_id]. split.
  - apply map_Forall_delete, Hall.
  - intros sid. destruct (decide (current_session_id self = Some a)) as [|Hne];
      [discriminate|].
    intros Hsid. rewrite lookup_delete_ne by congruence. apply Hcur, Hsid.
Qed.

Lemma sound_get_session_history (self : ChatService)
    (session_id' : option string) :
  sound self -> sound (snd (get_session_history uuid4 self session_id')).
Proof.
  intros Hs. unfold get_session_history.
  pose proof (sound_get_current_session self Hs) as [Hcur _].
  destruct (get_current_session uuid4 self) as [[k s] self1].
  destruct session_id' as [sid|]; [|exact Hcur].
  destruct (str_truthy sid); [|exact Hcur].
  destruct (get_session self sid); exact Hs.
Qed.

Lemma reachable_sound (self : ChatService) : reachable self -> sound self.
Proof.
  induction 1 as [|self _ IH|self _ IH|self message sid _ IH|self sid _ IH
                  |self _ IH|self sid _ IH].
  - split; [apply map_Forall_empty | discriminate].
  - apply (sound_create_session self IH).
  - apply (sound_get_current_session self IH).
  - apply sound_send_message, IH.
  - apply sound_clear_session, IH.
  - split; [apply map_Forall_empty | discriminate].
  - apply sound_get_session_history, IH.
Qed.

Lemma paired_counts (l : list ChatMessage) :
  paired l ->
  exists n, len l = 2 * n
            /\ forall u a, fold_left count_role l (u, a) = (u + n, a + n).
Proof.
  induction 1 as [|l u a _ (n & Hn & Hf) Hu Ha].
  - exists 0. split; [reflexivity|]. intros u a. simpl. f_equal; lia.
  - exists (n + 1). unfold len in *. rewrite length_app. simpl length. split; [lia|].
    intros u0 a0. rewrite fold_left_app, Hf. simpl. unfold count_role.
    rewrite Hu, Ha. simpl. f_equal; lia.
Qed.

Lemma paired_sessions_counts (l : list ConversationSession) :
  Forall (fun s => paired (messages s)) l ->
  exists n,
    forall t u a,
      fold_left (fun total session => total + len (messages session)) l t
      = t + 2 * n
      /\ fold_left (fun counters session =>
                      fold_left count_role (messages session) counters)
                   l (u, a)
         = (u + n, a + n).
Proof.
  induction 1 as [|s l Hs _ (n & Hn)].
  - exists 0. intros t u a. simpl. split; [lia | f_equal; lia].
  - destruct (paired_counts _ Hs) as (k & Hk & Hf).
    exists (k + n). intros t u a. simpl. rewrite Hf.
    destruct (Hn (t + len (messages s)) (u + k) (a + k)) as [-> ->].
    split; [lia | f_equal; lia].
Qed.

(** X20.  In every state that the methods of a chat service reach from a
    new one, the statistics count as many assistant messages as user
    messages, and these are all the messages; the active session, when
    there is one, is a stored session. *)
Theorem chat_statistics_balanced (self : ChatService) :
  reachable self ->
  let statistics := get_chat_statistics self in
  user_messages statistics = assistant_messages statistics
  /\ total_messages statistics = 2 * user_messages statistics
  /\ 0 <= user_messages statistics
  /\ total_sessions statistics = Z.of_nat (size (sessions self))
  /\ (forall sid, active_session statistics = Some sid ->
                  exists session,
                    get_session self sid = Some session
                    /\ session_id session = sid).
Proof.
  intros Hr. apply reachable_sound in Hr as [Hall Hcur]. cbv zeta.
  assert (Hp : Forall (fun s => paired (messages s)) (session_values self)).
  { unfold session_values. apply Forall_fmap.
    apply map_Forall_to_list in Hall.
    eapply Forall_impl; [exact Hall|]. intros [k s] [_ Hp]. exact Hp. }
  destruct (paired_sessions_counts _ Hp) as (n & Hn).
  destruct (Hn 0 0 0) as [Ht Hc].
  assert (Hpos : 0 <= n).
  { assert (Hg : forall l z0, 0 <= z0 ->
              0 <= fold_left (fun total session =>
                                total + len (messages session)) l z0).
    { induction l as [|s l IH]; intros z0 Hz; simpl; [exact Hz|].
      apply IH. unfold len. lia. }
    pose proof (Hg (session_values self) 0 ltac:(lia)). lia. }
  unfold get_chat_statistics. rewrite Ht, Hc.
  cbn [user_messages assistant_messages total_messages total_sessions
       active_session].
  repeat split; try lia.
  intros sid Hsid. destruct (Hcur sid Hsid) as [s Hl].
  exists s. split; [exact Hl|]. apply (Hall _ _ Hl).
Qed.

End WithFloats.

(** An identifier source that never returns the empty string. *)
Definition numbered_uuid (n : nat) : string :=
  String (ascii_of_nat (48 + n)) EmptyString.

Lemma get_current_session_stable_witness :
  let out := get_current_session numbered_uuid new_service in
  sessions (snd out) !! fst (fst out) = Some (snd (fst out))
  /\ current_session_id (snd out) = Some (fst (fst out))
  /\ (uuids (snd out) <= S (uuids new_service))%nat
  /\ get_current_session numbered_uuid (snd out) = out.
Proof.
  apply (get_current_session_stable numbered_uuid new_service).
  intros n. discriminate.
Defined.

(** Two messages sent to a new service. *)
Definition two_sends : ChatService :=
  let send self message :=
    snd (fst (send_message (H := fixed_point) numbered_uuid
                (fun _ _ => Return canned_response) self message None)) in
  send (send new_service "first"%string) "second"%string.

Lemma chat_statistics_balanced_witness :
  reachable (H := fixed_point) numbered_uuid
    (fun _ _ => Return canned_response) two_sends
  /\ (let statistics := get_chat_statistics two_sends in
      user_messages statistics = assistant_messages statistics
      /\ total_messages statistics = 2 * user_messages statistics
      /\ 0 <= user_messages statistics
      /\ total_sessions statistics = Z.of_nat (size (sessions two_sends))
      /\ (forall sid, active_session statistics = Some sid ->
                      exists session,
                        get_session two_sends sid = Some session
                        /\ session_id session = sid)).
Proof.
  assert (Hr : reachable (H := fixed_point) numbered_uuid
                 (fun _ _ => Return canned_response) two_sends)
    by (unfold two_sends; do 2 constructor; constructor).
  split; [exact Hr|].
  apply (chat_statistics_balanced (H := fixed_point) numbered_uuid
           (fun _ _ => Return canned_response) two_sends Hr).
Defined.

End ChatExtras.

(** ** The embedding service *)

Module EmbeddingExtras.

Import Py OpenAIUtils EmbeddingService.
Local Open Scope Z_scope.

Section WithFloats.

Context `{Floats}.

Variable embeddings_create_batch :
  list string -> string -> nat -> result (list (list F)).

Lemma store_pairs_other (ids : list string) (embeddings : list (list F))
    (m : gmap string (list F)) (k : string) :
  k ∉ ids -> store_pairs m (zip ids embeddings) !! k = m !! k.
Proof.
  revert embeddings m.
  induction ids as [|k0 ids IH]; intros embeddings m Hk; [reflexivity|].
  destruct embeddings as [|v0 embeddings]; [reflexivity|].
  apply not_elem_of_cons in Hk as [Hne Hk].
  unfold store_pairs in *. simpl. rewrite IH by exact Hk.
  apply lookup_insert_ne. congruence.
Qed.

Lemma store_pairs_lookup (ids : list string) (embeddings : list (list F))
    (m : gmap string (list F)) (i : nat) (k : string) :
  NoDup ids -> ids !! i = Some k ->
  store_pairs m (zip ids embeddings) !! k
  = match embeddings !! i with Some v => Some v | None => m !! k end.
Proof.
  revert embeddings m i.
  induction ids as [|k0 ids IH]; intros embeddings m i Hnd Hi;
    [discriminate|].
  apply NoDup_cons in Hnd as [Hk0 Hnd].
  destruct embeddings as [|v0 embeddings]; [reflexivity|].
  destruct i as [|j].
  - injection Hi as <-. change (zip (k0 :: ids) (v0 :: embeddings))
      with ((k0, v0) :: zip ids embeddings).
    unfold store_pairs. simpl.
    pose proof (store_pairs_other ids embeddings (<[k0:=v0]> m) k0 Hk0) as Ho.
    unfold store_pairs in Ho. rewrite Ho. apply lookup_insert_eq.
  - simpl in Hi. unfold store_pairs in *. simpl.
    rewrite (IH embeddings (<[k0:=v0]> m) j Hnd Hi).
    destruct (embeddings !! j); [reflexivity|].
    apply lookup_insert_ne. intros ->.
    apply Hk0. eapply list_elem_of_lookup_2, Hi.
Qed.

Lemma store_pairs_union (pairs : list (string * list F))
    (m : gmap string (list F)) :
  store_pairs m pairs = store_pairs ∅ pairs ∪ m.
Proof.
  revert m. induction pairs as [|[k v] pairs IH]; intros m.
  - unfold store_pairs. simpl. rewrite (left_id ∅ (∪)). reflexivity.
  - unfold store_pairs in *. simpl.
    rewrite (IH (<[k:=v]> m)), (IH (<[k:=v]> ∅)).
    rewrite insert_empty, insert_union_singleton_l.
    apply (assoc (∪)).
Qed.

(** The call of [get_embeddings_batch] that the service makes. *)
Definition batch_call (self : EmbeddingService) (chunks : list DocumentChunk)
    (w : world) : result (list (list F)) * world :=
  get_embeddings_batch (openai_client self) embeddings_create_batch
    (map (fun chunk => string_of_list_ascii (content chunk)) chunks)
    (embedding_model self) w.

Definition with_embeddings (self : EmbeddingService)
    (m : gmap string (list F)) : EmbeddingService :=
  {| openai_client := openai_client self;
     embedding_model := embedding_model self;
     chunk_embeddings := m ∪ chunk_embeddings self |}.

Lemma batch_call_nil (self : EmbeddingService) (w : world) :
  batch_call self [] w = (Return [], w).
Proof. reflexivity. Qed.

Lemma with_embeddings_empty (self : EmbeddingService) :
  with_embeddings self ∅ = self.
Proof.
  unfold with_embeddings. rewrite (left_id ∅ (∪)). destruct self.
  reflexivity.
Qed.

Lemma generate_chunk_embeddings_batch (self : EmbeddingService)
    (chunks : list DocumentChunk) (w : world) :
  generate_chunk_embeddings embeddings_create_batch self chunks w
  = match batch_call self chunks w with
    | (Return embeddings, w) =>
        let m := store_pairs ∅ (zip (map id chunks) embeddings) in
        (Return m, with_embeddings self m, w)
    | (Raise e, w) => (Raise e, self, w)
    end.
Proof.
  destruct chunks as [|c chunks].
  - rewrite batch_call_nil. cbv zeta. simpl zip.
    unfold store_pairs. simpl fold_left. rewrite with_embeddings_empty.
    reflexivity.
  - unfold generate_chunk_embeddings, batch_call. cbn [truthy negb].
    destruct (get_embeddings_batch _ _ _ _ _) as [[embeddings|e] w'];
      [|reflexivity].
    cbv zeta. unfold with_embeddings.
    rewrite (store_pairs_union _ (chunk_embeddings self)). reflexivity.
Qed.

(** X21.  For chunks with distinct ids: when the batch request raises,
    [generate_chunk_embeddings] raises the same error and its cache is
    unchanged, whatever sub-batches had succeeded.  When the request
    returns, the i-th chunk is mapped to the i-th vector returned, a chunk
    beyond the vectors returned gets no entry, and the cache is the old
    cache overwritten with the entries returned. *)
Theorem generate_chunk_embeddings_outcome (self : EmbeddingService)
    (chunks : list DocumentChunk) (w : world) :
  NoDup (map id chunks) ->
  let batch := batch_call self chunks w in
  let out := generate_chunk_embeddings embeddings_create_batch self chunks w in
  (forall e, fst batch = Raise e -> out = (Raise e, self, snd batch))
  /\ (forall embeddings,
        fst batch = Return embeddings ->
        exists m,
          out = (Return m, with_embeddings self m, snd batch)
          /\ (forall i c, chunks !! i = Some c -> m !! id c = embeddings !! i)
          /\ (forall k, k ∉ map id chunks -> m !! k = None)).
Proof.
  intros Hnd. cbv zeta. rewrite generate_chunk_embeddings_batch.
  destruct (batch_call self chunks w) as [[embeddings|e] w']; cbn [fst snd].
  - split; [discriminate|]. intros ? [= <-]. eexists.
    split; [reflexivity|]. split.
    + intros i c Hc.
      rewrite (store_pairs_lookup (map id chunks) embeddings ∅ i (id c) Hnd)
        by (rewrite list_lookup_fmap, Hc; reflexivity).
      destruct (embeddings !! i); reflexivity.
    + intros k Hk. rewrite store_pairs_other by exact Hk. reflexivity.
  - split; [|discriminate]. intros ? [= <-]. reflexivity.
Qed.

(** X22.  With a client as [__init__] builds it and a provider that
    answers every request with one vector per text, in order, the service
    maps every chunk (of a list with distinct ids) to the vector of its own
    content and to nothing else, stores these entries, and sends one request
    for each sub-batch of at most 100 chunks. *)
Theorem generate_chunk_embeddings_complete (embed : string -> list F)
    (self : EmbeddingService) (chunks : list DocumentChunk) (w : world) :
  openai_client self = init ->
  (forall batch n,
      embeddings_create_batch batch (embedding_model self) n
      = Return (map embed batch)) ->
  NoDup (map id chunks) ->
  exists m,
    generate_chunk_embeddings embeddings_create_batch self chunks w
    = (Return m, with_embeddings self m,
       {| requests := requests w + BatchExtras.batches (len chunks);
          slept := slept w |})
    /\ (forall c, c ∈ chunks ->
          m !! id c = Some (embed (string_of_list_ascii (content c)))
          /\ get_chunk_embedding (with_embeddings self m) (id c)
             = Some (embed (string_of_list_ascii (content c))))
    /\ (forall k, is_Some (m !! k) <-> k ∈ map id chunks).
Proof.
  intros Hclient Hok Hnd. rewrite generate_chunk_embeddings_batch.
  set (texts := map (fun chunk => string_of_list_ascii (content chunk)) chunks).
  assert (Hbatch : batch_call self chunks w
                   = (Return (map embed texts),
                      {| requests := requests w + BatchExtras.batches (len chunks);
                         slept := slept w |})).
  { unfold batch_call, get_embeddings_batch. rewrite Hclient. fold texts.
    rewrite (BatchExtras.batch_loop_all_succeed _ embed texts _ _ Hok).
    rewrite BatchExtras.batches_cover. simpl app. f_equal.
    rewrite BatchExtras.range_step_batches, length_map, length_seq.
    unfold texts, len. rewrite length_map. reflexivity. }
  rewrite Hbatch. cbv zeta. eexists. split; [reflexivity|].
  assert (Hm : forall c, c ∈ chunks ->
            store_pairs ∅ (zip (map id chunks) (map embed texts)) !! id c
            = Some (embed (string_of_list_ascii (content c)))).
  { intros c Hc. apply list_elem_of_lookup_1 in Hc as [i Hi].
    rewrite (store_pairs_lookup (map id chunks) _ ∅ i (id c) Hnd)
      by (rewrite list_lookup_fmap, Hi; reflexivity).
    unfold texts. rewrite !list_lookup_fmap, Hi. reflexivity. }
  split.
  - intros c Hc. split; [apply Hm, Hc|].
    unfold get_chunk_embedding, with_embeddings. cbn [chunk_embeddings].
    apply lookup_union_Some_l, Hm, Hc.
  - intros k. split.
    + intros Hsome. destruct (decide (k ∈ map id chunks)) as [Hin|Hout];
        [exact Hin|].
      rewrite store_pairs_other in Hsome by exact Hout.
      rewrite lookup_empty in Hsome. destruct Hsome as [? ?]. discriminate.
    + intros Hin. apply list_elem_of_fmap in Hin as (c & -> & Hc).
      rewrite (Hm c Hc). eexists. reflexivity.
Qed.

End WithFloats.

(** A provider that fails on its second request, for 150 chunks. *)
Definition many_chunks : list DocumentChunk :=
  map (fun k => VectorExamples.chunk_of (PdfUtils.str_of_int (Z.of_nat k))
                  (Z.of_nat k))
      (seq 0 150).

Definition second_fails (batch : list string) (model : string) (n : nat)
    : result (list (list Z)) :=
  if (n =? 0)%nat then Return (map (fun _ => [1000; 0]) batch)
  else Raise (mkExn OtherException "down").

Lemma generate_chunk_embeddings_outcome_witness :
  let self := new_service (H := fixed_point) "model" in
  let w := {| requests := 0; slept := [] |} in
  let batch := batch_call (H := fixed_point) second_fails self many_chunks w in
  let out := generate_chunk_embeddings (H := fixed_point) second_fails self
               many_chunks w in
  NoDup (map id many_chunks)
  /\ fst batch = Raise (mkExn OtherException "down")
  /\ out = (Raise (mkExn OtherException "down"), self, snd batch).
Proof.
  cbv zeta.
  assert (Hnd : NoDup (map id many_chunks))
    by (refine (bool_decide_unpack _ _); vm_compute; exact I).
  split; [exact Hnd|]. split; [vm_compute; reflexivity|].
  apply (generate_chunk_embeddings_outcome (H := fixed_point) second_fails
           (new_service (H := fixed_point) "model") many_chunks
           {| requests := 0; slept := [] |} Hnd).
  vm_compute. reflexivity.
Defined.

Lemma generate_chunk_embeddings_complete_witness :
  exists m,
    generate_chunk_embeddings (H := fixed_point)
      (fun batch _ _ => Return (map (fun t => [Z.of_nat (String.length t)]) batch))
      (new_service (H := fixed_point) "model") many_chunks
      {| requests := 0; slept := [] |}
    = (Return m, with_embeddings (new_service (H := fixed_point) "model") m,
       {| requests := 0 + BatchExtras.batches (len many_chunks); slept := [] |})
    /\ (forall c, c ∈ many_chunks ->
          m !! id c
          = Some [Z.of_nat (String.length (string_of_list_ascii (content c)))]
          /\ get_chunk_embedding
               (with_embeddings (new_service (H := fixed_point) "model") m)
               (id c)
             = Some [Z.of_nat (String.length
                                 (string_of_list_ascii (content c)))])
    /\ (forall k, is_Some (m !! k) <-> k ∈ map id many_chunks).
Proof.
  apply (generate_chunk_embeddings_complete (H := fixed_point)
           (fun batch _ _ =>
              Return (map (fun t => [Z.of_nat (String.length t)]) batch))
           (fun t => [Z.of_nat (String.length t)])
           (new_service (H := fixed_point) "model") many_chunks
           {| requests := 0; slept := [] |}).
  - reflexivity.
  - intros batch n. reflexivity.
  - refine (bool_decide_unpack _ _). vm_compute. exact I.
Defined.

End EmbeddingExtras.

(** ** PDF validation and the document service *)

Module DocumentExtras.

Import Py PdfUtils DocumentService.
Local Open Scope Z_scope.

Lemma endswith_spec (s suffix : list ascii) :
  endswith s suffix = true <-> exists stem, s = stem ++ suffix.
Proof.
  unfold endswith. rewrite andb_true_iff, Nat.leb_le, bool_decide_eq_true.
  split.
  - intros [Hle Hd]. exists (take (length s - length suffix) s).
    rewrite <- (take_drop (length s - length suffix) s) at 1.
    f_equal. exact Hd.
  - intros [stem ->]. rewrite length_app. split; [lia|].
    rewrite drop_app_length'; [reflexivity | lia].
Qed.

(** The characters that [lower] sends to the four characters of the
    extension. *)
Lemma lower_char_extension (c : ascii) :
  (lower_char c = "."%char -> c = "."%char)
  /\ (lower_char c = "p"%char -> c = "p"%char \/ c = "P"%char)
  /\ (lower_char c = "d"%char -> c = "d"%char \/ c = "D"%char)
  /\ (lower_char c = "f"%char -> c = "f"%char \/ c = "F"%char).
Proof.
  destruct c as [[] [] [] [] [] [] [] []]; vm_compute;
    repeat split; intros Hc; try discriminate Hc; auto.
Qed.

(** A name that ends with [.pdf], in upper or lower case. *)
Definition pdf_name (name : list ascii) : Prop :=
  exists stem a b c,
    name = stem ++ ["."%char; a; b; c]
    /\ (a = "p" \/ a = "P")%char
    /\ (b = "d" \/ b = "D")%char
    /\ (c = "f" \/ c = "F")%char.

Lemma endswith_lower_pdf (name : list ascii) :
  endswith (lower name) (str ".pdf") = true <-> pdf_name name.
Proof.
  rewrite endswith_spec. unfold lower, pdf_name. split.
  - intros [stem Hs]. change (str ".pdf") with ["."; "p"; "d"; "f"]%char in Hs.
    apply fmap_app_inv in Hs as (l1 & l2 & _ & H2 & ->).
    symmetry in H2.
    apply fmap_cons_inv in H2 as (x0 & l3 & H0 & H3 & ->). symmetry in H3.
    apply fmap_cons_inv in H3 as (a & l4 & Ha & H4 & ->). symmetry in H4.
    apply fmap_cons_inv in H4 as (b & l5 & Hb & H5 & ->). symmetry in H5.
    apply fmap_cons_inv in H5 as (c & l6 & Hc & H6 & ->). symmetry in H6.
    apply fmap_nil_inv in H6 as ->.
    exists l1, a, b, c.
    symmetry in H0. apply lower_char_extension in H0 as ->.
    split; [reflexivity|].
    split; [apply lower_char_extension; congruence|].
    split; apply lower_char_extension; congruence.
  - intros (stem & a & b & c & -> & Ha & Hb & Hc).
    exists (map lower_char stem). rewrite map_app. f_equal.
    destruct Ha as [-> | ->], Hb as [-> | ->], Hc as [-> | ->]; reflexivity.
Qed.

Section Service.

Variable PdfReader : list Byte.byte -> result (list (result (list ascii))).
Variable document_uuid : nat -> string.
Variable chunk_uuid : nat -> Z -> string.

(** X23.  A file passes [validate_pdf_file] exactly when it is not larger
    than [max_size], its name ends with [.pdf] in upper or lower case, and
    the reader finds at least one page.  The size is checked first, then
    the name, and the bytes are read last; an error is never an empty
    string. *)
Theorem validate_pdf_file_passes (file_data : list Byte.byte)
    (filename' : string) (max_size : Z) :
  let validation_error :=
    validate_pdf_file PdfReader file_data filename' max_size in
  (validation_error = None <->
   len file_data <= max_size
   /\ pdf_name (str filename')
   /\ exists page pages, PdfReader file_data = Return (page :: pages))
  /\ (max_size < len file_data ->
      validation_error
      = Some ("File size (" +:+ str_of_int (len file_data)
              +:+ " bytes) exceeds maximum allowed size ("
              +:+ str_of_int max_size +:+ " bytes)"))
  /\ (len file_data <= max_size -> ~ pdf_name (str filename') ->
      validation_error = Some "File must be a PDF (.pdf extension)"%string)
  /\ (validation_error <> None -> error_truthy validation_error = true).
Proof.
  cbv zeta. unfold validate_pdf_file. rewrite Z.gtb_ltb.
  pose proof (endswith_lower_pdf (str filename')) as Hname.
  destruct (Z.ltb_spec max_size (len file_data)) as [Hbig|Hsmall].
  { split; [split; [discriminate | lia]|].
    split; [reflexivity|]. split; [lia | reflexivity]. }
  destruct (endswith (lower (str filename')) (str ".pdf")) eqn:Hend;
    cbn [negb].
  2:{ split; [split; [discriminate|]|].
      - intros (_ & Hn & _). apply Hname in Hn. discriminate.
      - split; [lia|]. split; reflexivity. }
  assert (Hpdf : pdf_name (str filename')) by (apply Hname; reflexivity).
  destruct (PdfReader file_data) as [[|page pages]|e] eqn:Hread.
  - change (len [] =? 0) with true. cbv iota.
    split; [split; [discriminate|]|].
    + intros (_ & _ & page & pages & Hp). discriminate.
    + split; [lia|]. split; [intros _ Hn; contradiction | reflexivity].
  - assert (Hnz : (len (page :: pages) =? 0) = false)
      by (apply Z.eqb_neq; unfold len; simpl; lia).
    rewrite Hnz. split; [split|].
    + intros _. split; [exact Hsmall|]. split; [exact Hpdf|].
      exists page, pages. reflexivity.
    + reflexivity.
    + split; [lia|]. split; [intros _ Hn; contradiction | congruence].
  - split; [split; [discriminate|]|].
    + intros (_ & _ & page & pages & Hp). discriminate.
    + split; [lia|]. split; [intros _ Hn; contradiction | reflexivity].
Qed.

(** A page whose text can be read and is not blank. *)
Definition readable (page : result (list ascii)) : Prop :=
  exists page_text, page = Return page_text /\ strip page_text <> [].

(** What the loop adds for the page at position [page_num]. *)
Definition block_of (page_num : Z) (page : result (list ascii))
    : list ascii :=
  match page with
  | Return page_text =>
      if truthy (strip page_text) then page_block page_num page_text else []
  | Raise _ => []
  end.

Definition blocks (page_num : Z) (pages : list (result (list ascii)))
    : list ascii :=
  concat (imap (fun i page => block_of (page_num + Z.of_nat i) page) pages).

Lemma blocks_cons (page_num : Z) (page : result (list ascii))
    (pages : list (result (list ascii))) :
  blocks page_num (page :: pages)
  = block_of page_num page ++ blocks (page_num + 1) pages.
Proof.
  unfold blocks. rewrite imap_cons. cbn [concat]. f_equal.
  - f_equal. lia.
  - f_equal. apply imap_ext. intros i p _. cbn. f_equal. lia.
Qed.

Lemma pages_loop_blocks (pages : list (result (list ascii))) :
  forall page_num text_content,
    pages_loop pages page_num text_content
    = text_content ++ blocks page_num pages.
Proof.
  induction pages as [|page pages IH]; intros page_num text_content.
  - unfold blocks. simpl. rewrite app_nil_r. reflexivity.
  - rewrite blocks_cons. destruct page as [page_text|e];
      cbn [pages_loop block_of];
      [destruct (truthy (strip page_text))|];
      rewrite IH, ?app_assoc, ?app_nil_r; reflexivity.
Qed.

Lemma block_of_blank (page_num : Z) (page : result (list ascii)) :
  Forall (fun c => isspace c = true) (block_of page_num page)
  <-> ~ readable page.
Proof.
  unfold block_of, readable. destruct page as [page_text|e].
  - destruct (strip page_text) as [|c r] eqn:Hs; cbn [truthy].
    + split; [|constructor]. intros _ (t & [= <-] & Ht). congruence.
    + split.
      * intros Hall. unfold page_block in Hall.
        apply Forall_app in Hall as [_ Hall]. cbn in Hall.
        apply Forall_cons in Hall as [Hdash _]. discriminate Hdash.
      * intros Hn. exfalso. apply Hn. exists page_text.
        split; [reflexivity | congruence].
  - split; [|constructor]. intros _ (t & Ht & _). discriminate.
Qed.

Lemma blocks_blank (pages : list (result (list ascii))) :
  forall page_num,
    Forall (fun c => isspace c = true) (blocks page_num pages)
    <-> ~ Exists readable pages.
Proof.
  induction pages as [|page pages IH]; intros page_num.
  - split; [intros _ Hex; inversion Hex | constructor].
  - rewrite blocks_cons, Forall_app, block_of_blank, IH, Exists_cons.
    tauto.
Qed.

Lemma readable_or_not (pages : list (result (list ascii))) :
  Exists readable pages \/ ~ Exists readable pages.
Proof.
  induction pages as [|page pages [IH|IH]].
  - right. intros Hex. inversion Hex.
  - left. right. exact IH.
  - assert (Hp : readable page \/ ~ readable page).
    { unfold readable. destruct page as [t|e].
      - destruct (strip t) eqn:Ht.
        + right. intros (t' & [= <-] & Hne). congruence.
        + left. exists t. split; [reflexivity | congruence].
      - right. intros (t' & Hp & _). discriminate. }
    destruct Hp as [Hp|Hp]; [left; left; exact Hp|].
    right. intros Hex. apply Exists_cons in Hex as [Hex|Hex]; contradiction.
Qed.

(** X24.  [extract_text_from_pdf] returns a text exactly when the reader
    gives the pages and at least one page has a text that is not blank.
    The text is then not empty; it is made of one block for each such
    page, marked with the position of the page in the file (pages that are
    skipped are counted), and stripped.  Otherwise the text is empty and
    the error tells whether the reader raised or no page had text. *)
Theorem extract_text_from_pdf_outcome (file_data : list Byte.byte)
    (filename' : string) :
  let out := extract_text_from_pdf PdfReader file_data filename' in
  (snd out = None <->
   exists pages, PdfReader file_data = Return pages /\ Exists readable pages)
  /\ (snd out <> None -> fst out = [])
  /\ (forall pages,
        PdfReader file_data = Return pages ->
        (Exists readable pages ->
         fst out = strip (blocks 0 pages) /\ fst out <> [])
        /\ (~ Exists readable pages ->
            snd out
            = Some "No text content could be extracted from the PDF"%string))
  /\ (forall e,
        PdfReader file_data = Raise e ->
        snd out
        = Some ("Failed to process PDF " +:+ filename' +:+ ": " +:+ exn_str e)).
Proof.
  cbv zeta. unfold extract_text_from_pdf.
  destruct (PdfReader file_data) as [pages|e] eqn:Hread.
  2:{ cbn [fst snd]. split; [split; [discriminate|]|].
      - intros (pages & Hp & _). discriminate.
      - split; [reflexivity|]. split; [discriminate|].
        intros ? [= <-]. reflexivity. }
  rewrite pages_loop_blocks. cbn [app].
  pose proof (blocks_blank pages 0) as Hblank.
  rewrite <- PyFacts.strip_nil in Hblank.
  destruct (strip (blocks 0 pages)) as [|c r] eqn:Hs; cbn [truthy negb fst snd].
  - assert (Hno : ~ Exists readable pages) by (apply Hblank; reflexivity).
    split; [split; [discriminate|]|].
    + intros (pages' & [= <-] & Hex). contradiction.
    + split; [reflexivity|]. split; [|discriminate].
      intros ? [= <-]. split; [contradiction | reflexivity].
  - assert (Hex : Exists readable pages).
    { destruct (readable_or_not pages) as [Hex|Hno]; [exact Hex|].
      apply Hblank in Hno. discriminate. }
    split; [split; [|reflexivity]|].
    + intros _. exists pages. split; [reflexivity | exact Hex].
    + split; [congruence|]. split; [|discriminate].
      intros ? [= <-]. split; [|contradiction].
      intros _. split; [symmetry; exact Hs | discriminate].
Qed.

(** The first error that [process_uploaded_file] meets: that of the
    validation, or else that of the extraction. *)
Definition rejection (self : DocumentService) (file_data : list Byte.byte)
    (filename' : string) : option string :=
  match validate_pdf_file PdfReader file_data filename'
          (max_file_size (settings self)) with
  | Some message => Some message
  | None => snd (extract_text_from_pdf PdfReader file_data filename')
  end.

Lemma validation_error_truthy (file_data : list Byte.byte)
    (filename' : string) (max_size : Z) :
  error_truthy (validate_pdf_file PdfReader file_data filename' max_size)
  = match validate_pdf_file PdfReader file_data filename' max_size with
    | Some _ => true
    | None => false
    end.
Proof.
  unfold validate_pdf_file.
  destruct (len file_data >? max_size); [reflexivity|].
  destruct (negb _); [reflexivity|].
  destruct (PdfReader file_data) as [pages|e]; [|reflexivity].
  destruct (len pages =? 0); reflexivity.
Qed.

Lemma extraction_error_truthy (file_data : list Byte.byte)
    (filename' : string) :
  error_truthy (snd (extract_text_from_pdf PdfReader file_data filename'))
  = match snd (extract_text_from_pdf PdfReader file_data filename') with
    | Some _ => true
    | None => false
    end.
Proof.
  unfold extract_text_from_pdf.
  destruct (PdfReader file_data) as [pages|e]; [|reflexivity].
  destruct (negb _); reflexivity.
Qed.

(** The service after a document was drawn. *)
Definition drawn_one (self : DocumentService) : DocumentService :=
  {| settings := settings self;
     processed_documents := processed_documents self;
     document_chunks := document_chunks self;
     drawn := S (drawn self) |}.

(** What [process_uploaded_file] does when something is rejected. *)
Lemma process_uploaded_file_fails (fuel : nat) (self : DocumentService)
    (file_data : list Byte.byte) (filename' : string) (reason : string) :
  rejection self file_data filename' = Some reason ->
  process_uploaded_file PdfReader document_uuid chunk_uuid fuel self
    file_data filename'
  = Some (failed {| doc_id := document_uuid (drawn self);
                    filename := filename'; file_size := len file_data;
                    processing_status := "processing"; total_chunks := 0;
                    error_message := None |} (Some reason),
          drawn_one self).
Proof.
  unfold rejection, process_uploaded_file. intros Hr.
  cbn [settings drawn doc_id].
  rewrite validation_error_truthy.
  destruct (validate_pdf_file PdfReader file_data filename' _) as [m|].
  - injection Hr as ->. reflexivity.
  - pose proof (extraction_error_truthy file_data filename') as Ht.
    destruct (extract_text_from_pdf PdfReader file_data filename')
      as [extracted err].
    cbn [snd] in *. rewrite Ht, Hr. reflexivity.
Qed.

(** X25.  When the validation or the extraction gives an error,
    [process_uploaded_file] returns, whatever the settings, a result
    without success and without chunks, whose document is marked failed and
    carries the error; the document is not stored, and the stored documents
    and chunks are unchanged. *)
Theorem process_uploaded_file_rejects (fuel : nat) (self : DocumentService)
    (file_data : list Byte.byte) (filename' : string) (reason : string) :
  rejection self file_data filename' = Some reason ->
  exists r,
    process_uploaded_file PdfReader document_uuid chunk_uuid fuel self
      file_data filename'
    = Some (r, drawn_one self)
    /\ success r = false
    /\ chunks r = []
    /\ result_error_message r = Some reason
    /\ document r
       = {| doc_id := document_uuid (drawn self); filename := filename';
            file_size := len file_data; processing_status := "failed";
            total_chunks := 0; error_message := Some reason |}
    /\ get_document (drawn_one self) (doc_id (document r))
       = get_document self (doc_id (document r)).
Proof.
  intros Hr.
  rewrite (process_uploaded_file_fails fuel self file_data filename' reason Hr).
  eexists. split; [reflexivity|]. repeat split.
Qed.

Lemma create_text_chunks_returns (uuid4 : Z -> string) (text : list ascii)
    (doc : string) (cs ov : Z) (fuel : nat) :
  0 < cs -> 0 <= ov < cs ->
  (length (TextUtils.clean_text text) < fuel)%nat ->
  exists chunks', TextUtils.create_text_chunks fuel uuid4 text doc cs ov
                  = Some chunks'.
Proof.
  intros Hcs Hov Hfuel. unfold TextUtils.create_text_chunks.
  destruct (negb (truthy text) || negb (truthy (strip text)));
    [eexists; reflexivity|].
  destruct (ChunkFacts.chunk_loop_rule uuid4 (TextUtils.clean_text text) doc
              cs ov Hcs Hov (fun _ _ => True) (fun _ => True)
              ltac:(auto) ltac:(auto) fuel 0 0 [])
    as (out & Hout & _); [lia | constructor | exact I | unfold len; lia |].
  exists out. exact Hout.
Qed.

Lemma create_text_chunks_document_id (uuid4 : Z -> string)
    (text : list ascii) (doc : string) (cs ov : Z) (fuel : nat)
    (chunks' : list DocumentChunk) :
  TextUtils.create_text_chunks fuel uuid4 text doc cs ov = Some chunks' ->
  Forall (fun c => document_id c = doc) chunks'.
Proof.
  unfold TextUtils.create_text_chunks.
  destruct (negb (truthy text) || negb (truthy (strip text))).
  { intros [= <-]. constructor. }
  intros Hrun.
  destruct (ChunkExtras.chunk_loop_keeps uuid4 (TextUtils.clean_text text)
              doc cs ov (fun _ l => Forall (fun c => document_id c = doc) l))
    with (fuel := fuel) (start := 0) (idx := 0) (chunks := @nil DocumentChunk)
         (out := chunks') as [_ Hall]; [| constructor | exact Hrun | exact Hall].
  intros idx start l Hl _. apply Forall_app. split; [exact Hl|].
  constructor; [reflexivity | constructor].
Qed.

(** What [process_uploaded_file] does when nothing is rejected. *)
Lemma process_uploaded_file_accepts (fuel : nat) (self : DocumentService)
    (file_data : list Byte.byte) (filename' : string) :
  rejection self file_data filename' = None ->
  process_uploaded_file PdfReader document_uuid chunk_uuid fuel self
    file_data filename'
  = match TextUtils.create_text_chunks fuel (chunk_uuid (drawn self))
            (fst (extract_text_from_pdf PdfReader file_data filename'))
            (document_uuid (drawn self)) (chunk_size (settings self))
            (chunk_overlap (settings self)) with
    | None => None
    | Some chunks' =>
        let document' :=
          {| doc_id := document_uuid (drawn self); filename := filename';
             file_size := len file_data; processing_status := "completed";
             total_chunks := len chunks'; error_message := None |} in
        Some ({| document := document'; chunks := chunks'; success := true;
                 result_error_message := None |},
              {| settings := settings self;
                 processed_documents :=
                   <[doc_id document' := document']> (processed_documents self);
                 document_chunks :=
                   <[doc_id document' := chunks']> (document_chunks self);
                 drawn := S (drawn self) |})
    end.
Proof.
  unfold rejection, process_uploaded_file. intros Hr.
  cbn [settings drawn doc_id filename file_size error_message
       processed_documents document_chunks Nat.pred].
  rewrite validation_error_truthy.
  destruct (validate_pdf_file PdfReader file_data filename' _);
    [discriminate|].
  pose proof (extraction_error_truthy file_data filename') as Ht.
  destruct (extract_text_from_pdf PdfReader file_data filename')
    as [extracted err].
  cbn [fst snd] in *. rewrite Ht, Hr. reflexivity.
Qed.

(** X26.  When nothing is rejected, the chunk size is positive and the
    overlap is below it, [process_uploaded_file] returns a success: the
    document is marked completed, its chunk count is the number of chunks
    returned and every chunk carries its id; [get_document] and
    [get_document_chunks] then give this document and these chunks, and
    [remove_document] removes both again. *)
Theorem process_uploaded_file_stores (fuel : nat) (self : DocumentService)
    (file_data : list Byte.byte) (filename' : string) :
  rejection self file_data filename' = None ->
  0 < chunk_size (settings self) ->
  0 <= chunk_overlap (settings self) < chunk_size (settings self) ->
  (length (TextUtils.clean_text
             (fst (extract_text_from_pdf PdfReader file_data filename')))
   < fuel)%nat ->
  exists r self',
    process_uploaded_file PdfReader document_uuid chunk_uuid fuel self
      file_data filename'
    = Some (r, self')
    /\ success r = true
    /\ document r
       = {| doc_id := document_uuid (drawn self); filename := filename';
            file_size := len file_data; processing_status := "completed";
            total_chunks := len (chunks r); error_message := None |}
    /\ Forall (fun c => document_id c = doc_id (document r)) (chunks r)
    /\ get_document self' (doc_id (document r)) = Some (document r)
    /\ get_document_chunks self' (doc_id (document r)) = chunks r
    /\ (forall k, k <> doc_id (document r) ->
          get_document self' k = get_document self k
          /\ get_document_chunks self' k = get_document_chunks self k)
    /\ (let removed := remove_document self' (doc_id (document r)) in
        fst removed = true
        /\ get_document (snd removed) (doc_id (document r)) = None
        /\ get_document_chunks (snd removed) (doc_id (document r)) = []).
Proof.
  intros Hr Hcs Hov Hfuel.
  rewrite (process_uploaded_file_accepts fuel self file_data filename' Hr).
  destruct (create_text_chunks_returns (chunk_uuid (drawn self))
              (fst (extract_text_from_pdf PdfReader file_data filename'))
              (document_uuid (drawn self)) _ _ fuel Hcs Hov Hfuel)
    as [chunks' Hrun].
  rewrite Hrun. cbv zeta. do 2 eexists. split; [reflexivity|].
  cbn [success document chunks doc_id].
  unfold get_document, get_document_chunks, remove_document.
  cbn [processed_documents document_chunks].
  split; [reflexivity|]. split; [reflexivity|].
  split; [eapply create_text_chunks_document_id, Hrun|].
  split; [apply lookup_insert_eq|].
  split; [rewrite lookup_insert_eq; reflexivity|].
  split.
  - intros k Hk. rewrite !lookup_insert_ne by congruence.
    split; reflexivity.
  - rewrite !lookup_insert_eq. cbn [fst snd processed_documents
                                     document_chunks].
    rewrite !lookup_delete_eq. repeat split.
Qed.

(** *** What the service keeps *)

(** Every stored document is stored under its own id, is completed and
    without error, and has its chunks stored under the same id, as many as
    it counts, each with its id; chunks are stored for stored documents
    only. *)
Definition sound (self : DocumentService) : Prop :=
  (forall k d,
      processed_documents self !! k = Some d ->
      doc_id d = k
      /\ processing_status d = "completed"%string
      /\ error_message d = None
      /\ exists stored,
           document_chunks self !! k = Some stored
           /\ total_chunks d = len stored
           /\ Forall (fun c => document_id c = k) stored)
  /\ (forall k, is_Some (document_chunks self !! k) ->
                is_Some (processed_documents self !! k)).

(** The states of a service that its methods reach from a new one. *)
Inductive reachable : DocumentService -> Prop :=
  | reach_new (settings' : Settings) : reachable (new_service settings')
  | reach_process_uploaded_file (fuel : nat) (self : DocumentService)
      (file_data : list Byte.byte) (filename' : string)
      (r : ProcessingResult) (self' : DocumentService) :
      reachable self ->
      process_uploaded_file PdfReader document_uuid chunk_uuid fuel self
        file_data filename' = Some (r, self') ->
      reachable self'
  | reach_remove_document (self : DocumentService) (document_id' : string) :
      reachable self -> reachable (snd (remove_document self document_id'))
  | reach_clear_all_documents (self : DocumentService) :
      reachable self -> reachable (clear_all_documents self).

Lemma sound_process_uploaded_file (fuel : nat) (self : DocumentService)
    (file_data : list Byte.byte) (filename' : string)
    (r : ProcessingResult) (self' : DocumentService) :
  sound self ->
  process_uploaded_file PdfReader document_uuid chunk_uuid fuel self
    file_data filename' = Some (r, self') ->
  sound self'.
Proof.
  intros [Hdocs Hchunks] Hrun.
  destruct (rejection self file_data filename') as [reason|] eqn:Hr.
  - rewrite (process_uploaded_file_fails fuel self file_data filename'
               reason Hr) in Hrun.
    injection Hrun as _ <-. split; assumption.
  - rewrite (process_uploaded_file_accepts fuel self file_data filename' Hr)
      in Hrun.
    destruct (TextUtils.create_text_chunks _ _ _ _ _ _) as [chunks'|] eqn:Hc;
      [|discriminate].
    cbv zeta in Hrun. injection Hrun as _ <-. cbn [doc_id].
    apply create_text_chunks_document_id in Hc.
    split; cbn [processed_documents document_chunks].
    + intros k d Hk. destruct (decide (document_uuid (drawn self) = k))
        as [<- | Hne].
      * rewrite lookup_insert_eq in Hk. injection Hk as <-.
        cbn [doc_id processing_status error_message total_chunks].
        repeat split. exists chunks'. rewrite lookup_insert_eq.
        repeat split. exact Hc.
      * rewrite lookup_insert_ne in Hk by exact Hne.
        rewrite lookup_insert_ne by exact Hne. apply Hdocs, Hk.
    + intros k Hk. apply lookup_insert_is_Some'.
      apply lookup_insert_is_Some' in Hk as [-> | Hk];
        [left; reflexivity | right; apply Hchunks, Hk].
Qed.

Lemma sound_remove_document (self : DocumentService) (document_id' : string) :
  sound self -> sound (snd (remove_document self document_id')).
Proof.
  intros [Hdocs Hchunks]. unfold remove_document.
  destruct (processed_documents self !! document_id') as [d|] eqn:Hd;
    [|split; assumption].
  destruct (Hdocs _ _ Hd) as (_ & _ & _ & stored & Hs & _). rewrite Hs.
  split; cbn [snd processed_documents document_chunks].
  - intros k d' Hk. apply lookup_delete_Some in Hk as [Hne Hk].
    rewrite lookup_delete_ne by exact Hne. apply Hdocs, Hk.
  - intros k Hk. apply lookup_delete_is_Some in Hk as [Hne Hk].
    apply lookup_delete_is_Some. split; [exact Hne | apply Hchunks, Hk].
Qed.

Lemma stored_documents_sound (self : DocumentService) : reachable self -> sound self.
Proof.
  induction 1 as [s|fuel self file_data name r self' _ IH Hrun|self k _ IH
                  |self _ IH].
  - split; cbn [new_service processed_documents document_chunks].
    + intros k d Hk. rewrite lookup_empty in Hk. discriminate.
    + intros k [x Hk]. rewrite lookup_empty in Hk. discriminate.
  - eapply sound_process_uploaded_file; [exact IH | exact Hrun].
  - apply sound_remove_document, IH.
  - split; cbn [clear_all_documents processed_documents document_chunks].
    + intros k d Hk. rewrite lookup_empty in Hk. discriminate.
    + intros k [x Hk]. rewrite lookup_empty in Hk. discriminate.
Qed.

Lemma status_counts_completed (documents : list Document)
    (counts : gmap string Z) :
  Forall (fun d => processing_status d = "completed"%string) documents ->
  fold_left (fun counts doc =>
               <[processing_status doc :=
                   default 0 (counts !! processing_status doc) + 1]> counts)
            documents counts
  = match documents with
    | [] => counts
    | _ => <["completed"%string :=
               default 0 (counts !! "completed"%string) + len documents]>
             counts
    end.
Proof.
  intros Hall. revert counts.
  induction Hall as [|d l Hd _ IH]; intros counts; [reflexivity|].
  cbn [fold_left]. rewrite IH, Hd. destruct l as [|d' l].
  - reflexivity.
  - rewrite lookup_insert_eq, insert_insert_eq. cbn [default]. f_equal.
    unfold len, Datatypes.id. cbn [length]. lia.
Qed.

(** X27.  In every state that the methods of a document service reach
    from a new one, a stored document is completed, carries no error and
    counts the chunks that are stored for it, each with its id; a failed
    upload is never stored, so that the status counts of the statistics
    hold the one entry "completed", with the number of documents (and no
    entry without documents). *)
Theorem stored_documents_completed (self : DocumentService) :
  reachable self ->
  (forall k d,
      get_document self k = Some d ->
      doc_id d = k
      /\ processing_status d = "completed"%string
      /\ error_message d = None
      /\ total_chunks d = len (get_document_chunks self k)
      /\ Forall (fun c => document_id c = k) (get_document_chunks self k))
  /\ (forall k, get_document self k = None -> get_document_chunks self k = [])
  /\ (let statistics := get_knowledge_base_stats self in
      status_counts statistics
      = if total_documents statistics =? 0 then ∅
        else {[ "completed"%string := total_documents statistics ]}).
Proof.
  intros Hr. apply stored_documents_sound in Hr as [Hdocs Hchunks].
  unfold get_document, get_document_chunks. split; [|split].
  - intros k d Hk.
    destruct (Hdocs k d Hk) as (Hid & Hst & He & stored & Hs & Hn & Hall).
    rewrite Hs. cbn [default]. auto.
  - intros k Hk. destruct (document_chunks self !! k) eqn:Hc; [|reflexivity].
    destruct (Hchunks k ltac:(eexists; exact Hc)) as [d Hd]. congruence.
  - cbv zeta. unfold get_knowledge_base_stats.
    cbn [status_counts total_documents].
    rewrite status_counts_completed.
    2:{ apply Forall_fmap, Forall_forall. intros [k d] Hin.
        apply elem_of_map_to_list in Hin. apply (Hdocs k d Hin). }
    rewrite <- length_map_to_list.
    destruct (map_to_list (processed_documents self)) as [|p l];
      [reflexivity|].
    cbn [fmap list_fmap]. rewrite lookup_empty. cbn [default].
    assert (Hz : (Z.of_nat (length (p :: l)) =? 0) = false)
      by (apply Z.eqb_neq; simpl; lia).
    rewrite Hz. rewrite insert_empty. f_equal.
    unfold len. cbn [length]. rewrite length_fmap. lia.
Qed.

End Service.

(** A reader that finds one page with the text "One. Two." in every file. *)
Definition one_page (file_data : list Byte.byte)
    : result (list (result (list ascii))) :=
  Return [Return (str "One. Two.")].

Definition defaults : Settings :=
  {| max_file_size := 52428800; chunk_size := 1000; chunk_overlap := 200 |}.

(** Limits of three bytes. *)
Definition tight : Settings :=
  {| max_file_size := 3; chunk_size := 1000; chunk_overlap := 200 |}.

Definition four_bytes : list Byte.byte := [Byte.x25; Byte.x50; Byte.x44; Byte.x46].

Definition uuid_doc (n : nat) : string := "doc-" +:+ str_of_int (Z.of_nat n).
Definition uuid_chunk (n : nat) (k : Z) : string :=
  uuid_doc n +:+ "-" +:+ str_of_int k.

Lemma process_uploaded_file_rejects_witness :
  exists r,
    process_uploaded_file one_page uuid_doc uuid_chunk 0 (new_service tight)
      four_bytes "a.pdf"
    = Some (r, drawn_one (new_service tight))
    /\ success r = false
    /\ chunks r = []
    /\ result_error_message r
       = Some "File size (4 bytes) exceeds maximum allowed size (3 bytes)"%string
    /\ document r
       = {| doc_id := uuid_doc (drawn (new_service tight));
            filename := "a.pdf"; file_size := len four_bytes;
            processing_status := "failed"; total_chunks := 0;
            error_message :=
              Some "File size (4 bytes) exceeds maximum allowed size (3 bytes)"%string |}
    /\ get_document (drawn_one (new_service tight)) (doc_id (document r))
       = get_document (new_service tight) (doc_id (document r)).
Proof.
  apply (process_uploaded_file_rejects one_page uuid_doc uuid_chunk 0
           (new_service tight) four_bytes "a.pdf").
  vm_compute. reflexivity.
Defined.

Lemma process_uploaded_file_stores_witness :
  exists r self',
    process_uploaded_file one_page uuid_doc uuid_chunk 20
      (new_service defaults) four_bytes "A.PDF"
    = Some (r, self')
    /\ success r = true
    /\ document r
       = {| doc_id := uuid_doc (drawn (new_service defaults));
            filename := "A.PDF"; file_size := len four_bytes;
            processing_status := "completed";
            total_chunks := len (chunks r); error_message := None |}
    /\ Forall (fun c => document_id c = doc_id (document r)) (chunks r)
    /\ get_document self' (doc_id (document r)) = Some (document r)
    /\ get_document_chunks self' (doc_id (document r)) = chunks r
    /\ (forall k, k <> doc_id (document r) ->
          get_document self' k = get_document (new_service defaults) k
          /\ get_document_chunks self' k
             = get_document_chunks (new_service defaults) k)
    /\ (let removed := remove_document self' (doc_id (document r)) in
        fst removed = true
        /\ get_document (snd removed) (doc_id (document r)) = None
        /\ get_document_chunks (snd removed) (doc_id (document r)) = []).
Proof.
  apply (process_uploaded_file_stores one_page uuid_doc uuid_chunk 20
           (new_service defaults) four_bytes "A.PDF").
  - vm_compute. reflexivity.
  - vm_compute. reflexivity.
  - vm_compute. split; [discriminate | reflexivity].
  - vm_compute. lia.
Defined.

(** A service after one upload. *)
Definition one_upload : DocumentService :=
  match process_uploaded_file one_page uuid_doc uuid_chunk 20
          (new_service defaults) four_bytes "A.PDF" with
  | Some (_, self) => self
  | None => new_service defaults
  end.

Lemma stored_documents_completed_witness :
  reachable one_page uuid_doc uuid_chunk one_upload
  /\ (forall k d,
        get_document one_upload k = Some d ->
        doc_id d = k
        /\ processing_status d = "completed"%string
        /\ error_message d = None
        /\ total_chunks d = len (get_document_chunks one_upload k)
        /\ Forall (fun c => document_id c = k)
             (get_document_chunks one_upload k))
  /\ (forall k, get_document one_upload k = None ->
                get_document_chunks one_upload k = [])
  /\ (let statistics := get_knowledge_base_stats one_upload in
      status_counts statistics
      = if total_documents statistics =? 0 then ∅
        else {[ "completed"%string := total_documents statistics ]}).
Proof.
  assert (Hr : reachable one_page uuid_doc uuid_chunk one_upload).
  { destruct (process_uploaded_file one_page uuid_doc uuid_chunk 20
                (new_service defaults) four_bytes "A.PDF")
      as [[r self']|] eqn:Hrun; [|vm_compute in Hrun; discriminate Hrun].
    unfold one_upload. rewrite Hrun.
    eapply reach_process_uploaded_file; [apply reach_new | exact Hrun]. }
  split; [exact Hr|].
  apply (stored_documents_completed one_page uuid_doc uuid_chunk one_upload Hr).
Defined.

End DocumentExtras.

(** ** Page markers *)

Module PageExtras.

Import Py TextUtils PdfUtils.
Local Open Scope Z_scope.

Lemma strip_prefix_app (lit s : list ascii) :
  strip_prefix lit (lit ++ s) = Some s.
Proof.
  induction lit as [|a lit IH]; [reflexivity|].
  cbn [app strip_prefix]. rewrite Ascii.eqb_refl. exact IH.
Qed.

Lemma span_len_app (p : ascii -> bool) (digits rest : list ascii) :
  Forall (fun c => p c = true) digits ->
  (forall c, head rest = Some c -> p c = false) ->
  span_len p (digits ++ rest) = length digits.
Proof.
  intros Hd Hrest. induction Hd as [|c l Hc _ IH].
  - destruct rest as [|c r]; [reflexivity|].
    cbn [app span_len]. rewrite (Hrest c eq_refl). reflexivity.
  - cbn [app span_len length]. rewrite Hc, IH. reflexivity.
Qed.

Lemma span_len_take (p : ascii -> bool) (s : list ascii) :
  Forall (fun c => p c = true) (take (span_len p s) s)
  /\ length (take (span_len p s) s) = span_len p s.
Proof.
  induction s as [|c r [IH1 IH2]]; [split; [constructor | reflexivity]|].
  cbn [span_len]. destruct (p c) eqn:Hc.
  - cbn [take length]. split; [constructor; assumption | congruence].
  - split; [constructor | reflexivity].
Qed.

(** The characters of a decimal numeral are digits. *)
Lemma digits_of_uint (d : Decimal.uint) :
  Forall (fun c => isdigit c = true) (str (NilEmpty.string_of_uint d)).
Proof.
  induction d; cbn [NilEmpty.string_of_uint str list_ascii_of_string];
    constructor; solve [reflexivity | assumption].
Qed.

(** A group of the pattern is a string of digits that is not empty. *)
Lemma re_page_number_group (s group : list ascii) :
  re_page_number s = Some group ->
  Forall (fun c => isdigit c = true) group /\ group <> [].
Proof.
  unfold re_page_number.
  destruct (strip_prefix (str "--- Page ") s) as [r1|]; [|discriminate].
  destruct (span_len_take isdigit r1) as [Hall Hlen].
  destruct (span_len isdigit r1) as [|d] eqn:Hd; [discriminate|].
  destruct (strip_prefix _ _); [|discriminate].
  intros [= <-]. split; [exact Hall|].
  intros Hnil. rewrite Hnil in Hlen. discriminate.
Qed.

Lemma re_search_here {A} (m : list ascii -> option A) (s : list ascii)
    (g : A) :
  m s = Some g -> re_search m s = Some g.
Proof. intros Hm. destruct s; cbn [re_search]; rewrite Hm; reflexivity. Qed.

Lemma re_search_matches {A} (m : list ascii -> option A) (s : list ascii)
    (g : A) :
  re_search m s = Some g -> exists s', m s' = Some g.
Proof.
  induction s as [|c r IH]; cbn [re_search].
  - destruct (m []) eqn:Hm; [|discriminate]. intros [= <-]. eauto.
  - destruct (m (c :: r)) eqn:Hm; [intros [= <-]; eauto | exact IH].
Qed.

Lemma uint_of_digits (digits : list ascii) :
  Forall (fun c => isdigit c = true) digits ->
  exists d, NilEmpty.uint_of_string (string_of_list_ascii digits) = Some d.
Proof.
  induction 1 as [|c l Hc _ [d IH]]; [exists Decimal.Nil; reflexivity|].
  cbn [string_of_list_ascii NilEmpty.uint_of_string]. rewrite IH.
  destruct c as [[] [] [] [] [] [] [] []]; try discriminate Hc;
    eexists; reflexivity.
Qed.

(** [int] does not raise on a group of at most 4300 digits. *)
Lemma int_of_digits (digits : list ascii) :
  Forall (fun c => isdigit c = true) digits -> digits <> [] ->
  (length digits <= int_max_str_digits)%nat ->
  exists n, int digits = Some n.
Proof.
  intros Hall Hne Hlen. destruct (uint_of_digits digits Hall) as [d Hd].
  unfold int. destruct (Nat.ltb_spec int_max_str_digits (length digits));
    [lia|].
  unfold NilZero.int_of_string.
  destruct digits as [|c l]; [congruence|].
  cbn [string_of_list_ascii] in *.
  assert (Hminus : Ascii.eqb c "-" = false).
  { apply Forall_cons in Hall as [Hc _].
    destruct (Ascii.eqb_spec c "-") as [-> |]; [discriminate Hc | reflexivity]. }
  rewrite Hminus. unfold NilZero.uint_of_string. rewrite Hd.
  eexists. reflexivity.
Qed.

(** [int(str(n))] is [n] for a positive number of at most 4300 digits, and
    its numeral is made of digits. *)
Lemma int_str_of_int (n : Z) :
  0 < n ->
  (length (str (str_of_int n)) <= int_max_str_digits)%nat ->
  int (str (str_of_int n)) = Some n
  /\ Forall (fun c => isdigit c = true) (str (str_of_int n))
  /\ str (str_of_int n) <> [].
Proof.
  intros Hn Hlen. unfold int.
  destruct (Nat.ltb_spec int_max_str_digits (length (str (str_of_int n))));
    [lia|].
  clear Hlen. unfold str_of_int, str.
  rewrite string_of_list_ascii_of_string.
  destruct n as [|p|p]; [lia | | lia].
  split.
  - rewrite NilZero.isi.
    + cbn [option_map]. rewrite DecimalZ.of_to. reflexivity.
    + cbn. intros [= Hp]. exact (DecimalPos.Unsigned.to_uint_nonnil p Hp).
    + discriminate.
  - cbn [Z.to_int NilZero.string_of_int]. unfold NilZero.string_of_uint.
    pose proof (DecimalPos.Unsigned.to_uint_nonnil p) as Hnil.
    pose proof (digits_of_uint (Pos.to_uint p)) as Hd. unfold str in Hd.
    destruct (Pos.to_uint p); try congruence;
      (split; [exact Hd | discriminate]).
Qed.

(** X28.  [extract_page_number] raises exactly when the number of the
    first page marker in the text has more than 4300 digits, which [int]
    refuses.  It reads the page markers that [extract_text_from_pdf]
    writes: on a text that begins with the block of the page at position
    [page_num], whose number has at most 4300 digits, it returns
    [page_num + 1].  On a text without a hyphen it returns [None]. *)
Theorem extract_page_number_reads_marker :
  (forall text,
     extract_page_number text = None
     <-> exists group,
           re_search re_page_number text = Some group
           /\ (int_max_str_digits < length group)%nat)
  /\ (forall page_num page_text rest,
        0 <= page_num ->
        (length (str (str_of_int (page_num + 1))) <= int_max_str_digits)%nat ->
        extract_page_number (page_block page_num page_text ++ rest)
        = Some (Some (page_num + 1)))
  /\ (forall text,
        "-"%char ∉ text -> extract_page_number text = Some None).
Proof.
  split; [|split].
  - intros text. unfold extract_page_number.
    destruct (re_search re_page_number text) as [group|] eqn:Hs.
    2:{ split; [discriminate | intros (g & Hg & _); discriminate]. }
    split.
    + intros Hnone. exists group. split; [reflexivity|].
      destruct (Nat.lt_ge_cases int_max_str_digits (length group))
        as [Hlt|Hge]; [exact Hlt|].
      apply re_search_matches in Hs as [s' Hs'].
      apply re_page_number_group in Hs' as [Hall Hne].
      destruct (int_of_digits group Hall Hne Hge) as [n Hn].
      rewrite Hn in Hnone. discriminate Hnone.
    + intros (g & [= <-] & Hlt). unfold int.
      destruct (Nat.ltb_spec int_max_str_digits (length group)); [|lia].
      reflexivity.
  - intros page_num page_text rest Hn Hlen.
    destruct (int_str_of_int (page_num + 1) ltac:(lia) Hlen)
      as (Hint & Hd & Hne).
    unfold extract_page_number, page_block.
    set (digits := str (str_of_int (page_num + 1))) in *.
    rewrite <- !app_assoc. cbn [app re_search].
    change (re_page_number (newline :: _)) with (@None (list ascii)).
    cbv iota.
    assert (Hm : forall tail,
              re_page_number (str "--- Page " ++ digits ++ str " ---" ++ tail)
              = Some digits).
    { intros tail. unfold re_page_number. rewrite strip_prefix_app.
      rewrite (span_len_app isdigit digits (str " ---" ++ tail) Hd)
        by (intros c [= <-]; reflexivity).
      destruct (length digits) as [|k] eqn:Hk;
        [destruct digits; [congruence | discriminate]|].
      rewrite <- Hk, drop_app_length, strip_prefix_app, take_app_length.
      reflexivity. }
    rewrite (re_search_here _ _ _ (Hm _)), Hint. reflexivity.
  - intros text Hno. unfold extract_page_number.
    assert (Hs : re_search re_page_number text = None).
    { induction text as [|c r IH]; [reflexivity|].
      apply not_elem_of_cons in Hno as [Hc Hr].
      cbn [re_search]. unfold re_page_number at 1.
      cbn [str list_ascii_of_string strip_prefix].
      destruct (Ascii.eqb_spec "-" c) as [<- |]; [congruence|].
      apply IH, Hr. }
    rewrite Hs. reflexivity.
Qed.

(** A marker with a number of 4301 digits: [int] raises. *)
Example extract_page_number_raises :
  extract_page_number
    (str "--- Page " ++ replicate 4301 "1"%char ++ str " ---")
  = None.
Proof. vm_compute. reflexivity. Qed.

End PageExtras.

(** ** What [clean_text] changes *)

Module CleanExtras.

Import Py PyFacts TextUtils TextUtilsFacts.
Local Open Scope nat_scope.

(** No page marker starts at any position of the text. *)
Definition marker_free (s : list ascii) : Prop :=
  forall t, t `suffix_of` s -> re_page_marker t = None.

(** The characters of a text that are not white space, in order. *)
Definition visible (s : list ascii) : list ascii :=
  List.filter (fun c => negb (isspace c)) s.

(** White space is never followed by white space. *)
Definition single_spaced (s : list ascii) : Prop :=
  forall i a b,
    s !! i = Some a -> s !! S i = Some b ->
    isspace a = true -> isspace b = false.

Lemma strip_split (s : list ascii) :
  exists k1 k2,
    s = k1 ++ strip s ++ k2
    /\ Forall (fun c => isspace c = true) k1
    /\ Forall (fun c => isspace c = true) k2.
Proof.
  destruct (lstrip_split s) as (k1 & H1 & Hk1).
  destruct (rstrip_split (lstrip s)) as (k2 & H2 & Hk2).
  exists k1, k2. unfold strip. rewrite <- H2. auto.
Qed.

Lemma visible_blank (k : list ascii) :
  Forall (fun c => isspace c = true) k -> visible k = [].
Proof.
  induction 1 as [|c k Hc _ IH]; [reflexivity|].
  unfold visible in *. simpl. rewrite Hc. exact IH.
Qed.

Lemma visible_strip (s : list ascii) : visible (strip s) = visible s.
Proof.
  destruct (strip_split s) as (k1 & k2 & Hs & Hk1 & Hk2).
  rewrite Hs at 2. unfold visible. rewrite !List.filter_app.
  fold (visible k1) (visible k2).
  rewrite (visible_blank k1 Hk1), (visible_blank k2 Hk2), app_nil_r.
  reflexivity.
Qed.

Lemma visible_clean_spaces (s : list ascii) :
  forall skip,
    skip <= span_len isspace s ->
    visible (re_sub_from re_spaces [space] skip s) = visible s.
Proof.
  induction s as [|c r IH]; intros skip Hskip; [reflexivity|].
  cbn [re_sub_from]. cbn [span_len] in Hskip.
  destruct skip as [|k].
  - unfold re_spaces. cbn [span_len].
    destruct (isspace c) eqn:Hc.
    + cbn [app]. unfold visible in *. cbn [List.filter].
      change (isspace space) with true. rewrite Hc. cbn [negb].
      apply IH. lia.
    + unfold visible in *. cbn [List.filter]. rewrite Hc. cbn [negb].
      f_equal. apply IH. lia.
  - destruct (isspace c) eqn:Hc; [|lia].
    unfold visible in *. cbn [List.filter]. rewrite Hc. cbn [negb].
    apply IH. lia.
Qed.

Lemma single_spaced_cons (c : ascii) (s : list ascii) :
  (isspace c = true -> forall b, head s = Some b -> isspace b = false) ->
  single_spaced s -> single_spaced (c :: s).
Proof.
  intros Hc Hs [|i] a b Ha Hb Hsp.
  - injection Ha as <-. apply (Hc Hsp). destruct s; [discriminate|].
    exact Hb.
  - exact (Hs i a b Ha Hb Hsp).
Qed.

Lemma single_spaced_tail (c : ascii) (s : list ascii) :
  single_spaced (c :: s) -> single_spaced s.
Proof. intros Hs i a b Ha Hb. exact (Hs (S i) a b Ha Hb). Qed.

Lemma single_spaced_infix (k1 m k2 : list ascii) :
  single_spaced (k1 ++ m ++ k2) -> single_spaced m.
Proof.
  intros Hs i a b Ha Hb. apply (Hs (length k1 + i) a b).
  - rewrite lookup_app_r by lia.
    replace (length k1 + i - length k1) with i by lia.
    apply lookup_app_l_Some. exact Ha.
  - rewrite lookup_app_r by lia.
    replace (S (length k1 + i) - length k1) with (S i) by lia.
    apply lookup_app_l_Some. exact Hb.
Qed.

(** After a run of white space was replaced, what follows the space is
    not white space. *)
Lemma single_spaced_clean_spaces (s : list ascii) :
  forall skip,
    skip = 0 \/ skip = span_len isspace s ->
    single_spaced (re_sub_from re_spaces [space] skip s)
    /\ (skip = span_len isspace s ->
        forall b, head (re_sub_from re_spaces [space] skip s) = Some b ->
                  isspace b = false).
Proof.
  induction s as [|c r IH]; intros skip Hskip.
  - split; [intros i a b Ha; discriminate | intros _ b Hb; discriminate].
  - cbn [re_sub_from]. destruct skip as [|k].
    + unfold re_spaces. cbn [span_len]. destruct (isspace c) eqn:Hc.
      * cbn [app].
        destruct (IH (span_len isspace r) (or_intror eq_refl)) as [Hs Hh].
        split; [|discriminate].
        apply single_spaced_cons; [|exact Hs].
        intros _. apply Hh. reflexivity.
      * destruct (IH 0 (or_introl eq_refl)) as [Hs _]. split.
        -- apply single_spaced_cons; [congruence | exact Hs].
        -- intros _ b [= <-]. exact Hc.
    + destruct Hskip as [Hskip|Hskip]; [discriminate|].
      cbn [span_len] in Hskip. destruct (isspace c); [|discriminate].
      injection Hskip as ->.
      destruct (IH (span_len isspace r) (or_intror eq_refl)) as [Hs Hh].
      split; [exact Hs|]. intros _. apply Hh. reflexivity.
Qed.

(** A text whose white space is single spaces is left as it is. *)
Lemma clean_spaces_fixed (u : list ascii) :
  space_is_only_whitespace u -> single_spaced u -> clean_spaces u = u.
Proof.
  unfold clean_spaces, re_sub, space_is_only_whitespace.
  induction u as [|c r IH]; intros Honly Hs; [reflexivity|].
  apply Forall_cons in Honly as [Hc Honly].
  cbn [re_sub_from]. unfold re_spaces. cbn [span_len].
  destruct (isspace c) eqn:Hsp.
  - assert (Hr : span_len isspace r = 0).
    { destruct r as [|b r']; [reflexivity|]. cbn [span_len].
      rewrite (Hs 0 c b eq_refl eq_refl Hsp). reflexivity. }
    rewrite Hr. cbn [app]. rewrite (Hc eq_refl). f_equal.
    apply IH; [exact Honly | eapply single_spaced_tail, Hs].
  - f_equal. apply IH; [exact Honly | eapply single_spaced_tail, Hs].
Qed.

Lemma lstrip_fixed (s : list ascii) :
  (forall c, head s = Some c -> isspace c = false) -> lstrip s = s.
Proof.
  destruct s as [|c r]; [reflexivity|]. intros Hh. simpl.
  rewrite (Hh c eq_refl). reflexivity.
Qed.

Lemma strip_fixed (s : list ascii) :
  (forall c, head s = Some c -> isspace c = false) ->
  (forall c, last s = Some c -> isspace c = false) ->
  strip s = s.
Proof.
  intros Hh Hl. unfold strip, rstrip. rewrite (lstrip_fixed s Hh).
  rewrite lstrip_fixed; [apply rev_involutive|].
  intros c Hc. apply Hl. rewrite <- Hc, <- last_rev_head, rev_involutive.
  reflexivity.
Qed.

(** *** A marker that matches still matches when the text goes on *)

Lemma strip_prefix_more (lit s r k : list ascii) :
  strip_prefix lit s = Some r -> strip_prefix lit (s ++ k) = Some (r ++ k).
Proof.
  revert s. induction lit as [|a lit IH]; intros s.
  - intros [= <-]. reflexivity.
  - destruct s as [|c s]; [discriminate|]. cbn [app strip_prefix].
    destruct (Ascii.eqb a c); [apply IH | discriminate].
Qed.

Lemma span_len_more (p : ascii -> bool) (s k : list ascii) :
  span_len p s < length s -> span_len p (s ++ k) = span_len p s.
Proof.
  induction s as [|c r IH]; cbn [span_len length app]; [lia|].
  destruct (p c); [|reflexivity]. intros Hlt. f_equal. apply IH. lia.
Qed.

Lemma re_page_marker_more (t k : list ascii) :
  re_page_marker (t ++ k) = None -> re_page_marker t = None.
Proof.
  unfold re_page_marker.
  destruct (strip_prefix (str "--- Page ") t) as [r1|] eqn:H1;
    [|reflexivity].
  rewrite (strip_prefix_more _ _ _ k H1).
  destruct (span_len isdigit r1) as [|d] eqn:Hd; [reflexivity|].
  destruct (strip_prefix (str " ---") (drop (S d) r1)) as [r2|] eqn:H2;
    [|reflexivity].
  assert (Hlt : S d < length r1).
  { destruct (Nat.lt_ge_cases (S d) (length r1)) as [Hlt|Hge]; [exact Hlt|].
    rewrite drop_ge in H2 by exact Hge. discriminate H2. }
  rewrite span_len_more by (rewrite Hd; exact Hlt). rewrite Hd.
  rewrite drop_app_le by lia.
  rewrite (strip_prefix_more _ _ _ k H2). discriminate.
Qed.

Lemma marker_free_strip (s : list ascii) :
  marker_free s -> marker_free (strip s).
Proof.
  intros Hfree t [a Ht].
  destruct (strip_split s) as (k1 & k2 & Hs & _ & _).
  apply (re_page_marker_more t k2). apply Hfree.
  exists (k1 ++ a). rewrite Hs, Ht, <- !app_assoc. reflexivity.
Qed.

(** A text without a hyphen holds no page marker. *)
Lemma hyphen_free_marker_free (s : list ascii) :
  "-"%char ∉ s -> marker_free s.
Proof.
  intros Hno t [a Ht]. unfold re_page_marker.
  destruct t as [|c r]; [reflexivity|].
  cbn [str list_ascii_of_string strip_prefix].
  destruct (Ascii.eqb_spec "-" c) as [<- |]; [|reflexivity].
  exfalso. apply Hno. rewrite Ht. apply elem_of_app. right. left.
Qed.

(** X29.  On a text in which, once the white space is normalized, no page
    marker occurs, [clean_text] changes white space only: the characters
    that are not white space are those of the text, in order; in the result
    white space is never followed by white space; and cleaning the result
    again changes nothing. *)
Theorem clean_text_changes_whitespace_only (text : list ascii) :
  marker_free (clean_spaces text) ->
  clean_text text = strip (clean_spaces text)
  /\ visible (clean_text text) = visible text
  /\ single_spaced (clean_text text)
  /\ clean_text (clean_text text) = clean_text text.
Proof.
  intros Hfree.
  assert (Heq : clean_text text = strip (clean_spaces text)).
  { rewrite clean_text_eq. unfold clean_markers at 1.
    rewrite (re_sub_no_match re_page_marker [] _ Hfree). reflexivity. }
  assert (Hsingle : single_spaced (clean_text text)).
  { rewrite Heq.
    destruct (strip_split (clean_spaces text)) as (k1 & k2 & Hs & _ & _).
    apply (single_spaced_infix k1 _ k2). rewrite <- Hs.
    apply (single_spaced_clean_spaces text 0). left. reflexivity. }
  split; [exact Heq|]. split; [|split; [exact Hsingle|]].
  - rewrite Heq, visible_strip. apply (visible_clean_spaces text 0). lia.
  - rewrite (clean_text_eq (clean_text text)).
    rewrite (clean_spaces_fixed _ (clean_text_only_space text) Hsingle).
    unfold clean_markers.
    rewrite re_sub_no_match
      by (rewrite Heq; apply marker_free_strip, Hfree).
    apply strip_fixed; unfold clean_text; [apply strip_head | apply strip_last].
Qed.

Lemma clean_text_changes_whitespace_only_witness :
  marker_free (clean_spaces (str "  One.   Two three  "))
  /\ clean_text (str "  One.   Two three  ")
     = strip (clean_spaces (str "  One.   Two three  "))
  /\ visible (clean_text (str "  One.   Two three  "))
     = visible (str "  One.   Two three  ")
  /\ single_spaced (clean_text (str "  One.   Two three  "))
  /\ clean_text (clean_text (str "  One.   Two three  "))
     = clean_text (str "  One.   Two three  ").
Proof.
  assert (Hfree : marker_free (clean_spaces (str "  One.   Two three  "))).
  { apply hyphen_free_marker_free. refine (bool_decide_unpack _ _).
    vm_compute. exact I. }
  split; [exact Hfree|].
  apply (clean_text_changes_whitespace_only (str "  One.   Two three  ") Hfree).
Defined.

End CleanExtras.
